(** * nquery: the reactive core and the query cache

    A shallow embedding of the two parts of nquery that carry logic of
    their own:

    - the reactive system ([signal], [effect], [scheduleEffect] and the
      microtask flush), in [Module Reactive];
    - the query cache ([hashKey], [Query._run], [QueryClient.createQuery]),
      in [Module QueryCache].

    JavaScript values are represented by [jsval]; cache keys, which are
    serialised by [JSON.stringify], by [cache_key]. *)

From Stdlib Require Import ZArith String Ascii List Bool Lia DecimalString.
From stdpp Require Import base list strings.
Import ListNotations.
Set Warnings "-register-all".

(** ** JavaScript values *)

(** The values a signal can hold or a fetcher can produce. An object is
    represented by its address, so that [===] on objects is identity; an
    error object carries the [name] and [message] the code looks at. *)
Inductive jsval :=
| VUndefined
| VNull
| VBool (b : bool)
| VNum (n : Z)
| VNaN
| VStr (s : string)
| VObj (addr : nat)
| VError (name message : string).

(** [a === b]. [NaN] is the one value not equal to itself. *)
Definition strict_eq (a b : jsval) : bool :=
  match a, b with
  | VUndefined, VUndefined => true
  | VNull, VNull => true
  | VBool x, VBool y => Bool.eqb x y
  | VNum x, VNum y => Z.eqb x y
  | VStr x, VStr y => String.eqb x y
  | VObj x, VObj y => Nat.eqb x y
  | VError n1 m1, VError n2 m2 => String.eqb n1 n2 && String.eqb m1 m2
  | _, _ => false
  end.

(** [e?.name === "AbortError"] *)
Definition isAbortError (e : jsval) : bool :=
  match e with
  | VError name _ => String.eqb name "AbortError"
  | _ => false
  end.

(** The value a signal holds after [sig.value = v] when it held [old] and
    compares with [equals]: the setter returns early on equal values. *)
Definition signal_write (equals : jsval -> jsval -> bool) (old v : jsval) : jsval :=
  if equals old v then old else v.

(** ** Cache keys and [hashKey] *)

(** A cache key: a string, or a structure that [JSON.stringify] walks.
    Numbers are the integers, printed in decimal as JavaScript prints
    them; the properties of an object are listed in enumeration order. A
    [BigInt] makes [JSON.stringify] throw, which is what sends [hashKey]
    to its [String(key)] fallback. *)
Inductive cache_key :=
| KStr (s : string)
| KNum (n : Z)
| KBool (b : bool)
| KNull
| KBigInt (n : Z)
| KArr (items : list cache_key)
| KObj (props : list (string * cache_key)).

Definition number_to_string (n : Z) : string :=
  NilZero.string_of_int (Z.to_int n).

Definition quote_char : ascii := ascii_of_nat 34.
Definition backslash : ascii := ascii_of_nat 92.

Definition hex_digit (n : nat) : ascii :=
  nth n (list_ascii_of_string "0123456789abcdef") "0"%char.

Definition esc (c : ascii) : string := String backslash (String c EmptyString).

(** The escape of one character inside a JSON string literal. *)
Definition json_escape (c : ascii) : string :=
  let n := nat_of_ascii c in
  if Nat.eqb n 34 then esc quote_char
  else if Nat.eqb n 92 then esc backslash
  else if Nat.eqb n 8 then esc "b"%char
  else if Nat.eqb n 12 then esc "f"%char
  else if Nat.eqb n 10 then esc "n"%char
  else if Nat.eqb n 13 then esc "r"%char
  else if Nat.eqb n 9 then esc "t"%char
  else if Nat.ltb n 32 then
    String backslash
      (String "u" (String "0" (String "0"
         (String (hex_digit (n / 16)) (String (hex_digit (n mod 16)) EmptyString)))))
  else String c EmptyString.

Fixpoint json_escape_string (s : string) : string :=
  match s with
  | EmptyString => EmptyString
  | String c r => String.append (json_escape c) (json_escape_string r)
  end.

Definition json_quote (s : string) : string :=
  String quote_char
    (String.append (json_escape_string s) (String quote_char EmptyString)).

(** [JSON.stringify(key)]; [None] when it throws. *)
Fixpoint stringify (k : cache_key) : option string :=
  match k with
  | KStr s => Some (json_quote s)
  | KNum n => Some (number_to_string n)
  | KBool b => Some (if b then "true" else "false")
  | KNull => Some "null"
  | KBigInt _ => None
  | KArr items =>
      let fix elems (l : list cache_key) : option (list string) :=
        match l with
        | [] => Some []
        | x :: r =>
            match stringify x, elems r with
            | Some s, Some ss => Some (s :: ss)
            | _, _ => None
            end
        end in
      match elems items with
      | Some ss => Some (String.append "[" (String.append (String.concat "," ss) "]"))
      | None => None
      end
  | KObj props =>
      let fix members (l : list (string * cache_key)) : option (list string) :=
        match l with
        | [] => Some []
        | (name, x) :: r =>
            match stringify x, members r with
            | Some s, Some ss =>
                Some (String.append (json_quote name) (String.append ":" s) :: ss)
            | _, _ => None
            end
        end in
      match members props with
      | Some ss => Some (String.append "{" (String.append (String.concat "," ss) "}"))
      | None => None
      end
  end.

(** [String(key)]: an array joins its elements with commas, [null]
    elements printing as the empty string. *)
Fixpoint to_string (k : cache_key) : string :=
  match k with
  | KStr s => s
  | KNum n => number_to_string n
  | KBool b => if b then "true" else "false"
  | KNull => "null"
  | KBigInt n => number_to_string n
  | KArr items =>
      let fix elems (l : list cache_key) : list string :=
        match l with
        | [] => []
        | x :: r =>
            (match x with KNull => EmptyString | _ => to_string x end) :: elems r
        end in
      String.concat "," (elems items)
  | KObj _ => "[object Object]"
  end.

(** [hashKey]: a string is its own hash; anything else goes through
    [JSON.stringify], and through [String] when that throws. *)
Definition hashKey (k : cache_key) : string :=
  match k with
  | KStr s => s
  | _ => match stringify k with
         | Some s => s
         | None => to_string k
         end
  end.

(** ** The reactive system *)

Module Reactive.

(** What the function of an effect, or the callback of a subscriber,
    does with the reactive system: it reads signals through the getter
    (and goes on with the value it got), writes them through the setter,
    creates effects, calls the disposer of an effect, returns or throws.
    A signal is named by its index in [signals], a function by its index
    in [fns]. *)
Inductive prog :=
| Done
| Throw (e : jsval)
| Read (s : nat) (k : jsval -> prog)
| Write (s : nat) (v : jsval) (k : prog)
| NewEffect (body : prog) (k : prog)
| Dispose (f : nat) (k : prog).

(** A function that the scheduler may be asked to run: the [runner] of an
    effect, with the [active] flag of its closure and its [_deps], or the
    [wrapper] that [subscribe] makes around a callback. [_deps] holds the
    subscriber sets the runner is in, each named by its signal. *)
Inductive fn :=
| Runner (body : prog) (active : bool) (_deps : list nat)
| Wrapper (s : nat) (cb : jsval -> prog).

(** The closure of a signal: [_val], [subs] (a [Set], in insertion
    order) and [equals]. *)
Record signal_cell := mkSignal {
  _val : jsval;
  subs : list nat;
  equals : jsval -> jsval -> bool
}.

(** What can be seen of a run from outside. A read is marked with the
    effect whose function made it ([None]: code outside any effect), a
    committed write with its value; [EvInvoke] is the flush calling a
    function of the queue, [EvCallback] a subscriber's callback being
    called, [EvDispose] a disposer being called, [EvConsoleError] the
    [console.error] of the flush. *)
Inductive event :=
| EvRead (self : option nat) (s : nat) (v : jsval)
| EvWrite (s : nat) (v : jsval)
| EvInvoke (f : nat)
| EvCallback (w : nat) (v : jsval)
| EvThrow (e : jsval)
| EvDispose (f : nat)
| EvConsoleError (e : jsval).

(** The module-level variables of the reactive system, the objects they
    refer to, the flush tasks waiting in the microtask queue and the
    events so far. [_effectStack] has its top first. *)
Record state := mkState {
  signals : list signal_cell;
  fns : list fn;
  _currentEffect : option nat;
  _effectStack : list nat;
  _effectQueue : list nat;
  _effectScheduled : bool;
  microtasks : nat;
  log : list event
}.

Definition initial_state : state :=
  {| signals := []; fns := []; _currentEffect := None; _effectStack := [];
     _effectQueue := []; _effectScheduled := false; microtasks := 0;
     log := [] |}.

Definition set_signals (x : list signal_cell) (st : state) : state :=
  mkState x (fns st) (_currentEffect st) (_effectStack st) (_effectQueue st)
    (_effectScheduled st) (microtasks st) (log st).
Definition set_fns (x : list fn) (st : state) : state :=
  mkState (signals st) x (_currentEffect st) (_effectStack st) (_effectQueue st)
    (_effectScheduled st) (microtasks st) (log st).
Definition set_current (x : option nat) (st : state) : state :=
  mkState (signals st) (fns st) x (_effectStack st) (_effectQueue st)
    (_effectScheduled st) (microtasks st) (log st).
Definition set_stack (x : list nat) (st : state) : state :=
  mkState (signals st) (fns st) (_currentEffect st) x (_effectQueue st)
    (_effectScheduled st) (microtasks st) (log st).
Definition set_queue (x : list nat) (st : state) : state :=
  mkState (signals st) (fns st) (_currentEffect st) (_effectStack st) x
    (_effectScheduled st) (microtasks st) (log st).
Definition set_scheduled (x : bool) (st : state) : state :=
  mkState (signals st) (fns st) (_currentEffect st) (_effectStack st)
    (_effectQueue st) x (microtasks st) (log st).
Definition set_microtasks (x : nat) (st : state) : state :=
  mkState (signals st) (fns st) (_currentEffect st) (_effectStack st)
    (_effectQueue st) (_effectScheduled st) x (log st).
Definition emits (evs : list event) (st : state) : state :=
  mkState (signals st) (fns st) (_currentEffect st) (_effectStack st)
    (_effectQueue st) (_effectScheduled st) (microtasks st) (log st ++ evs).
Definition emit (e : event) : state -> state := emits [e].

(** [Set.prototype.add] and [delete] on a set kept in insertion order. *)
Definition set_add (x : nat) (l : list nat) : list nat :=
  if decide (x ∈ l) then l else l ++ [x].
Definition set_delete (x : nat) (l : list nat) : list nat :=
  List.filter (fun y => negb (Nat.eqb y x)) l.

Inductive outcome := Normal | Thrown (e : jsval).

(** [scheduleEffect(effectFn)]: the function joins the queue, and the
    first one to do so since the last flush puts a flush task in the
    microtask queue. *)
Definition scheduleEffect (f : nat) (st : state) : state :=
  let st1 := set_queue (set_add f (_effectQueue st)) st in
  if _effectScheduled st1 then st1
  else set_microtasks (S (microtasks st1)) (set_scheduled true st1).

Definition add_sub (f : nat) (c : signal_cell) : signal_cell :=
  {| _val := _val c; subs := set_add f (subs c); equals := equals c |}.
Definition delete_sub (f : nat) (c : signal_cell) : signal_cell :=
  {| _val := _val c; subs := set_delete f (subs c); equals := equals c |}.
Definition store_val (v : jsval) (c : signal_cell) : signal_cell :=
  {| _val := v; subs := subs c; equals := equals c |}.

Definition add_dep (s : nat) (f : fn) : fn :=
  match f with
  | Runner body active deps => Runner body active (set_add s deps)
  | Wrapper _ _ => f
  end.

(** The getter of [sig.value]: under a running effect it enters the
    effect in [subs] and [subs] in the effect's [_deps]; it returns
    [_val]. [None] when there is no signal [s]. *)
Definition get_value (s : nat) (st : state) : option (jsval * state) :=
  match signals st !! s with
  | Some c =>
      let st1 :=
        match _currentEffect st with
        | Some f =>
            set_fns (alter (add_dep s) f (fns st))
              (set_signals (alter (add_sub f) s (signals st)) st)
        | None => st
        end in
      Some (_val c, st1)
  | None => None
  end.

(** The setter of [sig.value]: nothing on an equal value; otherwise the
    value is stored and every function in [subs] is scheduled. (The
    devtools hook that follows is empty.) [None] when there is no signal
    [s]. *)
Definition set_value (s : nat) (v : jsval) (st : state) : option state :=
  match signals st !! s with
  | Some c =>
      if equals c (_val c) v then Some st
      else
        let st1 := set_signals (alter (store_val v) s (signals st)) st in
        Some (fold_left (fun st f => scheduleEffect f st) (subs c)
                (emit (EvWrite s v) st1))
  | None => None
  end.

(** [cleanupEffect(effectFn)] *)
Definition cleanupEffect (f : nat) (st : state) : state :=
  match fns st !! f with
  | Some (Runner body active deps) =>
      set_fns (<[f := Runner body active []]> (fns st))
        (set_signals
           (fold_left (fun sigs s => alter (delete_sub f) s sigs) deps
              (signals st))
           st)
  | _ => st
  end.

(** The body of [runner] once it is known to be active: clean up, push,
    run the function, and in the [finally] pop and restore
    [_currentEffect] from the top of the stack. *)
Definition run_in (f : nat) (run : state -> state * outcome) (st : state)
    : state * outcome :=
  let st1 := cleanupEffect f st in
  let st2 := set_current (Some f) (set_stack (f :: _effectStack st1) st1) in
  let '(st3, r) := run st2 in
  let stack' := tail (_effectStack st3) in
  (set_current (head stack') (set_stack stack' st3), r).

(** [effect(fn)], given how to run [fn]: a new runner, active and without
    dependencies, run at once. *)
Definition effect_with (body : prog) (run : state -> state * outcome)
    (st : state) : state * outcome :=
  run_in (length (fns st)) run (set_fns (fns st ++ [Runner body true []]) st).

Definition deactivate (x : fn) : fn :=
  match x with
  | Runner body _ deps => Runner body false deps
  | Wrapper _ _ => x
  end.

(** The disposer that [effect] returns: [active = false], then
    [cleanupEffect(runner)]. The runner stands for its disposer. *)
Definition dispose (f : nat) (st : state) : state :=
  cleanupEffect f (set_fns (alter deactivate f (fns st)) st).

(** A body that names a signal that does not exist ends there, with an
    exception. *)
Definition dangling (st : state) : state * outcome :=
  let e := VError "ReferenceError" "no such signal" in
  (emit (EvThrow e) st, Thrown e).

(** Running the body of a function; [self] is the effect whose function
    it is, if any. An exception ends the body, and goes through the
    [finally] of every runner it is nested in. *)
Fixpoint exec (self : option nat) (p : prog) (st : state) : state * outcome :=
  match p with
  | Done => (st, Normal)
  | Throw e => (emit (EvThrow e) st, Thrown e)
  | Read s k =>
      match get_value s st with
      | Some (v, st') => exec self (k v) (emit (EvRead self s v) st')
      | None => dangling st
      end
  | Write s v k =>
      match set_value s v st with
      | Some st' => exec self k st'
      | None => dangling st
      end
  | NewEffect body k =>
      match effect_with body (exec (Some (length (fns st))) body) st with
      | (st', Normal) => exec self k st'
      | (st', Thrown e) => (st', Thrown e)
      end
  | Dispose f k => exec self k (emit (EvDispose f) (dispose f st))
  end.

(** [effect(fn)]: the state afterwards, the runner and whether the first
    run threw. *)
Definition effect (body : prog) (st : state) : state * nat * outcome :=
  let '(st', r) :=
    effect_with body (exec (Some (length (fns st))) body) st in
  (st', length (fns st), r).

(** [signal(initial, options)], with [options.equals] when it is a
    function. *)
Definition signal (initial : jsval) (eq : option (jsval -> jsval -> bool))
    (st : state) : state * nat :=
  (set_signals
     (signals st ++
      [{| _val := initial; subs := [];
          equals := match eq with Some f => f | None => strict_eq end |}]) st,
   length (signals st)).

(** [sig.subscribe(fn)]: the wrapper joins [subs]; the wrapper stands for
    the unsubscribe function too. *)
Definition subscribe (s : nat) (cb : jsval -> prog) (st : state) : state * nat :=
  let w := length (fns st) in
  (set_signals (alter (add_sub w) s (signals st))
     (set_fns (fns st ++ [Wrapper s cb]) st), w).

Definition unsubscribe (w : nat) (st : state) : state :=
  match fns st !! w with
  | Some (Wrapper s _) => set_signals (alter (delete_sub w) s (signals st)) st
  | _ => st
  end.

(** Calling a function of the queue: a runner returns at once when it is
    not active; a wrapper calls its callback with [_val]. *)
Definition call (f : nat) (st : state) : state * outcome :=
  match fns st !! f with
  | Some (Runner body active _) =>
      if active then run_in f (exec (Some f) body) st else (st, Normal)
  | Some (Wrapper s cb) =>
      match signals st !! s with
      | Some c => exec None (cb (_val c)) (emit (EvCallback f (_val c)) st)
      | None => (st, Normal)
      end
  | None => (st, Normal)
  end.

(** [try { body } catch (e) { handler }] and [forEach]. *)
Definition try_catch (body : state -> state * outcome)
    (handler : jsval -> state -> state * outcome) (st : state)
    : state * outcome :=
  match body st with
  | (st', Normal) => (st', Normal)
  | (st', Thrown e) => handler e st'
  end.

Fixpoint for_each (xs : list nat) (body : nat -> state -> state * outcome)
    (st : state) : state * outcome :=
  match xs with
  | [] => (st, Normal)
  | x :: xs' =>
      match body x st with
      | (st', Normal) => for_each xs' body st'
      | (st', Thrown e) => (st', Thrown e)
      end
  end.

Definition console_error (e : jsval) (st : state) : state * outcome :=
  (emit (EvConsoleError e) st, Normal).

(** The task that [scheduleEffect] hands to [queueMicrotask]. *)
Definition flush (st : state) : state * outcome :=
  let st1 := set_scheduled false st in
  let toRun := _effectQueue st1 in
  let st2 := set_queue [] st1 in
  for_each toRun
    (fun f => try_catch (fun st => call f (emit (EvInvoke f) st)) console_error)
    st2.

(** The next microtask, if one is waiting. *)
Definition run_microtask (st : state) : state * outcome :=
  match microtasks st with
  | 0 => (st, Normal)
  | S n => flush (set_microtasks n st)
  end.

(** The microtask queue is run until it is empty, or an exception
    escapes a task, or [fuel] tasks have run. *)
Fixpoint run_microtasks (fuel : nat) (st : state) : state * outcome :=
  match fuel with
  | 0 => (st, Normal)
  | S fuel' =>
      match microtasks st with
      | 0 => (st, Normal)
      | S _ =>
          match run_microtask st with
          | (st', Normal) => run_microtasks fuel' st'
          | (st', Thrown e) => (st', Thrown e)
          end
      end
  end.

(** Assignments [sig.value = v] made one after the other by code that
    is not inside an effect; one to a signal that does not exist is
    skipped. *)
Definition write_all (ws : list (nat * jsval)) (st : state) : state :=
  fold_left
    (fun st w => match set_value w.1 w.2 st with Some st' => st' | None => st end)
    ws st.

(** A turn of the event loop that writes the values [vs] to the signal
    [s], one after the other, followed by the microtasks it leaves; and a
    sequence of such turns. *)
Definition turn (fuel : nat) (s : nat) (vs : list jsval) (st : state) : state :=
  (run_microtasks fuel (write_all (map (fun v => (s, v)) vs) st)).1.

Definition turns (fuel : nat) (s : nat) (ts : list (list jsval)) (st : state)
    : state :=
  fold_left (fun st vs => turn fuel s vs st) ts st.




(** The projections of a list of events. *)
Definition invoked (evs : list event) : list nat :=
  omap (fun e => match e with EvInvoke f => Some f | _ => None end) evs.
Definition thrown (evs : list event) : list jsval :=
  omap (fun e => match e with EvThrow x => Some x | _ => None end) evs.
Definition reported (evs : list event) : list jsval :=
  omap (fun e => match e with EvConsoleError x => Some x | _ => None end) evs.
Definition calls_of (w : nat) (evs : list event) : list jsval :=
  omap (fun e => match e with
                 | EvCallback w' v => if Nat.eqb w' w then Some v else None
                 | _ => None
                 end) evs.
Definition reads_by (f : nat) (evs : list event) : list nat :=
  omap (fun e => match e with
                 | EvRead (Some f') s _ => if Nat.eqb f' f then Some s else None
                 | _ => None
                 end) evs.
Definition disposed (evs : list event) : list nat :=
  omap (fun e => match e with EvDispose f => Some f | _ => None end) evs.
Definition is_write (e : event) : Prop :=
  match e with EvWrite _ _ => True | _ => False end.

(** The subscribers of the signal [s], the value in it, and the
    dependencies recorded for the function [f]. *)
Definition subs_at (st : state) (s : nat) : list nat :=
  match signals st !! s with Some c => subs c | None => [] end.
Definition val_at (st : state) (s : nat) : option jsval :=
  _val <$> signals st !! s.
Definition deps_of (st : state) (f : nat) : list nat :=
  match fns st !! f with Some (Runner _ _ deps) => deps | _ => [] end.

(** Nothing is running and nothing is waiting to run. *)
Definition quiescent (st : state) : Prop :=
  _currentEffect st = None /\ _effectStack st = [] /\
  _effectQueue st = [] /\ _effectScheduled st = false /\ microtasks st = 0.

(** What a run of reads adds to a runner. *)
Definition add_deps (ss : list nat) (x : fn) : fn :=
  fold_left (fun x s => add_dep s x) ss x.

(** The exception an outcome carries, and the events that the body of a
    function can leave. *)
Definition exns (r : outcome) : list jsval :=
  match r with Normal => [] | Thrown e => [e] end.
Definition body_event (e : event) : Prop :=
  match e with
  | EvRead _ _ _ | EvWrite _ _ | EvThrow _ | EvDispose _ => True
  | _ => False
  end.

(** What a body leaves in the log: reads, writes and at most one throw,
    which is the exception it ends with. *)
Definition traced (st : state) (res : state * outcome) : Prop :=
  exists evs, log res.1 = log st ++ evs /\ Forall body_event evs /\
              thrown evs = exns res.2.

(** What an event does to the record of the function [f]: a read by
    [f] enters the signal in its dependencies, its disposal clears them
    and switches it off. *)
Definition replay_event (f : nat) (e : event) (x : fn) : fn :=
  match e with
  | EvRead (Some g) s _ => if Nat.eqb g f then add_dep s x else x
  | EvDispose g =>
      if Nat.eqb g f
      then match x with
           | Runner body _ _ => Runner body false []
           | Wrapper _ _ => x
           end
      else x
  | _ => x
  end.

Definition replay (f : nat) (evs : list event) (x : fn) : fn :=
  fold_left (fun x e => replay_event f e x) evs x.

(** From [st] to [st'] no function was lost, and the record of every
    function of [st] changed as the events [evs] say. *)
Definition tracks (st st' : state) (evs : list event) : Prop :=
  length (fns st) <= length (fns st') /\
  forall f, f < length (fns st) ->
    fns st' !! f = replay f evs <$> fns st !! f.

(** The registrations are consistent: a runner is among the subscribers
    of exactly the signals in its dependencies, and whatever is named by
    a subscriber set, by [_currentEffect] or by the stack exists. *)
Definition well_formed (st : state) : Prop :=
  (forall f body active deps,
     fns st !! f = Some (Runner body active deps) ->
     forall s, f ∈ subs_at st s <-> s ∈ deps) /\
  (forall s f, f ∈ subs_at st s -> f < length (fns st)) /\
  (forall g, _currentEffect st = Some g -> g < length (fns st)) /\
  Forall (fun g => g < length (fns st)) (_effectStack st).

(** A body run at [st] under the effect [self] (or under none) gave
    [res]: the log grew by events that account for every registration,
    and the running effect and the stack are as they were. *)
Definition tracked (self : option nat) (st : state) (res : state * outcome)
    : Prop :=
  exists evs, log res.1 = log st ++ evs /\ tracks st res.1 evs /\
              _currentEffect res.1 = self /\
              _effectStack res.1 = _effectStack st.

(** From [st] to [st'], leaving the events [evs]: every read returned
    the value that the signal had in [st], or one that was written
    meanwhile; and so for the values that the signals have in [st']. *)
Definition explains (st st' : state) (evs : list event) : Prop :=
  (forall self s v, EvRead self s v ∈ evs ->
     val_at st s = Some v \/ EvWrite s v ∈ evs) /\
  (forall s v, val_at st' s = Some v ->
     val_at st s = Some v \/ EvWrite s v ∈ evs).


(** The scheduler between two flushes: either nothing is scheduled, or
    one flush is waiting for the functions in the queue. *)
Definition scheduler_ok (st : state) : Prop :=
  NoDup (_effectQueue st) /\
  ((_effectScheduled st = false /\ microtasks st = 0 /\ _effectQueue st = [])
   \/ (_effectScheduled st = true /\ microtasks st = 1)).


(** What code outside any effect can do to the reactive system, one
    call at a time, and the microtask that runs between turns. *)
Inductive action :=
| DoSignal (initial : jsval) (eq : option (jsval -> jsval -> bool))
| DoEffect (body : prog)
| DoSubscribe (s : nat) (cb : jsval -> prog)
| DoUnsubscribe (w : nat)
| DoDispose (f : nat)
| DoWrite (s : nat) (v : jsval)
| DoMicrotask.

Definition act (a : action) (st : state) : state :=
  match a with
  | DoSignal initial eq => (signal initial eq st).1
  | DoEffect body => (effect body st).1.1
  | DoSubscribe s cb => (subscribe s cb st).1
  | DoUnsubscribe w => unsubscribe w st
  | DoDispose f => dispose f st
  | DoWrite s v => write_all [(s, v)] st
  | DoMicrotask => (run_microtask st).1
  end.

Definition run_actions (acts : list action) (st : state) : state :=
  fold_left (fun st a => act a st) acts st.

(** *** Examples *)


(** Two signals, 0 holding 0 and 1 holding 10, and an effect, function
    0, that reads signal 0 and, only when it finds 0 there, signal 1. *)
Definition two_signals : state :=
  (signal (VNum 10) None (signal (VNum 0) None initial_state).1).1.

Definition branching : prog :=
  Read 0 (fun v => match v with
                   | VNum 0 => Read 1 (fun _ => Done)
                   | _ => Done
                   end).


(** Signal 0 has been written 1 since the first run of that effect. *)
Definition branching_stale : state :=
  run_actions [DoEffect branching; DoWrite 0 (VNum 1)] two_signals.

(** The same two signals and an effect, function 0, that reads signal 0
    and, unless it finds 0 there, disposes itself and then reads
    signal 1; signal 0 has been written 1 since the first run. *)
Definition self_disposing : prog :=
  Read 0 (fun v => match v with
                   | VNum 0 => Done
                   | _ => Dispose 0 (Read 1 (fun _ => Done))
                   end).

Definition about_to_dispose : state :=
  run_actions [DoEffect self_disposing; DoWrite 0 (VNum 1)] two_signals.

End Reactive.

(** ** The query cache *)

Module QueryCache.

(** The [status] signal holds one of four strings. *)
Inductive Status := Idle | Loading | Success | Errored.

Definition Status_eqb (a b : Status) : bool :=
  match a, b with
  | Idle, Idle | Loading, Loading | Success, Success | Errored, Errored => true
  | _, _ => false
  end.

(** The options object of a query. A field the caller left out is [None]
    (or [VUndefined] for [initialData]). The three callbacks are user
    functions the query only calls: each is recorded by whether it is
    configured, and a call of it by the event it leaves ([qevent] below).
    A callback returns normally, and so does [select]; the one user
    function that may fail is the fetcher. [initialFetch] is [false] only
    when the caller passed [initialFetch: false]. *)
Record QueryOptions := mkOptions {
  initialData : jsval;
  o_staleTime : option Z;
  o_cacheTime : option Z;
  o_select : option (jsval -> jsval);
  onSuccess : bool;
  onError : bool;
  onSettled : bool;
  refetchInterval : option Z;
  keepPreviousData : bool;
  forceRefetch : bool;
  initialFetch : bool
}.

(** [QueryClient.defaultOptions], as far as a query reads them. *)
Record DefaultOptions := mkDefaults {
  d_staleTime : Z;
  d_cacheTime : Z;
  d_select : option (jsval -> jsval)
}.

(** The defaults of [new QueryClient()]. *)
Definition defaultOptions0 : DefaultOptions :=
  {| d_staleTime := 60000; d_cacheTime := 5 * 60000; d_select := None |}.

(** A [Query]. [data], [error], [status] and [isFetching] are signals, of
    which the record keeps the current value. The fetcher is a user
    function, named here by a number; [abortController] names the attempt
    the controller was made for. *)
Record Query := mkQuery {
  key : cache_key;
  hash : string;
  fetcher : nat;
  options : QueryOptions;
  data : jsval;
  error : jsval;
  status : Status;
  isFetching : bool;
  lastUpdated : Z;
  requestId : nat;
  abortController : option nat;
  subCount : nat
}.

(** What a query does to the world around it. *)
Inductive qevent :=
| Fetch (id : nat) (fn : nat)        (* [fetchFn()] for attempt [id] *)
| Abort (id : nat)                   (* [abortController.abort()] *)
| OnSuccess (selected : jsval)
| OnError (e : jsval)
| OnSettled (selected e : jsval).

(** How the promise of [fetchFn()] settles, and how the promise that
    [_run] returned does. *)
Inductive fetched := Fulfilled (raw : jsval) | Failed (e : jsval).
Inductive settled := Resolved (v : jsval) | Rejected (e : jsval).

(** [_run] up to its [await]: either the cached value at once, or an
    attempt in flight under the captured [currentId]. *)
Inductive begun := Cached (v : jsval) | Pending (currentId : nat).

(** [new Query(client, key, fetcher, options)]. The interval timer of
    [refetchInterval] only ever calls [refetch], which is [Run] below. *)
Definition newQuery (k : cache_key) (fn : nat) (o : QueryOptions) : Query :=
  {| key := k; hash := hashKey k; fetcher := fn; options := o;
     data := initialData o;
     error := VNull;
     status := if strict_eq (initialData o) VUndefined then Idle else Success;
     isFetching := false;
     lastUpdated := 0;
     requestId := 0;
     abortController := None;
     subCount := 0 |}.

(** [get staleTime()] and [get select()] *)
Definition staleTime (d : DefaultOptions) (q : Query) : Z :=
  match o_staleTime (options q) with Some t => t | None => d_staleTime d end.

Definition select (d : DefaultOptions) (q : Query) : option (jsval -> jsval) :=
  match o_select (options q) with Some f => Some f | None => d_select d end.

(** [isStale()], at the time [now] that [Date.now()] returns. *)
Definition isStale (d : DefaultOptions) (now : Z) (q : Query) : bool :=
  (staleTime d q <? now - lastUpdated q)%Z.

Definition is_set {A} (o : option A) : bool :=
  match o with Some _ => true | None => false end.

Definition fires (configured : bool) (e : qevent) : list qevent :=
  if configured then [e] else [].

(** [_run(force)] from its entry to the [await]. [hasAbortController] says
    whether the environment defines [AbortController]. *)
Definition _run_begin (hasAbortController : bool) (d : DefaultOptions)
    (now : Z) (force : bool) (q : Query) : Query * begun * list qevent :=
  let allowStale :=
    negb force && negb (isStale d now q) && Status_eqb (status q) Success
    && negb (forceRefetch (options q)) in
  if allowStale then (q, Cached (data q), [])
  else
    let currentId := S (requestId q) in
    let aborts :=
      match abortController q with Some c => [Abort c] | None => [] end in
    let isBackground := Status_eqb (status q) Success in
    ({| key := key q; hash := hash q; fetcher := fetcher q; options := options q;
        data := data q;
        error := error q;
        status :=
          if negb isBackground || negb (keepPreviousData (options q))
          then Loading else status q;
        isFetching := true;
        lastUpdated := lastUpdated q;
        requestId := currentId;
        abortController := if hasAbortController then Some currentId else None;
        subCount := subCount q |},
     Pending currentId,
     aborts ++ [Fetch currentId (fetcher q)]).

(** [_run] from the [await] on, for the attempt that captured
    [currentId], once its fetch has settled as [r] at time [now]. *)
Definition _run_settle (d : DefaultOptions) (now : Z) (currentId : nat)
    (r : fetched) (q : Query) : Query * settled * list qevent :=
  match r with
  | Fulfilled raw =>
      if negb (Nat.eqb currentId (requestId q)) then (q, Resolved (data q), [])
      else
        let selected := match select d q with Some f => f raw | None => raw end in
        ({| key := key q; hash := hash q; fetcher := fetcher q; options := options q;
            data := signal_write strict_eq (data q) selected;
            error := signal_write strict_eq (error q) VNull;
            status := Success;
            isFetching := false;
            lastUpdated := now;
            requestId := requestId q;
            abortController := abortController q;
            subCount := subCount q |},
         Resolved selected,
         fires (onSuccess (options q)) (OnSuccess selected)
         ++ fires (onSettled (options q)) (OnSettled selected VNull))
  | Failed e =>
      if is_set (abortController q) && isAbortError e
      then (q, Resolved (data q), [])
      else if negb (Nat.eqb currentId (requestId q))
      then (q, Resolved (data q), [])
      else
        ({| key := key q; hash := hash q; fetcher := fetcher q; options := options q;
            data := data q;
            error := signal_write strict_eq (error q) e;
            status := Errored;
            isFetching := false;
            lastUpdated := lastUpdated q;
            requestId := requestId q;
            abortController := abortController q;
            subCount := subCount q |},
         Rejected e,
         fires (onError (options q)) (OnError e)
         ++ fires (onSettled (options q)) (OnSettled VUndefined e))
  end.

(** [refetch(force)] is [_run(force)]. *)
Definition refetch := _run_begin.

(** *** QueryClient *)

(** The [queries] map, a JavaScript [Map] from hash to query: an
    association list in insertion order. A [Query] is an object, held in
    [store] and named by its index there, so that two references are the
    same query exactly when they are the same number. *)
Fixpoint map_get (h : string) (m : list (string * nat)) : option nat :=
  match m with
  | [] => None
  | (h', r) :: m' => if String.eqb h h' then Some r else map_get h m'
  end.

Fixpoint map_set (h : string) (r : nat) (m : list (string * nat))
    : list (string * nat) :=
  match m with
  | [] => [(h, r)]
  | (h', r') :: m' =>
      if String.eqb h h' then (h, r) :: m' else (h', r') :: map_set h r m'
  end.

Record QueryClient := mkClient {
  queries : list (string * nat);
  store : list Query;
  defaultOptions : DefaultOptions
}.

(** [new QueryClient()] *)
Definition newClient (d : DefaultOptions) : QueryClient :=
  {| queries := []; store := []; defaultOptions := d |}.

(** [createQuery(key, fetcher, options)]: the reference it returns, the
    client afterwards and what happened on the way. The promise of the
    initial [refetch(true)] is dropped behind [.catch(() => {})]. *)
Definition createQuery (hasAbortController : bool) (now : Z)
    (k : cache_key) (fn : nat) (o : QueryOptions) (c : QueryClient)
    : QueryClient * nat * list qevent :=
  let h := hashKey k in
  match map_get h (queries c) with
  | Some existing => (c, existing, [])
  | None =>
      let q := newQuery k fn o in
      let r := length (store c) in
      let qs := map_set h r (queries c) in
      if initialFetch o then
        let '(q', _, evs) :=
          refetch hasAbortController (defaultOptions c) now true q in
        ({| queries := qs; store := store c ++ [q'];
            defaultOptions := defaultOptions c |}, r, evs)
      else
        ({| queries := qs; store := store c ++ [q];
            defaultOptions := defaultOptions c |}, r, [])
  end.

(** [getQuery(key)] *)
Definition getQuery (k : cache_key) (c : QueryClient) : option nat :=
  map_get (hashKey k) (queries c).

(** [q.refetch(force)] and the settling of one of its attempts, on the
    query that the reference [r] names. *)
Definition client_refetch (hasAbortController : bool) (now : Z)
    (force : bool) (r : nat) (c : QueryClient) : QueryClient * list qevent :=
  match store c !! r with
  | Some q =>
      let '(q', _, evs) :=
        refetch hasAbortController (defaultOptions c) now force q in
      ({| queries := queries c; store := <[r := q']> (store c);
          defaultOptions := defaultOptions c |}, evs)
  | None => (c, [])
  end.

Definition client_settle (now : Z) (r currentId : nat) (res : fetched)
    (c : QueryClient) : QueryClient * list qevent :=
  match store c !! r with
  | Some q =>
      let '(q', _, evs) := _run_settle (defaultOptions c) now currentId res q in
      ({| queries := queries c; store := <[r := q']> (store c);
          defaultOptions := defaultOptions c |}, evs)
  | None => (c, [])
  end.

(** The hash [h] leads to the reference [r], and the query there was made
    with the fetcher [fn] and the options [o]. *)
Definition holds (h : string) (r fn : nat) (o : QueryOptions)
    (c : QueryClient) : Prop :=
  map_get h (queries c) = Some r /\
  exists q, store c !! r = Some q /\ fetcher q = fn /\ options q = o.




(** The attempts of one query, one after the other: what [_run] is asked
    and how fetches settle. *)
Inductive query_op :=
| Run (now : Z) (force : bool)
| Settle (now : Z) (currentId : nat) (res : fetched).

Definition query_step (hasAbortController : bool) (d : DefaultOptions)
    (op : query_op) (q : Query) : Query * list qevent :=
  match op with
  | Run now force =>
      let '(q', _, evs) := _run_begin hasAbortController d now force q in (q', evs)
  | Settle now currentId res =>
      let '(q', _, evs) := _run_settle d now currentId res q in (q', evs)
  end.

(** The query after a list of steps, with everything that happened. *)
Fixpoint query_steps (hasAbortController : bool) (d : DefaultOptions)
    (ops : list query_op) (q : Query) : Query * list qevent :=
  match ops with
  | [] => (q, [])
  | op :: ops' =>
      let '(q1, evs1) := query_step hasAbortController d op q in
      let '(q2, evs2) := query_steps hasAbortController d ops' q1 in
      (q2, evs1 ++ evs2)
  end.

(** A query with every callback configured and nothing else set, and the
    attempts it goes through in the examples below. *)
Definition plain_options : QueryOptions :=
  {| initialData := VUndefined; o_staleTime := None; o_cacheTime := None;
     o_select := None; onSuccess := true; onError := true; onSettled := true;
     refetchInterval := None; keepPreviousData := false;
     forceRefetch := false; initialFetch := true |}.

Definition fresh_query : Query := newQuery (KStr "todos") 0 plain_options.

(** [fresh_query] with one attempt in flight, and with a second one
    started before the first has settled. *)
Definition one_in_flight : Query :=
  (_run_begin true defaultOptions0 1000 false fresh_query).1.1.

Definition two_in_flight : Query :=
  (_run_begin true defaultOptions0 1005 false one_in_flight).1.1.

(** The same query created with [forceRefetch: true], after its first
    fetch has succeeded at time 1005. *)
Definition eager_options : QueryOptions :=
  {| initialData := VUndefined; o_staleTime := None; o_cacheTime := None;
     o_select := None; onSuccess := true; onError := true; onSettled := true;
     refetchInterval := None; keepPreviousData := false;
     forceRefetch := true; initialFetch := true |}.

Definition eager_loaded : Query :=
  (query_steps true defaultOptions0
     [Run 1000 false; Settle 1005 1 (Fulfilled (VNum 7))]
     (newQuery (KStr "todos") 0 eager_options)).1.

Definition is_fetch (e : qevent) : bool :=
  match e with Fetch _ _ => true | _ => false end.

(** How often the fetcher was called. *)
Definition fetch_count (evs : list qevent) : nat :=
  length (List.filter is_fetch evs).

End QueryCache.


(** ** The rest of the query client *)

Module ClientOps.
Import QueryCache.

Definition set_subCount (n : nat) (q : Query) : Query :=
  {| key := key q; hash := hash q; fetcher := fetcher q; options := options q;
     data := data q; error := error q; status := status q;
     isFetching := isFetching q; lastUpdated := lastUpdated q;
     requestId := requestId q; abortController := abortController q;
     subCount := n |}.

(** [Query.subscribe(listener)] wraps the listener four times, once for
    each of [data], [status], [error] and [isFetching], and counts the
    call in [subCount]; the function it returns takes the four wrappers
    out again and counts down, not below zero. The four subscriber sets
    always hold the wrappers of the same calls, so one list of calls,
    each named by a token, stands for them. *)
Record Observed := mkObserved {
  query : Query;
  listeners : list nat;
  issued : nat
}.

Definition observe (q : Query) : Observed :=
  {| query := q; listeners := []; issued := 0 |}.

(** [this.subCount++] and [this.subCount = Math.max(0, this.subCount - 1)] *)
Definition count_up (q : Query) : Query := set_subCount (S (subCount q)) q.
Definition count_down (q : Query) : Query :=
  set_subCount (Z.to_nat (Z.max 0 (Z.of_nat (subCount q) - 1))) q.

(** [q.subscribe(listener)]: the query afterwards and the token of the
    unsubscribe function returned. *)
Definition q_subscribe (ob : Observed) : Observed * nat :=
  ({| query := count_up (query ob);
      listeners := listeners ob ++ [issued ob];
      issued := S (issued ob) |}, issued ob).

(** A call of the unsubscribe function with the token [t]: [Set.delete]
    does nothing for a wrapper that is gone, the count goes down all the
    same. *)
Definition q_unsubscribe (t : nat) (ob : Observed) : Observed :=
  {| query := count_down (query ob);
     listeners := List.filter (fun t' => negb (Nat.eqb t' t)) (listeners ob);
     issued := issued ob |}.

(** Calls of [subscribe] and of the functions it returned. *)
Inductive sub_call := DoSub | DoUnsub (t : nat).

Definition sub_step (call : sub_call) (ob : Observed) : Observed :=
  match call with
  | DoSub => (q_subscribe ob).1
  | DoUnsub t => q_unsubscribe t ob
  end.

Definition sub_steps (calls : list sub_call) (ob : Observed) : Observed :=
  fold_left (fun ob call => sub_step call ob) calls ob.

(** Every unsubscribe function is called at most once: when it is
    called, its wrappers are still in place. *)
Fixpoint once_each (calls : list sub_call) (ob : Observed) : Prop :=
  match calls with
  | [] => True
  | call :: calls' =>
      match call with DoSub => True | DoUnsub t => t ∈ listeners ob end
      /\ once_each calls' (sub_step call ob)
  end.

(** [invalidateQueries(predicateOrKey)]: a function is the predicate,
    anything else is a key to compare hashes with. *)
Inductive predicateOrKey :=
| ByPredicate (p : Query -> bool)
| ByKey (k : cache_key).

Definition predicate_of (pk : predicateOrKey) : Query -> bool :=
  match pk with
  | ByPredicate p => p
  | ByKey k => fun q => String.eqb (hashKey k) (hash q)
  end.

(** [this.queries.forEach(q => { if (predicate(q)) q.refetch(true); })],
    in the order of the map. *)
Definition invalidateQueries (hasAbortController : bool) (now : Z)
    (pk : predicateOrKey) (c : QueryClient) : QueryClient * list qevent :=
  fold_left
    (fun (acc : QueryClient * list qevent) (entry : string * nat) =>
       match store acc.1 !! entry.2 with
       | Some q =>
           if predicate_of pk q then
             let '(c', evs) :=
               client_refetch hasAbortController now true entry.2 acc.1 in
             (c', acc.2 ++ evs)
           else acc
       | None => acc
       end)
    (queries c) (c, []).

(** [q.options.cacheTime ?? this.defaultOptions.cacheTime] *)
Definition cacheTime (d : DefaultOptions) (q : Query) : Z :=
  match o_cacheTime (options q) with Some t => t | None => d_cacheTime d end.

(** The test of [removeUnused] at the time [nowMs]. *)
Definition unused (d : DefaultOptions) (nowMs : Z) (q : Query) : bool :=
  Nat.eqb (subCount q) 0 && (cacheTime d q <? nowMs - lastUpdated q)%Z.

(** [removeUnused()]: the entries that pass the test leave the map. The
    query objects stay where they are, for whoever still holds them. *)
Definition removeUnused (nowMs : Z) (c : QueryClient) : QueryClient :=
  {| queries :=
       List.filter
         (fun entry : string * nat =>
            match store c !! entry.2 with
            | Some q => negb (unused (defaultOptions c) nowMs q)
            | None => true
            end)
         (queries c);
     store := store c;
     defaultOptions := defaultOptions c |}.

(** [q.subscribe] and the unsubscribe function on the query that the
    reference [r] names, as far as the client can tell: the count. *)
Definition client_count (f : Query -> Query) (r : nat) (c : QueryClient)
    : QueryClient :=
  {| queries := queries c; store := alter f r (store c);
     defaultOptions := defaultOptions c |}.

(** What the holders of a client do with it, call by call. *)
Inductive client_call :=
| CallCreate (now : Z) (k : cache_key) (fn : nat) (o : QueryOptions)
| CallRefetch (now : Z) (force : bool) (r : nat)
| CallSettle (now : Z) (r currentId : nat) (res : fetched)
| CallSubscribe (r : nat)
| CallUnsubscribe (r : nat)
| CallInvalidate (now : Z) (pk : predicateOrKey)
| CallRemoveUnused (nowMs : Z).

Definition client_step (hasAbortController : bool) (call : client_call)
    (c : QueryClient) : QueryClient :=
  match call with
  | CallCreate now k fn o => (createQuery hasAbortController now k fn o c).1.1
  | CallRefetch now force r => (client_refetch hasAbortController now force r c).1
  | CallSettle now r currentId res => (client_settle now r currentId res c).1
  | CallSubscribe r => client_count count_up r c
  | CallUnsubscribe r => client_count count_down r c
  | CallInvalidate now pk => (invalidateQueries hasAbortController now pk c).1
  | CallRemoveUnused nowMs => removeUnused nowMs c
  end.

Definition client_run (hasAbortController : bool) (calls : list client_call)
    (c : QueryClient) : QueryClient :=
  fold_left (fun c call => client_step hasAbortController call c) calls c.

(** The map and the store fit: no hash and no reference occurs twice in
    the map, and every entry leads to a query with that hash. *)
Definition client_ok (c : QueryClient) : Prop :=
  NoDup (fst <$> queries c) /\ NoDup (snd <$> queries c) /\
  forall h r, (h, r) ∈ queries c ->
    exists q, store c !! r = Some q /\ hash q = h.

(** The steps of a query answer attempts that were started: a response
    carries the sequence number of a [_run] that went before it. *)
Fixpoint answers (hasAbortController : bool) (d : DefaultOptions)
    (ops : list query_op) (q : Query) : Prop :=
  match ops with
  | [] => True
  | op :: ops' =>
      match op with
      | Run _ _ => True
      | Settle _ currentId _ => 1 <= currentId <= requestId q
      end
      /\ answers hasAbortController d ops' (query_step hasAbortController d op q).1
  end.

(** What the status of a query says about the rest of it: an idle query
    has never been run; a loading one is fetching; one in error is not;
    a successful one has no error, and is fetching only when it keeps
    its data while it revalidates. *)
Definition status_sound (q : Query) : Prop :=
  (status q = Idle ->
   requestId q = 0 /\ isFetching q = false /\ lastUpdated q = 0%Z /\
   data q = VUndefined /\ error q = VNull) /\
  (status q = Loading -> isFetching q = true) /\
  (status q = Errored -> isFetching q = false) /\
  (status q = Success ->
   error q = VNull /\
   (isFetching q = true -> keepPreviousData (options q) = true)) /\
  (isFetching q = true -> 1 <= requestId q) /\
  (forall c, abortController q = Some c -> c = requestId q).

End ClientOps.

(** ** Mutations *)

Module Mutation.
Import QueryCache.

(** The options of [createMutation], each callback by whether it is
    configured. *)
Record MutationOptions := mkMutationOptions {
  m_initialData : jsval;
  m_onSuccess : bool;
  m_onError : bool;
  m_onSettled : bool
}.

(** The closure of [createMutation(fn, options)]: the three signals, of
    which the record keeps the current value, and [currentId]. [arity]
    is [fn.length]. *)
Record Mutation := mkMutation {
  arity : nat;
  m_options : MutationOptions;
  m_status : Status;
  m_data : jsval;
  m_error : jsval;
  currentId : nat
}.

Inductive mevent :=
| Call (variables : jsval) (id : option nat)  (* [fn(variables, { id })] or [fn(variables)] *)
| MSuccess (res variables : jsval)
| MError (e variables : jsval)
| MSettled (res e variables : jsval).

Definition mfires (configured : bool) (e : mevent) : list mevent :=
  if configured then [e] else [].

Definition createMutation (fn_length : nat) (o : MutationOptions) : Mutation :=
  {| arity := fn_length; m_options := o; m_status := Idle;
     m_data := m_initialData o; m_error := VNull; currentId := 0 |}.

(** [mutate(variables)] up to its [await]: the call is numbered, the
    status is loading, the error is cleared and [fn] is called. *)
Definition mutate_begin (variables : jsval) (m : Mutation)
    : Mutation * nat * list mevent :=
  let id := S (currentId m) in
  ({| arity := arity m; m_options := m_options m;
      m_status := Loading;
      m_data := m_data m;
      m_error := signal_write strict_eq (m_error m) VNull;
      currentId := id |},
   id,
   [Call variables (if 1 <? arity m then Some id else None)]).

(** [mutate] from the [await] on, for the call numbered [id], once [fn]
    has settled as [r]. *)
Definition mutate_settle (id : nat) (variables : jsval) (r : fetched)
    (m : Mutation) : Mutation * settled * list mevent :=
  if negb (Nat.eqb id (currentId m)) then (m, Resolved (m_data m), [])
  else
    match r with
    | Fulfilled res =>
        ({| arity := arity m; m_options := m_options m;
            m_status := Success;
            m_data := signal_write strict_eq (m_data m) res;
            m_error := m_error m;
            currentId := currentId m |},
         Resolved res,
         mfires (m_onSuccess (m_options m)) (MSuccess res variables)
         ++ mfires (m_onSettled (m_options m)) (MSettled res VNull variables))
    | Failed e =>
        ({| arity := arity m; m_options := m_options m;
            m_status := Errored;
            m_data := m_data m;
            m_error := signal_write strict_eq (m_error m) e;
            currentId := currentId m |},
         Rejected e,
         mfires (m_onError (m_options m)) (MError e variables)
         ++ mfires (m_onSettled (m_options m)) (MSettled VUndefined e variables))
    end.

(** The calls of [mutate] and the settling of [fn], one after the
    other. *)
Inductive mutation_op :=
| Mutate (variables : jsval)
| MSettle (id : nat) (variables : jsval) (r : fetched).

Definition mutation_step (op : mutation_op) (m : Mutation) : Mutation :=
  match op with
  | Mutate variables => (mutate_begin variables m).1.1
  | MSettle id variables r => (mutate_settle id variables r m).1.1
  end.

Definition mutation_steps (ops : list mutation_op) (m : Mutation) : Mutation :=
  fold_left (fun m op => mutation_step op m) ops m.

(** Each response answers a call of [mutate] that is still waiting for
    its function to settle; [pending] holds the numbers of the calls
    that are. *)
Fixpoint m_answers (ops : list mutation_op) (m : Mutation) (pending : list nat)
    : Prop :=
  match ops with
  | [] => True
  | op :: ops' =>
      match op with
      | Mutate _ =>
          m_answers ops' (mutation_step op m) (S (currentId m) :: pending)
      | MSettle id _ _ =>
          id ∈ pending /\
          m_answers ops' (mutation_step op m)
            (List.filter (fun i => negb (Nat.eqb i id)) pending)
      end
  end.

End Mutation.

(** ** More of the reactive system *)

Module Derived.
Import Reactive.

(** The events other than the call of a subscriber's callback. *)
Definition quiet (e : event) : Prop :=
  match e with EvCallback _ _ => False | _ => True end.

(** Code outside any effect is running. *)
Definition outside (st : state) : Prop :=
  _currentEffect st = None /\ _effectStack st = [].

(** A wrapper is a subscriber of its own signal only, and is never the
    running effect. *)
Definition wrappers_own (st : state) : Prop :=
  forall w s cb, fns st !! w = Some (Wrapper s cb) ->
    (forall s', w ∈ subs_at st s' -> s' = s) /\
    _currentEffect st <> Some w /\ w ∉ _effectStack st.

(** *** Computed signals *)

(** What the getter given to [computed] does: it reads signals, and
    returns a value or throws. *)
Inductive getter :=
| Return (v : jsval)
| Raise (e : jsval)
| Get (s : nat) (k : jsval -> getter).

(** [() => { out.value = getter(); }] *)
Fixpoint assign (out : nat) (g : getter) : prog :=
  match g with
  | Return v => Write out v Done
  | Raise e => Throw e
  | Get s k => Read s (fun v => assign out (k v))
  end.

(** [computed(getter)]: the state afterwards, the signal [out], the
    runner of the effect behind it (which stands for [out.dispose]) and
    whether the first run threw. *)
Definition computed (g : getter) (st : state) : state * nat * nat * outcome :=
  let '(st1, out) := signal VUndefined None st in
  let '(st2, f, r) := effect (assign out g) st1 in
  (st2, out, f, r).

(** What the getter returns when the signals hold the values [vals];
    [None] when it throws, be it for a signal that does not exist. *)
Fixpoint eval (g : getter) (vals : nat -> option jsval) : option jsval :=
  match g with
  | Return v => Some v
  | Raise _ => None
  | Get s k =>
      match vals s with
      | Some v => eval (k v) vals
      | None => None
      end
  end.

(** The signals it reads on the way, the one it fails on included. *)
Fixpoint path (g : getter) (vals : nat -> option jsval) : list nat :=
  match g with
  | Return _ | Raise _ => []
  | Get s k =>
      s :: match vals s with
           | Some v => path (k v) vals
           | None => []
           end
  end.

(** Whatever it finds, the getter reads signals below [n] only. *)
Fixpoint reads_below (n : nat) (g : getter) : Prop :=
  match g with
  | Return _ | Raise _ => True
  | Get s k => s < n /\ forall v, reads_below n (k v)
  end.

(** A turn of the event loop: writes by code outside any effect, then
    the microtask they leave, if any. *)
Definition write_turn (ws : list (nat * jsval)) (st : state) : state :=
  (run_microtask (write_all ws st)).1.

Definition write_turns (turns : list (list (nat * jsval))) (st : state) : state :=
  fold_left (fun st ws => write_turn ws st) turns st.

(** Signals made one after the other by [signal(initial, options)], and
    nothing else. *)
Definition signals_of (inits : list (jsval * option (jsval -> jsval -> bool)))
    : state :=
  fold_left (fun st i => (signal i.1 i.2 st).1) inits initial_state.

(** A system of signals and one computed over them. [out] is the last
    signal and holds what the getter returns, when it returns; the one
    function there is is the runner, whose dependencies are the signals
    that the getter reads as things stand; nothing is running or
    waiting. *)
Definition in_sync (g : getter) (out : nat) (st : state) : Prop :=
  quiescent st /\ well_formed st /\
  length (signals st) = S out /\
  (exists c, signals st !! out = Some c /\ equals c = strict_eq) /\
  (exists deps, fns st = [Runner (assign out g) true deps] /\
                forall s, s ∈ deps <-> s ∈ path g (val_at st)) /\
  (forall v, eval g (val_at st) = Some v -> val_at st out = Some v).

(** [() => a.value === 0 ? b.value : a.value], for the signals 0 and 1
    as [a] and [b]. *)
Definition either : getter :=
  Get 0 (fun v => match v with
                  | VNum 0 => Get 1 (fun w => Return w)
                  | _ => Return v
                  end).

(** *** An effect that writes what it reads *)

(** [() => { s.value = h(s.value); }] *)
Definition feedback (s : nat) (h : jsval -> jsval) : prog :=
  Read s (fun v => Write s (h v) Done).

(** The effect [f] with that function has run and is waiting for the
    one flush that is scheduled: it is alone in the queue, it is the one
    subscriber of [s], and [s] compares values with [eq]. *)
Definition feeding (s : nat) (h : jsval -> jsval)
    (eq : jsval -> jsval -> bool) (f : nat) (st : state) : Prop :=
  microtasks st = 1 /\ _effectScheduled st = true /\ _effectQueue st = [f] /\
  _currentEffect st = None /\ _effectStack st = [] /\
  fns st !! f = Some (Runner (feedback s h) true [s]) /\
  exists c, signals st !! s = Some c /\ subs c = [f] /\ equals c = eq.

End Derived.
(** * Facts *)

Lemma strict_eq_sound a b : strict_eq a b = true -> a = b.
Proof.
  destruct a, b; simpl; try discriminate; try reflexivity; intros H.
  - apply Bool.eqb_prop in H. congruence.
  - apply Z.eqb_eq in H. congruence.
  - apply String.eqb_eq in H. congruence.
  - apply Nat.eqb_eq in H. congruence.
  - apply andb_true_iff in H as [H1 H2].
    apply String.eqb_eq in H1. apply String.eqb_eq in H2. congruence.
Qed.

(** Under the default equality a write always leaves the written value
    in the signal: when the setter returns early, the old value is it. *)
Lemma signal_write_strict old v : signal_write strict_eq old v = v.
Proof.
  unfold signal_write. destruct (strict_eq old v) eqn:E; [|reflexivity].
  now apply strict_eq_sound.
Qed.

Module ReactiveFacts.
Import Reactive.

(** ** Sets in insertion order *)

Lemma elem_of_set_add x y l : y ∈ set_add x l <-> y = x \/ y ∈ l.
Proof.
  unfold set_add. destruct (decide (x ∈ l)) as [Hin|Hnin].
  - split; [auto|]. intros [->|H]; assumption.
  - rewrite elem_of_app, list_elem_of_singleton. tauto.
Qed.

Lemma NoDup_set_add x l : NoDup l -> NoDup (set_add x l).
Proof.
  intros Hnd. unfold set_add. destruct (decide (x ∈ l)); [assumption|].
  apply NoDup_app. split; [assumption|]. split.
  - intros y Hy Hx. apply list_elem_of_singleton in Hx. subst. contradiction.
  - apply NoDup_singleton.
Qed.

Lemma elem_of_set_delete x y l : y ∈ set_delete x l <-> y <> x /\ y ∈ l.
Proof.
  unfold set_delete. rewrite !list_elem_of_In, List.filter_In.
  rewrite negb_true_iff, Nat.eqb_neq. tauto.
Qed.

(** ** Projections of event lists *)

Lemma invoked_app a b : invoked (a ++ b) = invoked a ++ invoked b.
Proof. apply omap_app. Qed.
Lemma thrown_app a b : thrown (a ++ b) = thrown a ++ thrown b.
Proof. apply omap_app. Qed.
Lemma reported_app a b : reported (a ++ b) = reported a ++ reported b.
Proof. apply omap_app. Qed.
Lemma calls_of_app w a b : calls_of w (a ++ b) = calls_of w a ++ calls_of w b.
Proof. apply omap_app. Qed.
Lemma reads_by_app f a b : reads_by f (a ++ b) = reads_by f a ++ reads_by f b.
Proof. apply omap_app. Qed.
Lemma disposed_app a b : disposed (a ++ b) = disposed a ++ disposed b.
Proof. apply omap_app. Qed.

Lemma body_events_quiet evs :
  Forall body_event evs ->
  invoked evs = [] /\ reported evs = [] /\ forall w, calls_of w evs = [].
Proof.
  induction 1 as [|e evs He _ (IH1 & IH2 & IH3)]; [repeat split|].
  destruct e; try contradiction;
    (split; [exact IH1|split; [exact IH2|intros w; apply IH3]]).
Qed.

(** ** The log only grows *)

Lemma scheduleEffect_log f st : log (scheduleEffect f st) = log st.
Proof. unfold scheduleEffect. simpl. destruct (_effectScheduled st); reflexivity. Qed.

Lemma schedule_all_log fs : forall st,
  log (fold_left (fun st f => scheduleEffect f st) fs st) = log st.
Proof.
  induction fs as [|f fs IH]; intros st; simpl; [reflexivity|].
  now rewrite IH, scheduleEffect_log.
Qed.

Lemma get_value_log s st v st' :
  get_value s st = Some (v, st') -> log st' = log st.
Proof.
  unfold get_value. destruct (signals st !! s); [|discriminate].
  intros [= _ <-]. destruct (_currentEffect st); reflexivity.
Qed.

(** A write leaves one event when it is committed and none otherwise. *)
Lemma set_value_log s v st st' :
  set_value s v st = Some st' ->
  log st' = log st \/ log st' = log st ++ [EvWrite s v].
Proof.
  unfold set_value. destruct (signals st !! s) as [c|]; [|discriminate].
  destruct (equals c (_val c) v); intros [= <-]; [left; reflexivity|].
  right. now rewrite schedule_all_log.
Qed.

Lemma cleanupEffect_log f st : log (cleanupEffect f st) = log st.
Proof.
  unfold cleanupEffect. destruct (fns st !! f) as [[body active deps|]|]; reflexivity.
Qed.

Lemma dispose_log f st : log (dispose f st) = log st.
Proof. unfold dispose. now rewrite cleanupEffect_log. Qed.

Lemma traced_here st : traced st (st, Normal).
Proof. exists []. rewrite app_nil_r. repeat split. constructor. Qed.

Lemma traced_throw st e : traced st (emit (EvThrow e) st, Thrown e).
Proof. exists [EvThrow e]. repeat split. repeat constructor. Qed.

Lemma traced_step st st1 evs res :
  log st1 = log st ++ evs -> Forall body_event evs -> thrown evs = [] ->
  traced st1 res -> traced st res.
Proof.
  intros Hl Hb Ht (evs' & Hl' & Hb' & Ht').
  exists (evs ++ evs'). rewrite Hl', Hl, app_assoc. split; [reflexivity|].
  split; [now apply Forall_app|]. now rewrite thrown_app, Ht.
Qed.

Lemma traced_run_in f run st :
  (forall st0, traced st0 (run st0)) -> traced st (run_in f run st).
Proof.
  intros Hrun. unfold run_in.
  match goal with |- context [run ?s] => pose proof (Hrun s) as H; destruct (run s) as [st3 r] end.
  destruct H as (evs & Hl & Hb & Ht). simpl in *.
  exists evs. simpl. rewrite Hl, cleanupEffect_log. auto.
Qed.

Lemma exec_traced p : forall self st, traced st (exec self p st).
Proof.
  induction p as [|e|s k IH|s v k IH|body IHb k IHk|f k IH];
    intros self st; simpl.
  - apply traced_here.
  - apply traced_throw.
  - destruct (get_value s st) as [[v st']|] eqn:E; [|apply traced_throw].
    apply get_value_log in E.
    eapply (traced_step _ _ [EvRead self s v]); [| |reflexivity|apply IH].
    + simpl. now rewrite E.
    + repeat constructor.
  - destruct (set_value s v st) as [st'|] eqn:E; [|apply traced_throw].
    apply set_value_log in E as [E|E].
    + eapply (traced_step _ _ []); [|constructor|reflexivity|apply IH].
      now rewrite app_nil_r.
    + eapply (traced_step _ _ [EvWrite s v]); [exact E| |reflexivity|apply IH].
      repeat constructor.
  - unfold effect_with.
    pose proof (traced_run_in (length (fns st)) (exec (Some (length (fns st))) body)
                  (set_fns (fns st ++ [Runner body true []]) st)
                  (IHb _)) as H.
    destruct (run_in _ _ _) as [st' [|e]].
    + destruct H as (evs & Hl & Hb & Ht). simpl in *.
      eapply (traced_step _ _ evs); eauto.
    + exact H.
  - eapply (traced_step _ _ [EvDispose f]); [| |reflexivity|apply IH].
    + simpl. now rewrite dispose_log.
    + repeat constructor.
Qed.

(** A call of a queued function: as a body, with the callback event of
    a subscriber in front. *)
Lemma call_log f st :
  exists evs, log (call f st).1 = log st ++ evs /\
              invoked evs = [] /\ reported evs = [] /\
              thrown evs = exns (call f st).2.
Proof.
  unfold call. destruct (fns st !! f) as [[body [|] deps|s cb]|].
  - destruct (traced_run_in f (exec (Some f) body) st (exec_traced body _))
      as (evs & Hl & Hb & Ht).
    apply body_events_quiet in Hb as (? & ? & _). eauto 6.
  - exists []. now rewrite app_nil_r.
  - destruct (signals st !! s) as [c|]; [|exists []; now rewrite app_nil_r].
    destruct (exec_traced (cb (_val c)) None (emit (EvCallback f (_val c)) st))
      as (evs & Hl & Hb & Ht).
    apply body_events_quiet in Hb as (Hi & Hr & _).
    exists ([EvCallback f (_val c)] ++ evs).
    rewrite invoked_app, reported_app, thrown_app, Hi, Hr, Ht, Hl.
    split; [|auto]. unfold emit, emits. cbn [log]. now rewrite <- app_assoc.
  - exists []. now rewrite app_nil_r.
Qed.

(** One round of the loop of the flush. *)
Lemma guarded_call_log f st :
  let res := try_catch (fun st => call f (emit (EvInvoke f) st)) console_error st in
  res.2 = Normal /\
  exists evs, log res.1 = log st ++ evs /\ invoked evs = [f] /\
              reported evs = thrown evs.
Proof.
  unfold try_catch.
  destruct (call_log f (emit (EvInvoke f) st)) as (evs & Hl & Hi & Hr & Ht).
  destruct (call f (emit (EvInvoke f) st)) as [st' [|e]]; simpl in *.
  - split; [reflexivity|]. exists ([EvInvoke f] ++ evs).
    rewrite invoked_app, reported_app, thrown_app, Hi, Hr, Ht, Hl.
    split; [|auto]. now rewrite <- app_assoc.
  - split; [reflexivity|]. exists ([EvInvoke f] ++ evs ++ [EvConsoleError e]).
    rewrite !invoked_app, !reported_app, !thrown_app, Hi, Hr, Ht, Hl.
    split; [|auto]. now rewrite <- !app_assoc.
Qed.

Lemma flush_loop_log fs : forall st,
  let res := for_each fs
    (fun f => try_catch (fun st => call f (emit (EvInvoke f) st)) console_error) st in
  res.2 = Normal /\
  exists evs, log res.1 = log st ++ evs /\ invoked evs = fs /\
              reported evs = thrown evs.
Proof.
  induction fs as [|f fs IH]; intros st; simpl.
  - split; [reflexivity|]. exists []. now rewrite app_nil_r.
  - destruct (guarded_call_log f st) as (Hn & evs1 & Hl1 & Hi1 & Hr1).
    destruct (try_catch _ console_error st) as [st1 r1]. simpl in Hn. subst r1.
    destruct (IH st1) as (Hn & evs2 & Hl2 & Hi2 & Hr2).
    split; [exact Hn|]. exists (evs1 ++ evs2).
    rewrite Hl2. simpl in Hl1. rewrite Hl1, app_assoc.
    rewrite invoked_app, reported_app, thrown_app, Hi1, Hi2, Hr1, Hr2. auto.
Qed.

Lemma flush_log st :
  (flush st).2 = Normal /\
  exists evs, log (flush st).1 = log st ++ evs /\
              invoked evs = _effectQueue st /\
              reported evs = thrown evs.
Proof.
  exact (flush_loop_log (_effectQueue st) (set_queue [] (set_scheduled false st))).
Qed.



(** ** Dependency tracking *)

Lemma add_deps_runner ss : forall body active deps,
  add_deps ss (Runner body active deps)
  = Runner body active (fold_left (fun d s => set_add s d) ss deps).
Proof.
  unfold add_deps.
  induction ss as [|s ss IH]; intros body active deps; simpl; [reflexivity|].
  apply IH.
Qed.

Lemma elem_of_fold_set_add ss : forall deps s,
  s ∈ fold_left (fun d s => set_add s d) ss deps <-> s ∈ deps \/ s ∈ ss.
Proof.
  induction ss as [|x ss IH]; intros deps s; simpl.
  - rewrite elem_of_nil. tauto.
  - rewrite IH, elem_of_set_add, elem_of_cons. tauto.
Qed.

Lemma NoDup_fold_set_add ss : forall deps,
  NoDup deps -> NoDup (fold_left (fun d s => set_add s d) ss deps).
Proof.
  induction ss as [|x ss IH]; intros deps Hnd; simpl; [assumption|].
  apply IH. now apply NoDup_set_add.
Qed.

Lemma replay_app f a b x : replay f (a ++ b) x = replay f b (replay f a x).
Proof. unfold replay. apply fold_left_app. Qed.

(** When the function is not disposed, the events only add the signals
    it read. *)
Lemma replay_reads f evs : forall x,
  f ∉ disposed evs -> replay f evs x = add_deps (reads_by f evs) x.
Proof.
  induction evs as [|e evs IH]; intros x Hnd; [reflexivity|].
  change (replay f (e :: evs) x) with (replay f evs (replay_event f e x)).
  destruct e as [[g|] s v| | | | |g|]; try (apply IH; exact Hnd).
  - simpl. unfold reads_by. simpl. fold (reads_by f evs).
    destruct (Nat.eqb g f); simpl; now apply IH.
  - change (disposed (EvDispose g :: evs)) with (g :: disposed evs) in Hnd.
    apply not_elem_of_cons in Hnd as [Hne Hnd].
    simpl. apply Nat.eqb_neq in Hne. rewrite Nat.eqb_sym, Hne.
    now apply IH.
Qed.

(** Disposed or not, the events never leave a dependency that is neither
    an old one nor a signal that the function read; and they keep the
    function what it is. *)
Lemma replay_runner f evs : forall body active deps,
  exists active' deps',
    replay f evs (Runner body active deps) = Runner body active' deps' /\
    (NoDup deps -> NoDup deps') /\
    forall s, s ∈ deps' -> s ∈ deps \/ s ∈ reads_by f evs.
Proof.
  induction evs as [|e evs IH]; intros body active deps.
  - exists active, deps. split; [reflexivity|]. split; auto.
  - change (replay f (e :: evs) (Runner body active deps))
      with (replay f evs (replay_event f e (Runner body active deps))).
    destruct e as [[g|] s v| | | | |g|];
      try (destruct (IH body active deps) as (a' & d' & E & Hnd & Hin);
           exists a', d'; split; [exact E|]; split; [exact Hnd|exact Hin]).
    + simpl. unfold reads_by. simpl. fold (reads_by f evs).
      destruct (Nat.eqb g f).
      * destruct (IH body active (set_add s deps)) as (a' & d' & E & Hnd & Hin).
        exists a', d'. split; [exact E|]. split.
        -- intros H. apply Hnd. now apply NoDup_set_add.
        -- intros s0 Hs0. apply Hin in Hs0 as [Hs0|Hs0].
           ++ apply elem_of_set_add in Hs0 as [->|Hs0]; [right; left|now left].
           ++ right. now right.
      * destruct (IH body active deps) as (a' & d' & E & Hnd & Hin).
        exists a', d'. split; [exact E|]. split; [exact Hnd|exact Hin].
    + simpl. destruct (Nat.eqb g f).
      * destruct (IH body false []) as (a' & d' & E & Hnd & Hin).
        exists a', d'. split; [exact E|]. split.
        -- intros _. apply Hnd. constructor.
        -- intros s0 Hs0. apply Hin in Hs0 as [Hs0|Hs0];
             [now apply elem_of_nil in Hs0|now right].
      * destruct (IH body active deps) as (a' & d' & E & Hnd & Hin).
        exists a', d'. split; [exact E|]. split; [exact Hnd|exact Hin].
Qed.

Lemma tracks_refl st : tracks st st [].
Proof.
  split; [lia|]. intros f Hf. cbn. now destruct (fns st !! f).
Qed.

(** A step that keeps the functions it found. *)
Lemma tracks_keep st st' evs :
  length (fns st) <= length (fns st') ->
  (forall f, f < length (fns st) -> fns st' !! f = fns st !! f) ->
  (forall f x, replay f evs x = x) ->
  tracks st st' evs.
Proof.
  intros Hlen Hf Hr. split; [assumption|]. intros f Hlt.
  rewrite Hf by assumption. destruct (fns st !! f); simpl; [|reflexivity].
  now rewrite Hr.
Qed.

Lemma tracks_trans st st1 st2 evs1 evs2 :
  tracks st st1 evs1 -> tracks st1 st2 evs2 -> tracks st st2 (evs1 ++ evs2).
Proof.
  intros [Hl1 H1] [Hl2 H2]. split; [lia|]. intros f Hf.
  rewrite (H2 f ltac:(lia)), (H1 f Hf).
  destruct (fns st !! f); simpl; [|reflexivity].
  now rewrite replay_app.
Qed.

Lemma subs_at_alter_val g s v st s0 :
  subs_at (set_signals (alter (store_val v) s (signals st)) g) s0
  = subs_at st s0.
Proof.
  unfold subs_at. simpl.
  destruct (decide (s = s0)) as [->|Hne].
  - rewrite list_lookup_alter_eq. now destruct (signals st !! s0).
  - now rewrite list_lookup_alter_ne.
Qed.

(** Scheduling touches the queue, the flag and the microtask count, and
    nothing else. *)
Lemma scheduleEffect_frame f st :
  signals (scheduleEffect f st) = signals st /\
  fns (scheduleEffect f st) = fns st /\
  _currentEffect (scheduleEffect f st) = _currentEffect st /\
  _effectStack (scheduleEffect f st) = _effectStack st.
Proof. unfold scheduleEffect. simpl. destruct (_effectScheduled st); auto. Qed.

Lemma schedule_all_frame fs : forall st,
  let st' := fold_left (fun st f => scheduleEffect f st) fs st in
  signals st' = signals st /\ fns st' = fns st /\
  _currentEffect st' = _currentEffect st /\ _effectStack st' = _effectStack st.
Proof.
  induction fs as [|f fs IH]; intros st; simpl; [auto|].
  destruct (IH (scheduleEffect f st)) as (H1 & H2 & H3 & H4).
  destruct (scheduleEffect_frame f st) as (G1 & G2 & G3 & G4).
  rewrite H1, H2, H3, H4. auto.
Qed.

Lemma set_value_frame s v st st' :
  set_value s v st = Some st' ->
  fns st' = fns st /\ _currentEffect st' = _currentEffect st /\
  _effectStack st' = _effectStack st /\
  (forall s0, subs_at st' s0 = subs_at st s0).
Proof.
  unfold set_value. destruct (signals st !! s) as [c|]; [|discriminate].
  destruct (equals c (_val c) v); intros [= <-]; [auto|].
  match goal with |- context [fold_left ?g ?fs ?s0] =>
    destruct (schedule_all_frame fs s0) as (H1 & H2 & H3 & H4) end.
  simpl in *. rewrite H2, H3, H4. repeat split.
  intros s0. unfold subs_at at 1. rewrite H1.
  apply (subs_at_alter_val st s v st s0).
Qed.

Lemma set_value_tracks s v st st' :
  set_value s v st = Some st' -> tracks st st' [].
Proof.
  intros H. apply set_value_frame in H as (Hf & _ & _ & Hs).
  apply tracks_keep; [rewrite Hf; lia | intros; now rewrite Hf | reflexivity].
Qed.

Lemma get_value_frame s st v st' :
  get_value s st = Some (v, st') ->
  _currentEffect st' = _currentEffect st /\
  _effectStack st' = _effectStack st /\
  length (fns st') = length (fns st).
Proof.
  unfold get_value. destruct (signals st !! s); [|discriminate].
  intros [= _ <-]. destruct (_currentEffect st) eqn:E; simpl;
    rewrite ?E, ?length_alter; auto.
Qed.

(** The registration that the getter makes in the runner is the one the
    read event of the running effect stands for. *)
Lemma get_value_tracks s st v st' :
  get_value s st = Some (v, st') ->
  tracks st (emit (EvRead (_currentEffect st) s v) st')
    [EvRead (_currentEffect st) s v].
Proof.
  unfold get_value. destruct (signals st !! s) as [c|] eqn:Ec; [|discriminate].
  intros [= <- <-]. destruct (_currentEffect st) as [g|].
  - split; [simpl; rewrite length_alter; lia|].
    intros f Hf. simpl fns. unfold replay. simpl.
    destruct (Nat.eqb_spec g f) as [->|Hne].
    + now rewrite list_lookup_alter_eq.
    + rewrite list_lookup_alter_ne by assumption.
      now destruct (fns st !! f).
  - apply tracks_keep; simpl; auto.
Qed.

Lemma tracks_silent st st' evs :
  tracks st st' [] -> (forall f x, replay f evs x = x) -> tracks st st' evs.
Proof.
  intros [Hl H] Hr. split; [assumption|]. intros f Hf.
  rewrite (H f Hf). destruct (fns st !! f); simpl; [|reflexivity].
  now rewrite Hr.
Qed.

Lemma cleanupEffect_frame f st :
  _currentEffect (cleanupEffect f st) = _currentEffect st /\
  _effectStack (cleanupEffect f st) = _effectStack st /\
  length (fns (cleanupEffect f st)) = length (fns st).
Proof.
  unfold cleanupEffect.
  destruct (fns st !! f) as [[body active deps|]|]; simpl; auto.
  now rewrite length_insert.
Qed.

(** A runner that has no dependencies has nothing to clean up. *)
Lemma cleanupEffect_fresh f st body active :
  fns st !! f = Some (Runner body active []) -> cleanupEffect f st = st.
Proof.
  intros H. unfold cleanupEffect. rewrite H. simpl.
  rewrite list_insert_id by assumption. now destruct st.
Qed.

(** The runner around a body: what the body registered, counted from the
    state the clean-up left; the stack is back where it was and
    [_currentEffect] is its top again. *)
Lemma run_in_tracked g run st :
  (forall st0, _currentEffect st0 = Some g ->
               head (_effectStack st0) = Some g ->
               tracked (Some g) st0 (run st0)) ->
  exists evs,
    log (run_in g run st).1 = log st ++ evs /\
    tracks (cleanupEffect g st) (run_in g run st).1 evs /\
    _currentEffect (run_in g run st).1 = head (_effectStack st) /\
    _effectStack (run_in g run st).1 = _effectStack st.
Proof.
  intros Hrun. unfold run_in.
  destruct (cleanupEffect_frame g st) as (_ & Hst & _).
  pose proof (cleanupEffect_log g st) as Hlog.
  set (st1 := cleanupEffect g st) in *.
  set (st2 := set_current (Some g) (set_stack (g :: _effectStack st1) st1)).
  destruct (Hrun st2 eq_refl eq_refl) as (evs & Hl & Htr & Hc & Hs).
  destruct (run st2) as [st3 r]. simpl in Hl, Hc, Hs |- *.
  exists evs. rewrite Hl, Hlog, Hs. simpl. rewrite Hst.
  split; [reflexivity|]. split; [exact Htr|]. split; reflexivity.
Qed.

Lemma tracked_step self st st1 evs res :
  log st1 = log st ++ evs -> tracks st st1 evs ->
  _effectStack st1 = _effectStack st ->
  tracked self st1 res -> tracked self st res.
Proof.
  intros Hl Ht Hs (evs' & Hl' & Ht' & Hc' & Hs').
  exists (evs ++ evs'). rewrite Hl', Hl, app_assoc, Hs', Hs.
  split; [reflexivity|]. split; [eapply tracks_trans; eauto|]. auto.
Qed.

Lemma tracked_throw self st e :
  _currentEffect st = self -> tracked self st (emit (EvThrow e) st, Thrown e).
Proof.
  intros Hc. exists [EvThrow e]. simpl.
  split; [reflexivity|]. split; [|auto].
  apply tracks_silent; [|reflexivity]. apply (tracks_refl st).
Qed.

Lemma tracks_alloc st x : tracks st (set_fns (fns st ++ [x]) st) [].
Proof.
  apply tracks_keep; simpl.
  - rewrite length_app. lia.
  - intros f Hf. now rewrite lookup_app_l.
  - reflexivity.
Qed.

Lemma dispose_frame f st :
  _currentEffect (dispose f st) = _currentEffect st /\
  _effectStack (dispose f st) = _effectStack st /\
  length (fns (dispose f st)) = length (fns st).
Proof.
  unfold dispose.
  destruct (cleanupEffect_frame f (set_fns (alter deactivate f (fns st)) st))
    as (H1 & H2 & H3).
  rewrite H1, H2, H3. simpl. now rewrite length_alter.
Qed.

(** What the disposer does to the records of the functions. *)
Lemma dispose_tracks f st :
  tracks st (emit (EvDispose f) (dispose f st)) [EvDispose f].
Proof.
  destruct (dispose_frame f st) as (_ & _ & Hlen).
  split; [simpl; lia|]. intros f0 Hf0. simpl fns.
  unfold dispose, cleanupEffect, replay. simpl.
  rewrite list_lookup_alter_eq.
  destruct (Nat.eqb_spec f f0) as [<-|Hne].
  - destruct (fns st !! f) as [[body active deps|s cb]|] eqn:E; simpl.
    + rewrite list_lookup_insert_eq by (rewrite length_alter; assumption).
      reflexivity.
    + now rewrite list_lookup_alter_eq, E.
    + now rewrite list_lookup_alter_eq, E.
  - destruct (fns st !! f) as [[body active deps|s cb]|] eqn:E; simpl.
    + rewrite list_lookup_insert_ne by assumption.
      rewrite list_lookup_alter_ne by assumption.
      now destruct (fns st !! f0).
    + rewrite list_lookup_alter_ne by assumption.
      now destruct (fns st !! f0).
    + rewrite list_lookup_alter_ne by assumption.
      now destruct (fns st !! f0).
Qed.

(** The stack discipline. A body that runs with its own effect in
    [_currentEffect] and on top of the stack keeps both so, also across
    the effects it creates; and whatever happens meanwhile to the record
    of a function is a read that the function's own body made, or the
    function's disposal. *)
Lemma exec_tracked p : forall self st,
  _currentEffect st = self -> head (_effectStack st) = self ->
  tracked self st (exec self p st).
Proof.
  induction p as [|e|s k IH|s v k IH|body IHb k IHk|f k IH];
    intros self st Hc Hh; simpl.
  - exists []. rewrite app_nil_r.
    split; [reflexivity|]. split; [apply tracks_refl|]. auto.
  - now apply tracked_throw.
  - destruct (get_value s st) as [[v st']|] eqn:E; [|now apply tracked_throw].
    pose proof (get_value_log _ _ _ _ E) as Hl.
    pose proof (get_value_tracks _ _ _ _ E) as Ht. rewrite Hc in Ht.
    destruct (get_value_frame _ _ _ _ E) as (Hc' & Hs' & _).
    eapply (tracked_step _ _ _ [EvRead self s v]); [| exact Ht | |apply IH].
    + simpl. now rewrite Hl.
    + exact Hs'.
    + simpl. congruence.
    + simpl. congruence.
  - destruct (set_value s v st) as [st'|] eqn:E; [|now apply tracked_throw].
    pose proof (set_value_tracks _ _ _ _ E) as Ht.
    destruct (set_value_frame _ _ _ _ E) as (_ & Hc' & Hs' & _).
    assert (tracked self st' (exec self k st')) as Hk
      by (apply IH; congruence).
    apply set_value_log in E as [E|E].
    + eapply (tracked_step self st st' []);
        [now rewrite app_nil_r|exact Ht|exact Hs'|exact Hk].
    + eapply (tracked_step self st st' [EvWrite s v]);
        [exact E| |exact Hs'|exact Hk].
      apply tracks_silent; [assumption|reflexivity].
  - unfold effect_with.
    set (g := length (fns st)).
    set (st1 := set_fns (fns st ++ [Runner body true []]) st).
    assert (fns st1 !! g = Some (Runner body true [])) as Hg.
    { subst st1 g. simpl. rewrite lookup_app_r by lia.
      now rewrite Nat.sub_diag. }
    destruct (run_in_tracked g (exec (Some g) body) st1 (IHb (Some g)))
      as (evs & Hl & Ht & Hc1 & Hs1).
    rewrite (cleanupEffect_fresh g st1 body true Hg) in Ht.
    assert (tracks st (run_in g (exec (Some g) body) st1).1 evs) as Ht'.
    { change evs with ([] ++ evs). eapply tracks_trans; [|exact Ht].
      apply tracks_alloc. }
    destruct (run_in g (exec (Some g) body) st1) as [st' [|e]];
      simpl in Hl, Hc1, Hs1, Ht'.
    + eapply (tracked_step _ _ _ evs);
        [exact Hl|exact Ht'|exact Hs1|].
      apply IHk; [congruence|]. rewrite Hs1. exact Hh.
    + exists evs. simpl.
      split; [assumption|]. split; [assumption|]. split; congruence.
  - destruct (dispose_frame f st) as (Hc' & Hs' & _).
    eapply (tracked_step self st (emit (EvDispose f) (dispose f st))
              [EvDispose f]);
      [simpl; now rewrite dispose_log|apply dispose_tracks|exact Hs'|].
    apply IH; simpl; congruence.
Qed.

(** ** Consistency of the registrations *)

Lemma well_formed_ext st st' :
  fns st' = fns st -> signals st' = signals st ->
  _currentEffect st' = _currentEffect st ->
  _effectStack st' = _effectStack st ->
  well_formed st -> well_formed st'.
Proof.
  intros Hf Hs Hc Hk. unfold well_formed, subs_at.
  now rewrite Hf, Hs, Hc, Hk.
Qed.

Lemma well_formed_initial : well_formed initial_state.
Proof.
  split; [|split; [|split]].
  - intros f body active deps H. discriminate H.
  - intros s f H. now apply elem_of_nil in H.
  - discriminate.
  - constructor.
Qed.

Lemma subs_at_add_sub g s st st' :
  signals st' = alter (add_sub g) s (signals st) ->
  forall s0 f,
    f ∈ subs_at st' s0
    <-> f ∈ subs_at st s0 \/ (s0 = s /\ f = g /\ is_Some (signals st !! s)).
Proof.
  intros Hst' s0 f. unfold subs_at. rewrite Hst'.
  destruct (decide (s = s0)) as [->|Hne].
  - rewrite list_lookup_alter_eq. destruct (signals st !! s0) as [c|]; simpl.
    + rewrite elem_of_set_add. split.
      * intros [->|H]; [right; eauto|now left].
      * intros [H|(_ & -> & _)]; auto.
    + rewrite elem_of_nil. split; [tauto|].
      intros [H|(_ & _ & [c H])]; [assumption|discriminate].
  - rewrite list_lookup_alter_ne by assumption. split; [auto|].
    intros [H|(-> & _)]; [assumption|congruence].
Qed.

Lemma get_value_well_formed s st v st' :
  get_value s st = Some (v, st') -> well_formed st -> well_formed st'.
Proof.
  unfold get_value. destruct (signals st !! s) as [c|] eqn:Ec; [|discriminate].
  intros [= _ <-] Hwf. destruct (_currentEffect st) as [g|] eqn:Eg; [|assumption].
  destruct Hwf as (Hreg & Hval & Hcur & Hstack).
  assert (g < length (fns st)) as Hg by (now apply Hcur).
  match goal with |- well_formed ?x => set (st' := x) end.
  assert (signals st' = alter (add_sub g) s (signals st)) as Hsig
    by reflexivity.
  split; [|split; [|split]].
  - intros f body active deps Hf s0. simpl in Hf.
    rewrite (subs_at_add_sub g s st st' Hsig s0 f), Ec.
    destruct (decide (f = g)) as [->|Hne].
    + rewrite list_lookup_alter_eq in Hf.
      destruct (fns st !! g) as [[b a d|]|] eqn:E; try discriminate.
      injection Hf as <- <- <-. rewrite elem_of_set_add, (Hreg g b a d E).
      split.
      * intros [H|(-> & _)]; auto.
      * intros [->|H]; [right; eauto|auto].
    + rewrite list_lookup_alter_ne in Hf by congruence.
      rewrite (Hreg f body active deps Hf). split; [|auto].
      intros [H|(_ & -> & _)]; [assumption|congruence].
  - intros s0 f Hf. simpl. rewrite length_alter.
    apply (subs_at_add_sub g s st st' Hsig s0 f) in Hf as [Hf|(_ & -> & _)];
      eauto.
  - simpl. rewrite length_alter, Eg. intros g0 [= <-]. exact Hg.
  - simpl. rewrite length_alter. exact Hstack.
Qed.

Lemma set_value_well_formed s v st st' :
  set_value s v st = Some st' -> well_formed st -> well_formed st'.
Proof.
  intros H (Hreg & Hval & Hcur & Hstack).
  apply set_value_frame in H as (Hf & Hc & Hk & Hs).
  unfold well_formed. rewrite Hf, Hc, Hk.
  split; [|split; [|split]]; try assumption.
  - intros f body active deps Hfn s0. rewrite Hs.
    apply (Hreg f body active deps Hfn).
  - intros s0 f. rewrite Hs. apply Hval.
Qed.

(** What [cleanupEffect] does to the subscriber sets: the function
    leaves the sets of its dependencies, and nothing else moves. *)
Lemma cleanup_fold_subs (f : nat) (deps : list nat) :
  forall (sigs : list signal_cell) (s g : nat),
  g ∈ match fold_left (fun sigs s => alter (delete_sub f) s sigs) deps sigs !! s
      with Some c => subs c | None => [] end
  <-> g ∈ match sigs !! s with Some c => subs c | None => [] end
      /\ (g <> f \/ s ∉ deps).
Proof.
  induction deps as [|d deps IH]; intros sigs s g; simpl.
  - rewrite elem_of_nil. tauto.
  - rewrite IH, not_elem_of_cons.
    destruct (decide (d = s)) as [->|Hne].
    + rewrite list_lookup_alter_eq. destruct (sigs !! s) as [c|]; simpl.
      * rewrite elem_of_set_delete. destruct (decide (g = f)); tauto.
      * rewrite elem_of_nil. tauto.
    + rewrite list_lookup_alter_ne by assumption.
      destruct (decide (g = f)); [|tauto]. split; [|tauto].
      intros [? [?|?]]; [tauto|]. split; [assumption|]. right. split; congruence.
Qed.

Lemma cleanupEffect_subs f st body active deps :
  fns st !! f = Some (Runner body active deps) ->
  forall s g, g ∈ subs_at (cleanupEffect f st) s
              <-> g ∈ subs_at st s /\ (g <> f \/ s ∉ deps).
Proof.
  intros H s g. unfold cleanupEffect, subs_at. rewrite H. simpl.
  apply cleanup_fold_subs.
Qed.

Lemma cleanupEffect_fns f st body active deps :
  fns st !! f = Some (Runner body active deps) ->
  fns (cleanupEffect f st) = <[f := Runner body active []]> (fns st).
Proof. intros H. unfold cleanupEffect. now rewrite H. Qed.

Lemma cleanupEffect_other f st :
  (forall body active deps, fns st !! f <> Some (Runner body active deps)) ->
  cleanupEffect f st = st.
Proof.
  intros H. unfold cleanupEffect.
  destruct (fns st !! f) as [[body active deps|]|]; try reflexivity.
  now destruct (H body active deps).
Qed.

Lemma cleanupEffect_well_formed f st :
  well_formed st -> well_formed (cleanupEffect f st).
Proof.
  intros Hwf.
  destruct (fns st !! f) as [[body active deps|s cb]|] eqn:E;
    [|rewrite cleanupEffect_other; [assumption|congruence]..].
  destruct Hwf as (Hreg & Hval & Hcur & Hstack).
  destruct (cleanupEffect_frame f st) as (Hc & Hk & Hlen).
  assert (f < length (fns st)) as Hf by (eapply lookup_lt_Some; eauto).
  unfold well_formed. rewrite Hc, Hk, Hlen.
  split; [|split; [|split]]; try assumption.
  - intros f0 body0 active0 deps0 H0 s0.
    rewrite (cleanupEffect_subs f st body active deps E).
    rewrite (cleanupEffect_fns f st body active deps E) in H0.
    destruct (decide (f0 = f)) as [->|Hne].
    + rewrite list_lookup_insert_eq in H0 by assumption.
      injection H0 as <- <- <-. rewrite (Hreg f body active deps E).
      rewrite elem_of_nil. tauto.
    + rewrite list_lookup_insert_ne in H0 by congruence.
      rewrite (Hreg f0 body0 active0 deps0 H0). tauto.
  - intros s0 g Hg.
    apply (cleanupEffect_subs f st body active deps E) in Hg as [Hg _].
    now apply Hval in Hg.
Qed.

Lemma deactivate_well_formed f st :
  well_formed st -> well_formed (set_fns (alter deactivate f (fns st)) st).
Proof.
  intros (Hreg & Hval & Hcur & Hstack).
  unfold well_formed. simpl. rewrite length_alter.
  split; [|split; [|split]]; try assumption.
  intros f0 body active deps H0 s0.
  change (subs_at (set_fns (alter deactivate f (fns st)) st) s0)
    with (subs_at st s0).
  destruct (decide (f0 = f)) as [->|Hne].
  - rewrite list_lookup_alter_eq in H0.
    destruct (fns st !! f) as [[b a d|]|] eqn:E; try discriminate.
    injection H0 as <- <- <-. apply (Hreg f b a d E).
  - rewrite list_lookup_alter_ne in H0 by congruence.
    apply (Hreg f0 body active deps H0).
Qed.

Lemma dispose_well_formed f st : well_formed st -> well_formed (dispose f st).
Proof.
  intros H. unfold dispose.
  now apply cleanupEffect_well_formed, deactivate_well_formed.
Qed.

(** A new function is in no subscriber set yet. *)
Lemma alloc_well_formed st x :
  (forall body active deps, x = Runner body active deps -> deps = []) ->
  well_formed st -> well_formed (set_fns (fns st ++ [x]) st).
Proof.
  intros Hx (Hreg & Hval & Hcur & Hstack).
  unfold well_formed. simpl. rewrite length_app. simpl.
  split; [|split; [|split]].
  - intros f body active deps Hf s.
    change (subs_at (set_fns (fns st ++ [x]) st) s) with (subs_at st s).
    destruct (decide (f < length (fns st))) as [Hlt|Hge].
    + rewrite lookup_app_l in Hf by assumption.
      apply (Hreg f body active deps Hf).
    + assert (deps = []) as ->.
      { rewrite lookup_app_r in Hf by lia.
        destruct (f - length (fns st)) as [|n]; [|destruct n; discriminate].
        injection Hf as ->. eapply Hx; eauto. }
      rewrite elem_of_nil. split; [|tauto].
      intros H. apply Hval in H. lia.
  - intros s f H. apply Hval in H. lia.
  - intros g H. apply Hcur in H. lia.
  - eapply Forall_impl; [exact Hstack|]. simpl. intros; lia.
Qed.

Lemma push_well_formed g st :
  g < length (fns st) -> well_formed st ->
  well_formed (set_current (Some g) (set_stack (g :: _effectStack st) st)).
Proof.
  intros Hg (Hreg & Hval & Hcur & Hstack).
  split; [|split; [|split]]; simpl; try assumption.
  - intros g0 [= <-]. exact Hg.
  - now constructor.
Qed.

Lemma pop_well_formed st :
  well_formed st ->
  well_formed (set_current (head (tail (_effectStack st)))
                 (set_stack (tail (_effectStack st)) st)).
Proof.
  intros (Hreg & Hval & Hcur & Hstack).
  assert (Forall (fun g => g < length (fns st)) (tail (_effectStack st))) as Ht.
  { destruct (_effectStack st); [constructor|]. now inversion Hstack. }
  split; [|split; [|split]]; simpl; try assumption.
  intros g Hg. destruct (tail (_effectStack st)); [discriminate|].
  injection Hg as ->. now inversion Ht.
Qed.

Lemma run_in_well_formed f run st :
  (forall st0, well_formed st0 -> well_formed (run st0).1) ->
  f < length (fns st) -> well_formed st ->
  well_formed (run_in f run st).1.
Proof.
  intros Hrun Hf Hwf. unfold run_in.
  destruct (cleanupEffect_frame f st) as (_ & _ & Hlen).
  pose proof (cleanupEffect_well_formed f st Hwf) as H1.
  apply (push_well_formed f) in H1; [|lia].
  apply Hrun in H1.
  destruct (run _) as [st3 r]. simpl in *.
  now apply pop_well_formed.
Qed.

(** Whatever a body does keeps the registrations consistent. *)
Lemma exec_well_formed p : forall self st,
  well_formed st -> well_formed (exec self p st).1.
Proof.
  induction p as [|e|s k IH|s v k IH|body IHb k IHk|f k IH];
    intros self st Hwf; simpl.
  - assumption.
  - assumption.
  - destruct (get_value s st) as [[v st']|] eqn:E; [|assumption].
    apply IH. apply (get_value_well_formed _ _ _ _ E Hwf).
  - destruct (set_value s v st) as [st'|] eqn:E; [|assumption].
    apply IH. apply (set_value_well_formed _ _ _ _ E Hwf).
  - unfold effect_with.
    assert (well_formed (run_in (length (fns st))
                           (exec (Some (length (fns st))) body)
                           (set_fns (fns st ++ [Runner body true []]) st)).1)
      as H.
    { apply run_in_well_formed.
      - intros st0. apply IHb.
      - simpl. rewrite length_app. simpl. lia.
      - apply alloc_well_formed; [|assumption]. now intros b a d [= _ _ <-]. }
    destruct (run_in _ _ _) as [st' [|e]]; simpl in H; [|assumption].
    now apply IHk.
  - apply IH. now apply dispose_well_formed.
Qed.

Lemma call_well_formed f st : well_formed st -> well_formed (call f st).1.
Proof.
  intros Hwf. unfold call.
  destruct (fns st !! f) as [[body [|] deps|s cb]|] eqn:E; try assumption.
  - apply run_in_well_formed; [|eapply lookup_lt_Some; eauto|assumption].
    intros st0. apply exec_well_formed.
  - destruct (signals st !! s); [|assumption].
    now apply exec_well_formed.
Qed.

Lemma flush_loop_well_formed fs : forall st,
  well_formed st ->
  well_formed (for_each fs
    (fun f => try_catch (fun st => call f (emit (EvInvoke f) st)) console_error)
    st).1.
Proof.
  induction fs as [|f fs IH]; intros st Hwf; simpl; [assumption|].
  destruct (guarded_call_log f st) as (Hn & _).
  assert (well_formed
            (try_catch (fun st => call f (emit (EvInvoke f) st)) console_error st).1)
    as H.
  { unfold try_catch.
    pose proof (call_well_formed f (emit (EvInvoke f) st) Hwf) as H.
    destruct (call f (emit (EvInvoke f) st)) as [st' [|e]]; exact H. }
  destruct (try_catch _ console_error st) as [st1 r1]. simpl in Hn, H. subst r1.
  now apply IH.
Qed.

Lemma run_microtask_well_formed st :
  well_formed st -> well_formed (run_microtask st).1.
Proof.
  intros Hwf. unfold run_microtask.
  destruct (microtasks st); [assumption|].
  unfold flush. now apply flush_loop_well_formed.
Qed.

Lemma write_all_well_formed ws : forall st,
  well_formed st -> well_formed (write_all ws st).
Proof.
  unfold write_all. induction ws as [|[s v] ws IH]; intros st Hwf; simpl;
    [assumption|].
  apply IH. destruct (set_value s v st) as [st'|] eqn:E; [|assumption].
  apply (set_value_well_formed _ _ _ _ E Hwf).
Qed.

Lemma effect_as_exec body st :
  (effect body st).1.1 = (exec None (NewEffect body Done) st).1.
Proof.
  unfold effect. simpl.
  destruct (effect_with body _ st) as [st' [|e]]; reflexivity.
Qed.

Lemma signal_well_formed initial eq st :
  well_formed st -> well_formed (signal initial eq st).1.
Proof.
  intros (Hreg & Hval & Hcur & Hstack). unfold signal. simpl.
  assert (forall s, subs_at
            (set_signals
               (signals st ++
                [{| _val := initial; subs := [];
                    equals := match eq with Some f => f | None => strict_eq end |}])
               st) s = subs_at st s) as Hs.
  { intros s. unfold subs_at. simpl.
    destruct (decide (s < length (signals st))) as [Hlt|Hge].
    - now rewrite lookup_app_l.
    - rewrite lookup_app_r by lia. rewrite (lookup_ge_None_2 (signals st)) by lia.
      destruct (s - length (signals st)) as [|[|n]]; reflexivity. }
  split; [|split; [|split]]; simpl; try assumption.
  - intros f body active deps Hf s. rewrite Hs. apply (Hreg f body active deps Hf).
  - intros s f. rewrite Hs. apply Hval.
Qed.

Lemma subscribe_well_formed s cb st :
  well_formed st -> well_formed (subscribe s cb st).1.
Proof.
  intros Hwf. unfold subscribe. simpl.
  pose proof (alloc_well_formed st (Wrapper s cb) ltac:(discriminate) Hwf)
    as (Hreg & Hval & Hcur & Hstack).
  set (st1 := set_fns (fns st ++ [Wrapper s cb]) st) in *.
  match goal with |- well_formed ?x => set (st' := x) end.
  assert (signals st' = alter (add_sub (length (fns st))) s (signals st1)) as Hsig
    by reflexivity.
  split; [|split; [|split]]; try assumption.
  - intros f body active deps Hf s0.
    rewrite (subs_at_add_sub _ s st1 st' Hsig s0 f).
    change (fns st') with (fns st1) in Hf.
    rewrite (Hreg f body active deps Hf). split; [|auto].
    intros [H|(_ & -> & _)]; [assumption|]. exfalso.
    subst st1. simpl in Hf. rewrite lookup_app_r in Hf by lia.
    rewrite Nat.sub_diag in Hf. discriminate.
  - intros s0 f Hf.
    apply (subs_at_add_sub _ s st1 st' Hsig s0 f) in Hf as [Hf|(_ & -> & _)].
    + now apply Hval in Hf.
    + subst st' st1. simpl. rewrite length_app. simpl. lia.
Qed.

Lemma unsubscribe_well_formed w st :
  well_formed st -> well_formed (unsubscribe w st).
Proof.
  intros Hwf. unfold unsubscribe.
  destruct (fns st !! w) as [[body active deps|s cb]|] eqn:E; try assumption.
  destruct Hwf as (Hreg & Hval & Hcur & Hstack).
  assert (forall s0 f, f ∈ subs_at
            (set_signals (alter (delete_sub w) s (signals st)) st) s0
            <-> f ∈ subs_at st s0 /\ (s0 <> s \/ f <> w)) as Hs.
  { intros s0 f. unfold subs_at. simpl.
    destruct (decide (s = s0)) as [->|Hne].
    - rewrite list_lookup_alter_eq. destruct (signals st !! s0); simpl.
      + rewrite elem_of_set_delete. tauto.
      + rewrite elem_of_nil. tauto.
    - rewrite list_lookup_alter_ne by assumption.
      split; [intros; split; auto|tauto]. }
  split; [|split; [|split]]; simpl; try assumption.
  - intros f body active deps Hf s0. rewrite Hs.
    rewrite (Hreg f body active deps Hf). split; [tauto|].
    intros H. split; [assumption|]. right. intros ->. congruence.
  - intros s0 f Hf. apply Hs in Hf as [Hf _]. now apply Hval in Hf.
Qed.

Lemma act_well_formed a st : well_formed st -> well_formed (act a st).
Proof.
  intros Hwf. destruct a; simpl.
  - now apply signal_well_formed.
  - rewrite effect_as_exec. now apply exec_well_formed.
  - now apply subscribe_well_formed.
  - now apply unsubscribe_well_formed.
  - now apply dispose_well_formed.
  - now apply (write_all_well_formed [(s, v)]).
  - now apply run_microtask_well_formed.
Qed.

(** The registrations are consistent in every state that the actions
    can lead to. *)
Lemma run_actions_well_formed acts : forall st,
  well_formed st -> well_formed (run_actions acts st).
Proof.
  unfold run_actions.
  induction acts as [|a acts IH]; intros st Hwf; simpl; [assumption|].
  apply IH. now apply act_well_formed.
Qed.

(** One run of a runner: the record of the runner afterwards is what
    the events of the run make of a runner without dependencies. *)
Lemma run_in_dependencies st f body active deps :
  well_formed st ->
  fns st !! f = Some (Runner body active deps) ->
  let st' := (run_in f (exec (Some f) body) st).1 in
  well_formed st' /\
  exists evs,
    log st' = log st ++ evs /\
    fns st' !! f = Some (replay f evs (Runner body active [])).
Proof.
  intros Hwf Hf st'.
  assert (f < length (fns st)) as Hlt by (eapply lookup_lt_Some; eauto).
  split.
  - apply run_in_well_formed; [|assumption..].
    intros st0. apply exec_well_formed.
  - destruct (run_in_tracked f (exec (Some f) body) st
                (exec_tracked body (Some f)))
      as (evs & Hl & [_ Ht] & _ & _).
    destruct (cleanupEffect_frame f st) as (_ & _ & Hlen).
    exists evs. split; [exact Hl|]. subst st'.
    rewrite (Ht f ltac:(lia)).
    rewrite (cleanupEffect_fns f st body active deps Hf).
    now rewrite list_lookup_insert_eq.
Qed.

(** What the run leaves as dependencies, read off the events. *)
Lemma dependencies_after_run st' f body evs :
  well_formed st' ->
  fns st' !! f = Some (replay f evs (Runner body true [])) ->
  exists active' deps',
    fns st' !! f = Some (Runner body active' deps') /\
    NoDup deps' /\
    (forall s, f ∈ subs_at st' s <-> s ∈ deps') /\
    (forall s, s ∈ deps' -> s ∈ reads_by f evs) /\
    (f ∉ disposed evs ->
     active' = true /\ forall s, s ∈ deps' <-> s ∈ reads_by f evs).
Proof.
  intros (Hreg & _) Hf.
  destruct (replay_runner f evs body true []) as (a' & d' & E & Hnd & Hin).
  rewrite E in Hf. exists a', d'. split; [exact Hf|].
  split; [apply Hnd; constructor|]. split; [apply (Hreg f body a' d' Hf)|].
  split.
  - intros s Hs. destruct (Hin s Hs) as [H|H]; [now apply elem_of_nil in H|exact H].
  - intros Hnd'. rewrite (replay_reads f evs _ Hnd'), add_deps_runner in E.
    injection E as <- <-. split; [reflexivity|].
    intros s. rewrite elem_of_fold_set_add, elem_of_nil. tauto.
Qed.


Lemma two_signals_well_formed : well_formed two_signals.
Proof.
  unfold two_signals. apply signal_well_formed, signal_well_formed.
  apply well_formed_initial.
Qed.

(** C6 as stated does not hold: an effect whose function calls the
    effect's own disposer and reads on is left with the signals it read
    after that only. The effect of [about_to_dispose] reads signal 0,
    disposes itself and reads signal 1: signal 0 was read during the run
    and is not among the dependencies recorded after it. *)
Lemma C6_self_disposal_forgets_reads :
  ~ (forall (st : state) (f : nat) (body : prog) (deps : list nat),
       well_formed st ->
       fns st !! f = Some (Runner body true deps) ->
       exists evs,
         log (call f st).1 = log st ++ evs /\
         forall s, s ∈ deps_of (call f st).1 f <-> s ∈ reads_by f evs).
Proof.
  intros H.
  destruct (H about_to_dispose 0 self_disposing [0]) as (evs & Hl & Hd).
  - unfold about_to_dispose. apply run_actions_well_formed.
    apply two_signals_well_formed.
  - vm_compute. reflexivity.
  - vm_compute in Hl.
    apply (app_inv_head [EvRead (Some 0) 0 (VNum 0); EvWrite 0 (VNum 1)]) in Hl.
    subst evs. specialize (Hd 0). vm_compute in Hd.
    assert (0 ∈ [0; 1]) as H0 by left.
    apply Hd in H0. apply list_elem_of_singleton in H0. discriminate.
Qed.

(** C6, amended. After a run of an effect, be it the re-run that the
    scheduler asks for or the first run at creation, the dependencies
    recorded for the effect hold each signal once, the effect is among
    the subscribers of exactly those signals, and every one of them is a
    signal that its function read during that run: nothing that an
    earlier run registered is retained. When the effect is not disposed
    during the run, the dependencies are exactly the signals that its
    function read during the run. *)
Theorem C6_dependencies_are_signals_read
    (st : state) (f : nat) (body : prog) (deps : list nat) (body0 : prog) :
  well_formed st ->
  fns st !! f = Some (Runner body true deps) ->
  (let st' := (call f st).1 in
   exists evs active' deps',
     log st' = log st ++ evs /\
     fns st' !! f = Some (Runner body active' deps') /\
     NoDup deps' /\
     (forall s, f ∈ subs_at st' s <-> s ∈ deps') /\
     (forall s, s ∈ deps' -> s ∈ reads_by f evs) /\
     (f ∉ disposed evs ->
      active' = true /\ forall s, s ∈ deps' <-> s ∈ reads_by f evs)) /\
  (let st' := (effect body0 st).1.1 in
   let f0 := (effect body0 st).1.2 in
   exists evs active' deps',
     log st' = log st ++ evs /\
     fns st' !! f0 = Some (Runner body0 active' deps') /\
     NoDup deps' /\
     (forall s, f0 ∈ subs_at st' s <-> s ∈ deps') /\
     (forall s, s ∈ deps' -> s ∈ reads_by f0 evs) /\
     (f0 ∉ disposed evs ->
      active' = true /\ forall s, s ∈ deps' <-> s ∈ reads_by f0 evs)).
Proof.
  intros Hwf Hf. split.
  - unfold call. rewrite Hf.
    destruct (run_in_dependencies st f body true deps Hwf Hf)
      as (Hwf' & evs & Hl & Hfn).
    destruct (dependencies_after_run _ f body evs Hwf' Hfn)
      as (a' & d' & H1 & H2 & H3 & H4 & H5).
    exists evs, a', d'. auto 10.
  - unfold effect, effect_with.
    set (g := length (fns st)).
    set (st1 := set_fns (fns st ++ [Runner body0 true []]) st).
    assert (fns st1 !! g = Some (Runner body0 true [])) as Hg.
    { subst st1 g. simpl. rewrite lookup_app_r by lia.
      now rewrite Nat.sub_diag. }
    assert (well_formed st1) as Hwf1.
    { apply alloc_well_formed; [|assumption]. now intros b a d [= _ _ <-]. }
    destruct (run_in_dependencies st1 g body0 true [] Hwf1 Hg)
      as (Hwf' & evs & Hl & Hfn).
    destruct (dependencies_after_run _ g body0 evs Hwf' Hfn)
      as (a' & d' & H1 & H2 & H3 & H4 & H5).
    destruct (run_in g (exec (Some g) body0) st1) as [st' r]. simpl in *.
    exists evs, a', d'. auto 10.
Qed.

Lemma C6_dependencies_are_signals_read_witness :
  exists evs active' deps',
    log (call 0 branching_stale).1 = log branching_stale ++ evs /\
    fns (call 0 branching_stale).1 !! 0 = Some (Runner branching active' deps') /\
    NoDup deps' /\
    (forall s, 0 ∈ subs_at (call 0 branching_stale).1 s <-> s ∈ deps') /\
    (forall s, s ∈ deps' -> s ∈ reads_by 0 evs) /\
    (0 ∉ disposed evs ->
     active' = true /\ forall s, s ∈ deps' <-> s ∈ reads_by 0 evs).
Proof.
  assert (fns branching_stale !! 0 = Some (Runner branching true [0; 1])) as Hf
    by (vm_compute; reflexivity).
  refine (proj1 (C6_dependencies_are_signals_read
                   branching_stale 0 branching [0; 1] Done _ Hf)).
  unfold branching_stale. apply run_actions_well_formed.
  apply two_signals_well_formed.
Defined.

(** ** Values seen by reads *)

Lemma explains_refl st : explains st st [].
Proof.
  split.
  - intros self s v H. now apply elem_of_nil in H.
  - auto.
Qed.




Lemma val_lookup_alter (g : signal_cell -> signal_cell) (i s : nat)
    (l : list signal_cell) :
  (forall c, _val (g c) = _val c) ->
  _val <$> alter g i l !! s = _val <$> l !! s.
Proof.
  intros Hg. destruct (decide (i = s)) as [->|Hne].
  - rewrite list_lookup_alter_eq. destruct (l !! s); simpl; [|reflexivity].
    now rewrite Hg.
  - now rewrite list_lookup_alter_ne.
Qed.


(** The two ways a write can go. *)
Lemma set_value_cases s v st st' :
  set_value s v st = Some st' ->
  (st' = st) \/
  (log st' = log st ++ [EvWrite s v] /\ val_at st' s = Some v /\
   forall s0, s0 <> s -> val_at st' s0 = val_at st s0).
Proof.
  unfold set_value. destruct (signals st !! s) as [c|] eqn:E; [|discriminate].
  destruct (equals c (_val c) v); intros [= <-]; [left; reflexivity|].
  right. rewrite schedule_all_log. split; [reflexivity|].
  match goal with |- context [fold_left ?g ?fs ?s0] =>
    destruct (schedule_all_frame fs s0) as (H1 & _) end.
  unfold val_at. rewrite H1. simpl. split.
  - now rewrite list_lookup_alter_eq, E.
  - intros s0 Hne. now rewrite list_lookup_alter_ne.
Qed.

Lemma set_value_explains s v st st' :
  set_value s v st = Some st' ->
  exists evs, log st' = log st ++ evs /\ explains st st' evs /\
              Forall is_write evs.
Proof.
  intros H. apply set_value_cases in H as [->|(Hl & Hv & Ho)].
  - exists []. rewrite app_nil_r. split; [reflexivity|].
    split; [apply explains_refl|constructor].
  - exists [EvWrite s v]. split; [exact Hl|]. split; [|repeat constructor].
    split.
    + intros self s0 v0 H. apply list_elem_of_singleton in H. discriminate.
    + intros s0 v0 H. destruct (decide (s0 = s)) as [->|Hne].
      * right. rewrite Hv in H. injection H as <-. apply list_elem_of_singleton.
        reflexivity.
      * left. now rewrite <- Ho.
Qed.

Lemma cleanupEffect_val f st s : val_at (cleanupEffect f st) s = val_at st s.
Proof.
  unfold cleanupEffect, val_at.
  destruct (fns st !! f) as [[body active deps|]|]; try reflexivity. simpl.
  generalize (signals st). induction deps as [|d deps IH]; intros sigs; simpl.
  - reflexivity.
  - rewrite IH. now apply val_lookup_alter.
Qed.









(** ** The scheduler *)

Lemma scheduleEffect_ok f st :
  scheduler_ok st ->
  scheduler_ok (scheduleEffect f st) /\
  forall g, g = f \/ g ∈ _effectQueue st -> g ∈ _effectQueue (scheduleEffect f st).
Proof.
  intros [Hnd Hs]. unfold scheduleEffect, scheduler_ok. simpl.
  destruct (_effectScheduled st) eqn:E; simpl.
  - split; [|intros g; now rewrite elem_of_set_add].
    split; [now apply NoDup_set_add|]. right.
    destruct Hs as [(? & _)|(_ & ?)]; [congruence|auto].
  - split; [|intros g; now rewrite elem_of_set_add].
    split; [now apply NoDup_set_add|]. right.
    destruct Hs as [(_ & -> & _)|(? & _)]; [auto|congruence].
Qed.

Lemma schedule_all_ok fs : forall st,
  scheduler_ok st ->
  let st' := fold_left (fun st f => scheduleEffect f st) fs st in
  scheduler_ok st' /\
  forall g, g ∈ fs \/ g ∈ _effectQueue st -> g ∈ _effectQueue st'.
Proof.
  induction fs as [|f fs IH]; intros st Hok; simpl.
  - split; [assumption|]. intros g [H|H]; [now apply elem_of_nil in H|assumption].
  - destruct (scheduleEffect_ok f st Hok) as [Hok1 Hq1].
    destruct (IH _ Hok1) as [Hok2 Hq2]. split; [assumption|].
    intros g Hg. apply Hq2. rewrite elem_of_cons in Hg.
    destruct Hg as [[->|Hg]|Hg]; auto.
Qed.

(** A committed write schedules every subscriber of the signal. *)
Lemma set_value_schedules s v st st' :
  set_value s v st = Some st' -> scheduler_ok st ->
  scheduler_ok st' /\
  (forall g, g ∈ _effectQueue st -> g ∈ _effectQueue st') /\
  (log st' = log st ++ [EvWrite s v] ->
   forall f, f ∈ subs_at st s -> f ∈ _effectQueue st').
Proof.
  unfold set_value, subs_at.
  destruct (signals st !! s) as [c|] eqn:E; [|discriminate].
  destruct (equals c (_val c) v); intros [= <-] Hok.
  - split; [assumption|]. split; [auto|]. intros Hl. exfalso.
    apply (f_equal length) in Hl. rewrite length_app in Hl. simpl in Hl. lia.
  - match goal with |- context [fold_left ?g ?fs ?s0] =>
      destruct (schedule_all_ok fs s0 Hok) as [Hok' Hq] end.
    split; [exact Hok'|]. split; intros; apply Hq; auto.
Qed.

Lemma write_all_spec ws : forall st,
  scheduler_ok st ->
  let st1 := write_all ws st in
  scheduler_ok st1 /\
  (forall g, g ∈ _effectQueue st -> g ∈ _effectQueue st1) /\
  exists wevs,
    log st1 = log st ++ wevs /\ Forall is_write wevs /\
    forall s v f, EvWrite s v ∈ wevs -> f ∈ subs_at st s ->
                  f ∈ _effectQueue st1.
Proof.
  unfold write_all.
  induction ws as [|[s v] ws IH]; intros st Hok; simpl.
  - split; [assumption|]. split; [auto|]. exists [].
    rewrite app_nil_r. split; [reflexivity|]. split; [constructor|].
    intros s v f H. now apply elem_of_nil in H.
  - destruct (set_value s v st) as [st'|] eqn:E; [|apply IH; assumption].
    destruct (set_value_schedules _ _ _ _ E Hok) as (Hok' & Hq & Hc).
    destruct (set_value_frame _ _ _ _ E) as (_ & _ & _ & Hsubs).
    destruct (set_value_explains _ _ _ _ E) as (evs & Hl & _ & Hw).
    destruct (IH st' Hok') as (Hok2 & Hq2 & wevs & Hl2 & Hw2 & Hs2).
    split; [assumption|]. split; [auto|].
    exists (evs ++ wevs). rewrite Hl2, Hl, app_assoc.
    split; [reflexivity|]. split; [now apply Forall_app|].
    intros s0 v0 f Hin Hf. apply elem_of_app in Hin as [Hin|Hin].
    + apply Hq2.
      apply set_value_cases in E as [->|(Hl' & _)].
      * rewrite <- (app_nil_r (log st)) in Hl at 1.
        apply app_inv_head in Hl. subst evs. now apply elem_of_nil in Hin.
      * rewrite Hl' in Hl. apply app_inv_head in Hl. subst evs.
        apply list_elem_of_singleton in Hin. injection Hin as -> ->.
        now apply Hc.
    + apply (Hs2 s0 v0 f Hin). now rewrite Hsubs.
Qed.

Lemma quiescent_scheduler_ok st : quiescent st -> scheduler_ok st.
Proof.
  intros (_ & _ & Hq & Hs & Hm). split.
  - rewrite Hq. constructor.
  - left. auto.
Qed.


(** ** Subscribers *)




Lemma calls_of_callback w f v :
  calls_of w [EvCallback f v] = if decide (w = f) then [v] else [].
Proof.
  unfold calls_of. simpl. destruct (Nat.eqb_spec f w) as [->|Hne].
  - now rewrite decide_True.
  - rewrite decide_False; [reflexivity|congruence].
Qed.



Lemma scheduleEffect_queue f st :
  _effectQueue (scheduleEffect f st) = set_add f (_effectQueue st).
Proof. unfold scheduleEffect. simpl. now destruct (_effectScheduled st). Qed.

Lemma schedule_all_queue fs : forall st g,
  g ∈ _effectQueue (fold_left (fun st f => scheduleEffect f st) fs st) ->
  g ∈ fs \/ g ∈ _effectQueue st.
Proof.
  induction fs as [|f fs IH]; intros st g H; simpl in H; [auto|].
  apply IH in H as [H|H]; [left; now right|].
  rewrite scheduleEffect_queue in H.
  apply elem_of_set_add in H as [->|H]; [left; left|auto].
Qed.














End ReactiveFacts.

Module QueryCacheFacts.
Import QueryCache.

(** ** One query *)

(** A response that does not carry the current sequence number leaves
    the query as it is and resolves with the data the query has. *)
Lemma settle_superseded d now id res q :
  id <> requestId q ->
  _run_settle d now id res q = (q, Resolved (data q), []).
Proof.
  intros Hne. apply Nat.eqb_neq in Hne.
  unfold _run_settle. rewrite Hne. simpl.
  destruct res; [reflexivity|].
  destruct (is_set (abortController q) && isAbortError e); reflexivity.
Qed.

Lemma begin_requestId ac d now force q q' b evs :
  _run_begin ac d now force q = (q', b, evs) ->
  requestId q <= requestId q' /\
  (forall id, b = Pending id -> id = requestId q' /\ requestId q < id).
Proof.
  unfold _run_begin.
  destruct (negb force && negb (isStale d now q) && Status_eqb (status q) Success
            && negb (forceRefetch (options q))); intros H; inversion H; subst; simpl.
  - split; [lia|]. discriminate.
  - split; [lia|]. intros id [= <-]. lia.
Qed.

Lemma settle_requestId d now id res q :
  requestId (_run_settle d now id res q).1.1 = requestId q.
Proof.
  unfold _run_settle. destruct res.
  - destruct (negb (id =? requestId q)); reflexivity.
  - destruct (is_set (abortController q) && isAbortError e); [reflexivity|].
    destruct (negb (id =? requestId q)); reflexivity.
Qed.

(** The sequence counter never goes back. *)
Lemma query_steps_requestId ac d ops : forall q,
  requestId q <= requestId (query_steps ac d ops q).1.
Proof.
  induction ops as [|op ops IH]; intros q; simpl; [lia|].
  destruct (query_step ac d op q) as [q1 evs1] eqn:E1.
  specialize (IH q1).
  destruct (query_steps ac d ops q1) as [q2 evs2] eqn:E2. simpl in *.
  assert (requestId q <= requestId q1); [|lia].
  destruct op as [now force|now id res]; simpl in E1.
  - destruct (_run_begin ac d now force q) as [[q' b] evs] eqn:Eb.
    inversion E1; subst. apply begin_requestId in Eb. tauto.
  - pose proof (settle_requestId d now id res q) as Hs.
    destruct (_run_settle d now id res q) as [[q' b] evs] eqn:Eb.
    inversion E1; subst. simpl in Hs. lia.
Qed.

Lemma begin_pending ac d now force q q' id evs :
  _run_begin ac d now force q = (q', Pending id, evs) ->
  requestId q' = id /\ requestId q < id.
Proof.
  intros H. apply begin_requestId in H as [_ H].
  destruct (H id eq_refl) as [-> ?]. split; [reflexivity | assumption].
Qed.

(** What a fulfilled fetch commits when it carries the current number. *)
Lemma settle_fulfilled_current d now raw q :
  let selected := match select d q with Some f => f raw | None => raw end in
  _run_settle d now (requestId q) (Fulfilled raw) q =
    ({| key := key q; hash := hash q; fetcher := fetcher q; options := options q;
        data := selected; error := VNull; status := Success;
        isFetching := false; lastUpdated := now; requestId := requestId q;
        abortController := abortController q; subCount := subCount q |},
     Resolved selected,
     fires (onSuccess (options q)) (OnSuccess selected)
     ++ fires (onSettled (options q)) (OnSettled selected VNull)).
Proof.
  unfold _run_settle. rewrite Nat.eqb_refl. simpl.
  now rewrite !signal_write_strict.
Qed.

Lemma settle_fulfilled_at d now id raw q :
  requestId q = id ->
  let selected := match select d q with Some f => f raw | None => raw end in
  _run_settle d now id (Fulfilled raw) q =
    ({| key := key q; hash := hash q; fetcher := fetcher q; options := options q;
        data := selected; error := VNull; status := Success;
        isFetching := false; lastUpdated := now; requestId := requestId q;
        abortController := abortController q; subCount := subCount q |},
     Resolved selected,
     fires (onSuccess (options q)) (OnSuccess selected)
     ++ fires (onSettled (options q)) (OnSettled selected VNull)).
Proof. intros <-. apply settle_fulfilled_current. Qed.

(** What a failed fetch commits when it carries the current number and is
    not taken for a cancellation. *)
Lemma settle_failed_current d now e q :
  is_set (abortController q) && isAbortError e = false ->
  _run_settle d now (requestId q) (Failed e) q =
    ({| key := key q; hash := hash q; fetcher := fetcher q; options := options q;
        data := data q; error := e; status := Errored;
        isFetching := false; lastUpdated := lastUpdated q;
        requestId := requestId q;
        abortController := abortController q; subCount := subCount q |},
     Rejected e,
     fires (onError (options q)) (OnError e)
     ++ fires (onSettled (options q)) (OnSettled VUndefined e)).
Proof.
  intros Hna. unfold _run_settle. rewrite Hna, Nat.eqb_refl. simpl.
  now rewrite signal_write_strict.
Qed.

(** C1. Of two overlapping attempts of a query, the second started
    before the first has settled, only a response that still carries the
    query's current sequence number is committed to [data], [error] and
    [status]. The first attempt is superseded: however its fetch settles,
    fulfilled or failed, now or after any further steps of the query, the
    query stays as it is, no callback runs and the promise resolves (it
    does not reject) with the data the query holds. The second attempt's
    result is the one committed. *)
Theorem C1_superseded_response_discarded
    (ac : bool) (d : DefaultOptions) (q0 q1 q2 : Query)
    (now1 now2 : Z) (force1 force2 : bool) (a b : nat)
    (evs1 evs2 : list qevent) :
  _run_begin ac d now1 force1 q0 = (q1, Pending a, evs1) ->
  _run_begin ac d now2 force2 q1 = (q2, Pending b, evs2) ->
  requestId q2 = b /\ a <> b /\
  (forall ops now res,
     let q := (query_steps ac d ops q2).1 in
     _run_settle d now a res q = (q, Resolved (data q), [])) /\
  (forall q now id res,
     let q' := (_run_settle d now id res q).1.1 in
     data q' <> data q \/ error q' <> error q \/ status q' <> status q ->
     id = requestId q) /\
  (forall now raw,
     let selected := match select d q2 with Some f => f raw | None => raw end in
     let q := (_run_settle d now b (Fulfilled raw) q2).1.1 in
     data q = selected /\ error q = VNull /\ status q = Success) /\
  (forall now e,
     isAbortError e = false ->
     let q := (_run_settle d now b (Failed e) q2).1.1 in
     data q = data q2 /\ error q = e /\ status q = Errored).
Proof.
  intros H1 H2.
  apply begin_pending in H1 as [Ha _].
  apply begin_pending in H2 as [Hb Hlt].
  split; [assumption|]. split; [lia|]. split; [|split; [|split]].
  - intros ops now res q. apply settle_superseded.
    pose proof (query_steps_requestId ac d ops q2). subst q. lia.
  - intros q now id res q' Hchg.
    destruct (Nat.eq_dec id (requestId q)) as [|Hne]; [assumption|].
    subst q'. rewrite (settle_superseded d now id res q Hne) in Hchg.
    simpl in Hchg. tauto.
  - intros now raw selected q. subst q b.
    rewrite settle_fulfilled_current. simpl. auto.
  - intros now e He q. subst q b.
    rewrite settle_failed_current by (rewrite He; apply andb_false_r).
    simpl. auto.
Qed.

Lemma C1_superseded_response_discarded_witness :
  requestId two_in_flight = 2 /\ 1 <> 2.
Proof.
  pose proof (C1_superseded_response_discarded true defaultOptions0
    fresh_query one_in_flight two_in_flight 1000 1005 false false 1 2
    [Fetch 1 0] [Abort 1; Fetch 2 0] eq_refl eq_refl) as H.
  exact (conj (proj1 H) (proj1 (proj2 H))).
Defined.



(** Without an abort controller the same error is a failure like any
    other. *)
Lemma abort_error_without_controller d now e q :
  abortController q = None ->
  status (_run_settle d now (requestId q) (Failed e) q).1.1 = Errored /\
  (_run_settle d now (requestId q) (Failed e) q).1.2 = Rejected e.
Proof.
  intros Hnone.
  rewrite settle_failed_current by (now rewrite Hnone).
  split; reflexivity.
Qed.




(** A call of [_run] on a query that is not in success status always
    starts an attempt. *)
Lemma begin_not_success ac d now force q :
  Status_eqb (status q) Success = false ->
  _run_begin ac d now force q =
    ({| key := key q; hash := hash q; fetcher := fetcher q; options := options q;
        data := data q; error := error q; status := Loading;
        isFetching := true; lastUpdated := lastUpdated q;
        requestId := S (requestId q);
        abortController := if ac then Some (S (requestId q)) else None;
        subCount := subCount q |},
     Pending (S (requestId q)),
     match abortController q with Some c => [Abort c] | None => [] end
     ++ [Fetch (S (requestId q)) (fetcher q)]).
Proof.
  intros Hs. unfold _run_begin. rewrite Hs.
  rewrite andb_false_r. reflexivity.
Qed.

Lemma begin_cached ac d now q :
  status q = Success ->
  forceRefetch (options q) = false ->
  (now - lastUpdated q <= staleTime d q)%Z ->
  _run_begin ac d now false q = (q, Cached (data q), []).
Proof.
  intros Hs Hf Hfresh. unfold _run_begin, isStale.
  rewrite Hs, Hf. simpl.
  destruct (Z.ltb_spec (staleTime d q) (now - lastUpdated q)); [lia|reflexivity].
Qed.

Lemma fetch_count_fires c1 e1 c2 e2 :
  is_fetch e1 = false -> is_fetch e2 = false ->
  fetch_count (fires c1 e1 ++ fires c2 e2) = 0.
Proof.
  intros H1 H2. unfold fetch_count.
  destruct c1, c2; simpl; rewrite ?H1, ?H2; reflexivity.
Qed.

(** C4 as stated does not hold: a query created with [forceRefetch: true]
    whose fetch succeeded at 1005 is asked again at 1010 without force,
    well inside the stale time of 60000, and calls its fetcher again. *)
Lemma C4_forceRefetch_option_refetches :
  ~ (forall (ac : bool) (d : DefaultOptions) (now : Z) (q : Query),
       status q = Success ->
       (now - lastUpdated q < staleTime d q)%Z ->
       fetch_count (_run_begin ac d now false q).2 = 0 /\
       (_run_begin ac d now false q).1.2 = Cached (data q)).
Proof.
  intros H.
  destruct (H true defaultOptions0 1010%Z eager_loaded eq_refl) as [H0 _].
  - vm_compute. reflexivity.
  - vm_compute in H0. discriminate H0.
Qed.

(** C4, amended. For a query in success status whose [forceRefetch]
    option is not set, a call of the fetch trigger without force while
    the time since the last success is less than the stale time calls no
    fetcher, changes nothing and returns the cached data. In particular,
    with a stale time of 60000 and [forceRefetch] not set, a new query
    asked at [t0], whose fetch succeeds at [t1], and asked again at [t2]
    less than 60000 after [t0], has called its fetcher once, and the
    second call returns the data the first one fetched. *)
Theorem C4_fresh_data_served_from_cache
    (ac : bool) (d : DefaultOptions) (now : Z) (q : Query) :
  status q = Success ->
  forceRefetch (options q) = false ->
  (now - lastUpdated q < staleTime d q)%Z ->
  _run_begin ac d now false q = (q, Cached (data q), []) /\
  fetch_count (_run_begin ac d now false q).2 = 0 /\
  (forall (k : cache_key) (fn : nat) (o : QueryOptions) (raw : jsval)
          (t0 t1 t2 : Z),
     initialData o = VUndefined ->
     forceRefetch o = false ->
     o_staleTime o = Some 60000%Z ->
     (t0 <= t1)%Z -> (t1 <= t2)%Z -> (t2 - t0 < 60000)%Z ->
     let first :=
       query_steps ac d [Run t0 false; Settle t1 1 (Fulfilled raw)]
         (newQuery k fn o) in
     let second := _run_begin ac d t2 false first.1 in
     fetch_count (first.2 ++ second.2) = 1 /\
     second.1.2 = Cached (data first.1) /\
     data first.1 = match select d (newQuery k fn o) with
                    | Some f => f raw
                    | None => raw
                    end).
Proof.
  intros Hs Hf Hfresh.
  assert (_run_begin ac d now false q = (q, Cached (data q), [])) as E
    by (apply begin_cached; [assumption | assumption | lia]).
  split; [exact E|]. split; [now rewrite E|].
  intros k fn o raw t0 t1 t2 Hi Hfo Hst H01 H12 Hw first second.
  subst second first. cbn [query_steps query_step].
  rewrite begin_not_success by (simpl; rewrite Hi; reflexivity).
  cbv beta iota zeta.
  rewrite settle_fulfilled_at by reflexivity.
  cbv beta iota zeta. cbn [fst snd].
  rewrite begin_cached.
  - cbn [fst snd data select options newQuery abortController fetcher
         requestId]. split; [|split; reflexivity].
    rewrite !app_nil_r. unfold fetch_count.
    rewrite List.filter_app, length_app. simpl List.filter at 1. simpl length at 1.
    change (length (List.filter is_fetch ?l)) with (fetch_count l).
    now rewrite fetch_count_fires.
  - reflexivity.
  - exact Hfo.
  - unfold staleTime. simpl. rewrite Hst. lia.
Qed.

Lemma C4_fresh_data_served_from_cache_witness :
  _run_begin true defaultOptions0 1010 false
    (query_steps true defaultOptions0
       [Run 1000 false; Settle 1005 1 (Fulfilled (VNum 7))] fresh_query).1
  = ((query_steps true defaultOptions0
       [Run 1000 false; Settle 1005 1 (Fulfilled (VNum 7))] fresh_query).1,
     Cached (VNum 7), []).
Proof.
  refine (proj1 (C4_fresh_data_served_from_cache true defaultOptions0 1010
                   (query_steps true defaultOptions0
                      [Run 1000 false; Settle 1005 1 (Fulfilled (VNum 7))]
                      fresh_query).1 eq_refl eq_refl _)).
  vm_compute. reflexivity.
Defined.

(** ** The client's map *)

Lemma map_get_set_eq h r m : map_get h (map_set h r m) = Some r.
Proof.
  induction m as [|[h' r'] m IH]; simpl.
  - now rewrite String.eqb_refl.
  - destruct (String.eqb h h') eqn:E; simpl; rewrite ?E, ?String.eqb_refl; auto.
Qed.


(** A key whose hash is in the map gets the query that is there: no
    query is made, nothing is fetched, the client is as before. *)
Lemma createQuery_found ac now k fn o c r :
  map_get (hashKey k) (queries c) = Some r ->
  createQuery ac now k fn o c = (c, r, []).
Proof. intros H. unfold createQuery. now rewrite H. Qed.

Lemma begin_fetcher_options ac d now force q :
  fetcher (_run_begin ac d now force q).1.1 = fetcher q /\
  options (_run_begin ac d now force q).1.1 = options q.
Proof.
  unfold _run_begin.
  destruct (negb force && negb (isStale d now q) && Status_eqb (status q) Success
            && negb (forceRefetch (options q))); simpl; auto.
Qed.


(** What [createQuery] returns for a new hash. *)
Lemma createQuery_new ac now k fn o c :
  map_get (hashKey k) (queries c) = None ->
  (createQuery ac now k fn o c).1.2 = length (store c) /\
  queries (createQuery ac now k fn o c).1.1
    = map_set (hashKey k) (length (store c)) (queries c) /\
  exists q, store (createQuery ac now k fn o c).1.1 = store c ++ [q] /\
            fetcher q = fn /\ options q = o.
Proof.
  intros Hnone. unfold createQuery. rewrite Hnone.
  destruct (initialFetch o).
  - pose proof (begin_fetcher_options ac (defaultOptions c) now true
                  (newQuery k fn o)) as [Hf Ho].
    unfold refetch.
    destruct (_run_begin ac (defaultOptions c) now true (newQuery k fn o))
      as [[q' b] evs]. simpl in *.
    split; [reflexivity|]. split; [reflexivity|]. exists q'. auto.
  - simpl. split; [reflexivity|]. split; [reflexivity|]. eexists. eauto.
Qed.

Lemma createQuery_holds ac now k fn o c :
  map_get (hashKey k) (queries c) = None ->
  holds (hashKey k) (createQuery ac now k fn o c).1.2 fn o
    (createQuery ac now k fn o c).1.1.
Proof.
  intros Hnone.
  destruct (createQuery_new ac now k fn o c Hnone) as (Hr & Hq & q & Hs & Hf & Ho).
  unfold holds. rewrite Hr, Hq, Hs. split.
  - apply map_get_set_eq.
  - exists q. split; [|auto].
    rewrite lookup_app_r by lia. now rewrite Nat.sub_diag.
Qed.

Lemma createQuery_registers ac now k fn o c :
  map_get (hashKey k) (queries (createQuery ac now k fn o c).1.1)
  = Some (createQuery ac now k fn o c).1.2.
Proof.
  destruct (map_get (hashKey k) (queries c)) as [r|] eqn:E.
  - now rewrite (createQuery_found ac now k fn o c r E).
  - apply createQuery_holds. exact E.
Qed.







End QueryCacheFacts.

(** ** The states of a query *)

Module QueryStateFacts.
Import QueryCache ClientOps.

Lemma newQuery_sound k fn o : status_sound (newQuery k fn o).
Proof.
  unfold status_sound, newQuery. simpl.
  destruct (strict_eq (initialData o) VUndefined) eqn:E.
  - apply strict_eq_sound in E.
    repeat split; try discriminate; auto.
  - repeat split; try discriminate; auto.
Qed.

Lemma begin_sound ac d now force q :
  status_sound q -> status_sound (_run_begin ac d now force q).1.1.
Proof.
  intros (HI & _ & _ & HS & HF & HA). unfold _run_begin.
  destruct (negb force && negb (isStale d now q) && Status_eqb (status q) Success
            && negb (forceRefetch (options q))) eqn:Ec; simpl.
  - unfold status_sound. rewrite !andb_true_iff in Ec.
    destruct Ec as [[[_ _] Hs] _].
    destruct (status q) eqn:Est; try discriminate.
    repeat split; try discriminate; auto; apply HS; reflexivity.
  - unfold status_sound. simpl.
    destruct (status q) eqn:Est; simpl;
      destruct (keepPreviousData (options q)) eqn:Ek; simpl;
      repeat split; try discriminate; try lia; auto;
      try (destruct ac; intros c [= <-]; reflexivity);
      try (apply HS; reflexivity).
Qed.

Lemma settle_sound d now id res q :
  1 <= id <= requestId q ->
  status_sound q -> status_sound (_run_settle d now id res q).1.1.
Proof.
  intros Hid Hs. unfold _run_settle. destruct res as [raw|e].
  - destruct (Nat.eqb_spec id (requestId q)) as [->|Hne]; simpl; [|exact Hs].
    destruct Hs as (_ & _ & _ & _ & _ & HA).
    unfold status_sound. simpl. rewrite !signal_write_strict.
    repeat split; try discriminate; auto.
  - destruct (is_set (abortController q) && isAbortError e); [exact Hs|].
    destruct (Nat.eqb_spec id (requestId q)) as [->|Hne]; simpl; [|exact Hs].
    destruct Hs as (_ & _ & _ & _ & _ & HA).
    unfold status_sound. simpl. rewrite ?signal_write_strict.
    repeat split; try discriminate; auto.
Qed.

Lemma steps_sound ac d ops : forall q,
  status_sound q -> answers ac d ops q ->
  status_sound (query_steps ac d ops q).1.
Proof.
  induction ops as [|op ops IH]; intros q Hs Ha; simpl; [exact Hs|].
  destruct Ha as [Hop Ha].
  assert (status_sound (query_step ac d op q).1) as Hs1.
  { destruct op as [now force|now id res]; simpl.
    - pose proof (begin_sound ac d now force q Hs) as H.
      destruct (_run_begin ac d now force q) as [[q' b] evs]. exact H.
    - pose proof (settle_sound d now id res q Hop Hs) as H.
      destruct (_run_settle d now id res q) as [[q' b] evs]. exact H. }
  specialize (IH _ Hs1 Ha).
  destruct (query_step ac d op q) as [q1 evs1]. simpl in IH.
  destruct (query_steps ac d ops q1) as [q2 evs2]. exact IH.
Qed.

(** Whatever a query has been through, its status tells the state it is
    in: idle means that it was never run (no attempt, no data, no
    error); loading means that a fetch is in flight; error means that
    none is; success means that there is no error, and a fetch is in
    flight then only for a query that keeps its data while it
    revalidates. A fetch in flight has a sequence number, and the abort
    controller is the one of the latest attempt. *)
Theorem status_tells_the_state
    (ac : bool) (d : DefaultOptions) (k : cache_key) (fn : nat)
    (o : QueryOptions) (ops : list query_op) :
  answers ac d ops (newQuery k fn o) ->
  let q := (query_steps ac d ops (newQuery k fn o)).1 in
  (status q = Idle ->
   requestId q = 0 /\ isFetching q = false /\ lastUpdated q = 0%Z /\
   data q = VUndefined /\ error q = VNull) /\
  (status q = Loading -> isFetching q = true) /\
  (status q = Errored -> isFetching q = false) /\
  (status q = Success ->
   error q = VNull /\
   (isFetching q = true -> keepPreviousData (options q) = true)) /\
  (isFetching q = true -> 1 <= requestId q) /\
  (forall c, abortController q = Some c -> c = requestId q).
Proof.
  intros Ha. apply steps_sound; [apply newQuery_sound|exact Ha].
Qed.

Lemma status_tells_the_state_witness :
  let q := (query_steps true defaultOptions0
              [Run 1000 false; Run 1005 false;
               Settle 1010 1 (Fulfilled (VNum 7));
               Settle 1020 2 (Failed (VError "TypeError" "no network"))]
              fresh_query).1 in
  status q = Errored /\ isFetching q = false.
Proof.
  assert (answers true defaultOptions0
            [Run 1000 false; Run 1005 false;
             Settle 1010 1 (Fulfilled (VNum 7));
             Settle 1020 2 (Failed (VError "TypeError" "no network"))]
            fresh_query) as Ha by (simpl; lia).
  pose proof (status_tells_the_state true defaultOptions0 (KStr "todos") 0
                plain_options _ Ha) as (_ & _ & He & _).
  split; [reflexivity|]. apply He. reflexivity.
Defined.




End QueryStateFacts.

(** ** The client: invalidation and the sweep *)

Module ClientFacts.
Import QueryCache ClientOps.

(** *** The map *)

Lemma map_get_Some_elem h r m : map_get h m = Some r -> (h, r) ∈ m.
Proof.
  induction m as [|[h' r'] m IH]; simpl; [discriminate|].
  destruct (String.eqb_spec h h') as [->|Hne].
  - intros [= ->]. left.
  - intros H. right. auto.
Qed.

Lemma map_get_None_notin h m : map_get h m = None -> h ∉ (fst <$> m).
Proof.
  induction m as [|[h' r'] m IH]; simpl.
  - intros _ H. now apply elem_of_nil in H.
  - destruct (String.eqb_spec h h'); [discriminate|].
    intros H Hin. apply elem_of_cons in Hin as [->|Hin]; [congruence|].
    now apply IH.
Qed.

Lemma elem_map_get h r m :
  NoDup (fst <$> m) -> (h, r) ∈ m -> map_get h m = Some r.
Proof.
  induction m as [|[h' r'] m IH]; simpl; intros Hnd Hin.
  - now apply elem_of_nil in Hin.
  - apply NoDup_cons in Hnd as [Hn Hnd].
    apply elem_of_cons in Hin as [[= -> ->]|Hin].
    + now rewrite String.eqb_refl.
    + destruct (String.eqb_spec h h') as [->|]; [|auto].
      exfalso. apply Hn. apply list_elem_of_fmap. exists (h', r). auto.
Qed.

Lemma map_set_new h r m :
  map_get h m = None -> map_set h r m = m ++ [(h, r)].
Proof.
  induction m as [|[h' r'] m IH]; simpl; [reflexivity|].
  destruct (String.eqb h h'); [discriminate|].
  intros H. now rewrite IH.
Qed.

Lemma filter_sublist {A} (keep : A -> bool) (l : list A) :
  List.filter keep l `sublist_of` l.
Proof.
  induction l as [|x l IH]; simpl; [constructor|].
  destruct (keep x); now constructor.
Qed.

(** Looking up after a filter, in a map without double keys. *)
Lemma map_get_filter (keep : string * nat -> bool) h m :
  NoDup (fst <$> m) ->
  map_get h (List.filter keep m) =
    match map_get h m with
    | Some r => if keep (h, r) then Some r else None
    | None => None
    end.
Proof.
  induction m as [|[h' r'] m IH]; simpl; intros Hnd; [reflexivity|].
  apply NoDup_cons in Hnd as [Hn Hnd].
  destruct (String.eqb_spec h h') as [->|Hne].
  - destruct (keep (h', r')) eqn:Ek; simpl.
    + now rewrite String.eqb_refl.
    + rewrite (IH Hnd).
      destruct (map_get h' m) as [r|] eqn:E; [|reflexivity].
      exfalso. apply Hn. apply list_elem_of_fmap. exists (h', r).
      split; [reflexivity|]. now apply map_get_Some_elem.
  - destruct (keep (h', r')); simpl.
    + apply String.eqb_neq in Hne. rewrite Hne. now apply IH.
    + now apply IH.
Qed.

(** *** What the steps of a query keep *)

Lemma begin_hash ac d now force q :
  hash (_run_begin ac d now force q).1.1 = hash q /\
  subCount (_run_begin ac d now force q).1.1 = subCount q.
Proof.
  unfold _run_begin.
  destruct (negb force && negb (isStale d now q) && Status_eqb (status q) Success
            && negb (forceRefetch (options q))); simpl; auto.
Qed.

Lemma settle_hash d now id res q :
  hash (_run_settle d now id res q).1.1 = hash q /\
  subCount (_run_settle d now id res q).1.1 = subCount q.
Proof.
  unfold _run_settle. destruct res.
  - destruct (negb (id =? requestId q)); simpl; auto.
  - destruct (is_set (abortController q) && isAbortError e); simpl; auto.
    destruct (negb (id =? requestId q)); simpl; auto.
Qed.

(** A forced run always starts an attempt. *)
Lemma begin_forced ac d now q :
  _run_begin ac d now true q =
    ({| key := key q; hash := hash q; fetcher := fetcher q; options := options q;
        data := data q; error := error q;
        status := if negb (Status_eqb (status q) Success)
                     || negb (keepPreviousData (options q))
                  then Loading else status q;
        isFetching := true; lastUpdated := lastUpdated q;
        requestId := S (requestId q);
        abortController := if ac then Some (S (requestId q)) else None;
        subCount := subCount q |},
     Pending (S (requestId q)),
     match abortController q with Some c => [Abort c] | None => [] end
     ++ [Fetch (S (requestId q)) (fetcher q)]).
Proof. reflexivity. Qed.

(** *** The map and the store fit *)

Lemma client_ok_new d : client_ok (newClient d).
Proof.
  unfold client_ok, newClient. simpl.
  split; [constructor|]. split; [constructor|].
  intros h r H. now apply elem_of_nil in H.
Qed.

Lemma client_ok_refs c h r :
  client_ok c -> (h, r) ∈ queries c -> r < length (store c).
Proof.
  intros (_ & _ & Hq) Hin. destruct (Hq h r Hin) as (q & Hs & _).
  eapply lookup_lt_Some; eauto.
Qed.

(** Replacing a query by one with the same hash. *)
Lemma client_ok_insert c r q q' :
  client_ok c -> store c !! r = Some q -> hash q' = hash q ->
  client_ok {| queries := queries c; store := <[r := q']> (store c);
               defaultOptions := defaultOptions c |}.
Proof.
  intros (Hk & Hr & Hq) Hs Hh. split; [exact Hk|]. split; [exact Hr|].
  simpl. intros h r0 Hin. destruct (Hq h r0 Hin) as (q0 & Hs0 & Hh0).
  destruct (Nat.eq_dec r r0) as [->|Hne].
  - exists q'. rewrite list_lookup_insert_eq by (eapply lookup_lt_Some; eauto).
    split; [reflexivity|]. congruence.
  - exists q0. now rewrite list_lookup_insert_ne.
Qed.

Lemma client_refetch_ok ac now force r c :
  client_ok c -> client_ok (client_refetch ac now force r c).1.
Proof.
  intros Hok. unfold client_refetch, refetch.
  destruct (store c !! r) as [q|] eqn:E; [|exact Hok].
  pose proof (begin_hash ac (defaultOptions c) now force q) as [Hh _].
  destruct (_run_begin ac (defaultOptions c) now force q) as [[q' b] evs].
  simpl in *. now apply (client_ok_insert c r q q').
Qed.

Lemma client_settle_ok now r id res c :
  client_ok c -> client_ok (client_settle now r id res c).1.
Proof.
  intros Hok. unfold client_settle.
  destruct (store c !! r) as [q|] eqn:E; [|exact Hok].
  pose proof (settle_hash (defaultOptions c) now id res q) as [Hh _].
  destruct (_run_settle (defaultOptions c) now id res q) as [[q' b] evs].
  simpl in *. now apply (client_ok_insert c r q q').
Qed.

Lemma client_count_ok f r c :
  (forall q, hash (f q) = hash q) ->
  client_ok c -> client_ok (client_count f r c).
Proof.
  intros Hf (Hk & Hr & Hq). split; [exact Hk|]. split; [exact Hr|].
  simpl. intros h r0 Hin. destruct (Hq h r0 Hin) as (q0 & Hs0 & Hh0).
  destruct (Nat.eq_dec r r0) as [->|Hne].
  - exists (f q0). rewrite list_lookup_alter_eq, Hs0. split; [reflexivity|].
    now rewrite Hf.
  - exists q0. now rewrite list_lookup_alter_ne.
Qed.

(** What [createQuery] makes for a hash that is not in the map. *)
Lemma createQuery_fresh ac now k fn o c :
  map_get (hashKey k) (queries c) = None ->
  exists q evs,
    createQuery ac now k fn o c =
      ({| queries := queries c ++ [(hashKey k, length (store c))];
          store := store c ++ [q];
          defaultOptions := defaultOptions c |}, length (store c), evs) /\
    hash q = hashKey k /\ fetcher q = fn /\ options q = o /\
    subCount q = 0 /\ lastUpdated q = 0%Z /\
    fetch_count evs = (if initialFetch o then 1 else 0).
Proof.
  intros Hnone. unfold createQuery. rewrite Hnone.
  rewrite (map_set_new _ _ _ Hnone).
  destruct (initialFetch o).
  - unfold refetch. rewrite begin_forced. simpl.
    eexists _, _. split; [reflexivity|]. simpl. repeat split.
  - eexists _, _. split; [reflexivity|]. simpl. repeat split.
Qed.

Lemma createQuery_ok ac now k fn o c :
  client_ok c -> client_ok (createQuery ac now k fn o c).1.1.
Proof.
  intros Hok.
  destruct (map_get (hashKey k) (queries c)) as [r|] eqn:E.
  - now rewrite (QueryCacheFacts.createQuery_found ac now k fn o c r E).
  - destruct (createQuery_fresh ac now k fn o c E)
      as (q & evs & -> & Hh & _).
    pose proof (client_ok_refs c) as Hlt.
    destruct Hok as (Hk & Hr & Hq). simpl.
    split; [|split]; simpl.
    + rewrite fmap_app. apply NoDup_app. split; [exact Hk|]. split.
      * intros h Hin Hh'. apply list_elem_of_singleton in Hh'. simpl in Hh'.
        subst h. now apply map_get_None_notin in E.
      * apply NoDup_singleton.
    + rewrite fmap_app. apply NoDup_app. split; [exact Hr|]. split.
      * intros r Hin Hr'. apply list_elem_of_singleton in Hr'. simpl in Hr'.
        subst r. apply list_elem_of_fmap in Hin as ([h r] & Hr0 & Hin).
        simpl in Hr0. subst r.
        specialize (Hlt h _ (conj Hk (conj Hr Hq)) Hin). lia.
      * apply NoDup_singleton.
    + intros h r Hin. apply elem_of_app in Hin as [Hin|Hin].
      * destruct (Hq h r Hin) as (q0 & Hs0 & Hh0). exists q0.
        split; [|exact Hh0]. rewrite lookup_app_l; [exact Hs0|].
        eapply lookup_lt_Some; eauto.
      * apply list_elem_of_singleton in Hin. injection Hin as -> ->.
        exists q. split; [|exact Hh].
        rewrite lookup_app_r by lia. now rewrite Nat.sub_diag.
Qed.

(** The loop of [invalidateQueries], from any point on. *)
Lemma invalidate_loop_ok ac now pk l : forall acc,
  client_ok acc.1 ->
  let res :=
    fold_left
      (fun (acc : QueryClient * list qevent) (entry : string * nat) =>
         match store acc.1 !! entry.2 with
         | Some q =>
             if predicate_of pk q then
               let '(c', evs) := client_refetch ac now true entry.2 acc.1 in
               (c', acc.2 ++ evs)
             else acc
         | None => acc
         end) l acc in
  client_ok res.1 /\ queries res.1 = queries acc.1 /\
  defaultOptions res.1 = defaultOptions acc.1.
Proof.
  induction l as [|[h r] l IH]; intros acc Hok; simpl; [auto|].
  destruct (store acc.1 !! r) as [q|] eqn:E; [|apply IH; exact Hok].
  destruct (predicate_of pk q); [|apply IH; exact Hok].
  pose proof (client_refetch_ok ac now true r acc.1 Hok) as Hok'.
  assert (queries (client_refetch ac now true r acc.1).1 = queries acc.1
          /\ defaultOptions (client_refetch ac now true r acc.1).1
             = defaultOptions acc.1) as [Hq Hd].
  { unfold client_refetch, refetch. rewrite E.
    destruct (_run_begin ac (defaultOptions acc.1) now true q) as [[q' b] evs].
    split; reflexivity. }
  destruct (client_refetch ac now true r acc.1) as [c' evs].
  destruct (IH (c', acc.2 ++ evs) Hok') as (H1 & H2 & H3).
  simpl in *. split; [exact H1|]. split; congruence.
Qed.

Lemma invalidateQueries_ok ac now pk c :
  client_ok c ->
  client_ok (invalidateQueries ac now pk c).1 /\
  queries (invalidateQueries ac now pk c).1 = queries c.
Proof.
  intros Hok.
  destruct (invalidate_loop_ok ac now pk (queries c) (c, []) Hok) as (H1 & H2 & _).
  split; assumption.
Qed.

Lemma removeUnused_ok nowMs c : client_ok c -> client_ok (removeUnused nowMs c).
Proof.
  intros (Hk & Hr & Hq). unfold removeUnused.
  split; [|split]; simpl.
  - eapply sublist_NoDup; [exact Hk|].
    apply fmap_sublist, filter_sublist.
  - eapply sublist_NoDup; [exact Hr|].
    apply fmap_sublist, filter_sublist.
  - intros h r Hin. apply Hq.
    apply list_elem_of_In in Hin. apply List.filter_In in Hin as [Hin _].
    now apply list_elem_of_In.
Qed.

Lemma client_step_ok ac call c : client_ok c -> client_ok (client_step ac call c).
Proof.
  intros Hok. destruct call; simpl.
  - now apply createQuery_ok.
  - now apply client_refetch_ok.
  - now apply client_settle_ok.
  - now apply client_count_ok.
  - now apply client_count_ok.
  - now apply invalidateQueries_ok.
  - now apply removeUnused_ok.
Qed.

(** Every client that the calls can lead to is in order. *)
Lemma client_run_ok ac calls : forall c,
  client_ok c -> client_ok (client_run ac calls c).
Proof.
  unfold client_run.
  induction calls as [|call calls IH]; intros c Hok; simpl; [exact Hok|].
  apply IH. now apply client_step_ok.
Qed.

Lemma invalidate_loop_defaults ac now pk l :
  forall acc : QueryClient * list qevent,
  defaultOptions
    (fold_left
       (fun (acc : QueryClient * list qevent) (entry : string * nat) =>
          match store acc.1 !! entry.2 with
          | Some q =>
              if predicate_of pk q then
                let '(c', evs) := client_refetch ac now true entry.2 acc.1 in
                (c', acc.2 ++ evs)
              else acc
          | None => acc
          end) l acc).1 = defaultOptions acc.1.
Proof.
  induction l as [|[h r] l IH]; intros acc0; simpl; [reflexivity|].
  rewrite IH. destruct (store acc0.1 !! r) as [q|] eqn:E; [|reflexivity].
  destruct (predicate_of pk q); [|reflexivity].
  unfold client_refetch. rewrite E.
  destruct (refetch ac (defaultOptions acc0.1) now true q) as [[q' b] evs].
  reflexivity.
Qed.

Lemma client_step_defaults ac call c :
  defaultOptions (client_step ac call c) = defaultOptions c.
Proof.
  destruct call; simpl; try reflexivity.
  - unfold createQuery. destruct (map_get (hashKey k) (queries c)); [reflexivity|].
    destruct (initialFetch o); [|reflexivity].
    destruct (refetch ac (defaultOptions c) now true (newQuery k fn o))
      as [[q' b] evs]. reflexivity.
  - unfold client_refetch. destruct (store c !! r); [|reflexivity].
    destruct (refetch ac (defaultOptions c) now force q) as [[q' b] evs].
    reflexivity.
  - unfold client_settle. destruct (store c !! r); [|reflexivity].
    destruct (_run_settle (defaultOptions c) now currentId res q) as [[q' b] evs].
    reflexivity.
  - apply (invalidate_loop_defaults ac now pk (queries c) (c, [])).
Qed.

Lemma client_run_defaults ac calls : forall c,
  defaultOptions (client_run ac calls c) = defaultOptions c.
Proof.
  unfold client_run.
  induction calls as [|call calls IH]; intros c; simpl; [reflexivity|].
  now rewrite IH, client_step_defaults.
Qed.

(** *** Invalidation *)

(** The loop passes over the entries that the predicate rejects. *)
Lemma invalidate_loop_skip ac now pk l : forall acc,
  (forall h r q, (h, r) ∈ l -> store acc.1 !! r = Some q ->
                 predicate_of pk q = false) ->
  fold_left
    (fun (acc : QueryClient * list qevent) (entry : string * nat) =>
       match store acc.1 !! entry.2 with
       | Some q =>
           if predicate_of pk q then
             let '(c', evs) := client_refetch ac now true entry.2 acc.1 in
             (c', acc.2 ++ evs)
           else acc
       | None => acc
       end) l acc = acc.
Proof.
  induction l as [|[h r] l IH]; intros acc Hrej; simpl; [reflexivity|].
  destruct (store acc.1 !! r) as [q|] eqn:E.
  - rewrite (Hrej h r q (list_elem_of_here _ _) E).
    apply IH. intros h' r' q' Hin. apply (Hrej h' r' q'). now right.
  - apply IH. intros h' r' q' Hin. apply (Hrej h' r' q'). now right.
Qed.

Lemma fetch_count_begin (c0 : option nat) id fn :
  fetch_count (match c0 with Some c => [Abort c] | None => [] end
               ++ [Fetch id fn]) = 1.
Proof. destruct c0; reflexivity. Qed.

(** [invalidateQueries(key)] is a forced refetch of the one query that
    [getQuery(key)] returns, and nothing at all when there is none: one
    call of one fetcher, whether the data was stale or not; every other
    query is left as it is, and the map too. The query goes on under the
    next sequence number with the data and the error it had. *)
Theorem invalidate_by_key_refetches_one_query
    (ac : bool) (d : DefaultOptions) (calls : list client_call)
    (now : Z) (k : cache_key) :
  let c := client_run ac calls (newClient d) in
  let res := invalidateQueries ac now (ByKey k) c in
  match getQuery k c with
  | None => res = (c, [])
  | Some r =>
      res = client_refetch ac now true r c /\
      fetch_count res.2 = 1 /\
      queries res.1 = queries c /\
      (forall r', r' <> r -> store res.1 !! r' = store c !! r') /\
      exists q q',
        store c !! r = Some q /\ store res.1 !! r = Some q' /\
        requestId q' = S (requestId q) /\ isFetching q' = true /\
        data q' = data q /\ error q' = error q
  end.
Proof.
  intros c res.
  assert (client_ok c) as Hok by (apply client_run_ok, client_ok_new).
  destruct Hok as (Hk & Hr & Hq).
  unfold getQuery. destruct (map_get (hashKey k) (queries c)) as [r|] eqn:E.
  - pose proof (map_get_Some_elem _ _ _ E) as Hin.
    destruct (Hq _ _ Hin) as (q & Hs & Hh).
    assert (res = client_refetch ac now true r c) as Hres.
    { subst res. unfold invalidateQueries.
      apply list_elem_of_split in Hin as (l1 & l2 & Hsplit).
      rewrite Hsplit in Hk, Hr, Hq |- *.
      rewrite fmap_app, fmap_cons in Hk. rewrite fmap_app, fmap_cons in Hr.
      simpl in Hk, Hr.
      apply NoDup_app in Hk as (_ & Hk1 & Hk2).
      apply NoDup_cons in Hk2 as [Hk2 _].
      apply NoDup_app in Hr as (_ & Hr1 & Hr2).
      apply NoDup_cons in Hr2 as [Hr2 _].
      assert (forall h' r' q', (h', r') ∈ l1 ++ (hashKey k, r) :: l2 ->
                h' <> hashKey k -> store c !! r' = Some q' ->
                predicate_of (ByKey k) q' = false) as Hrej.
      { intros h' r' q' Hin' Hne Hs'.
        destruct (Hq h' r' Hin') as (q0 & Hs0 & Hh0).
        assert (q0 = q') as -> by congruence.
        simpl. rewrite Hh0. apply String.eqb_neq. congruence. }
      assert (predicate_of (ByKey k) q = true) as Hacc
        by (simpl; rewrite Hh; apply String.eqb_refl).
      rewrite fold_left_app.
      rewrite (invalidate_loop_skip ac now (ByKey k) l1 (c, [])).
      - cbn [fold_left fst snd]. rewrite Hs, Hacc.
        assert (forall r', r' <> r ->
                  store (client_refetch ac now true r c).1 !! r' = store c !! r')
          as Hother.
        { intros r' Hne. unfold client_refetch. rewrite Hs.
          destruct (refetch ac (defaultOptions c) now true q) as [[q' b] evs].
          simpl. now rewrite list_lookup_insert_ne by auto. }
        destruct (client_refetch ac now true r c) as [c' evs] eqn:Er.
        rewrite app_nil_l. apply invalidate_loop_skip.
        intros h' r' q' Hin' Hs'. simpl in Hs'.
        assert (r' <> r) as Hne.
        { intros ->. apply Hr2. apply list_elem_of_fmap. exists (h', r). auto. }
        pose proof (Hother r' Hne) as Ho. simpl in Ho. rewrite Ho in Hs'.
        apply (Hrej h' r' q'); [rewrite elem_of_app; right; now right| |exact Hs'].
        intros ->. apply Hk2. apply list_elem_of_fmap.
        exists (hashKey k, r'). auto.
      - intros h' r' q' Hin' Hs'. simpl in Hs'.
        apply (Hrej h' r' q'); [rewrite elem_of_app; now left| |exact Hs'].
        intros ->. apply (Hk1 (hashKey k)); [|left].
        apply list_elem_of_fmap. exists (hashKey k, r'). auto. }
    rewrite Hres. unfold client_refetch, refetch. rewrite Hs, begin_forced.
    simpl. split; [reflexivity|]. split; [apply fetch_count_begin|].
    split; [reflexivity|]. split.
    + intros r' Hne. now rewrite list_lookup_insert_ne by auto.
    + eexists q, _. split; [reflexivity|].
      rewrite list_lookup_insert_eq by (eapply lookup_lt_Some; eauto).
      split; [reflexivity|]. simpl. auto.
  - subst res. unfold invalidateQueries. apply invalidate_loop_skip.
    intros h r q Hin Hs. simpl in Hs.
    destruct (Hq h r Hin) as (q0 & Hs0 & Hh0).
    assert (q0 = q) as -> by congruence.
    simpl. rewrite Hh0. apply String.eqb_neq. intros Heq.
    apply map_get_None_notin in E. apply E.
    apply list_elem_of_fmap. exists (h, r). split; [simpl; congruence|exact Hin].
Qed.

(** *** The sweep *)

(** After [removeUnused], [getQuery] finds a query exactly when it found
    it before and the query has a subscriber or was updated within its
    cache time. The store of query objects is untouched: whoever holds a
    query that was removed goes on holding it. *)
Theorem removeUnused_removes_the_unused
    (ac : bool) (d : DefaultOptions) (calls : list client_call)
    (nowMs : Z) (k : cache_key) :
  let c := client_run ac calls (newClient d) in
  getQuery k (removeUnused nowMs c) =
    match getQuery k c with
    | Some r =>
        match store c !! r with
        | Some q =>
            if Nat.eqb (subCount q) 0 && (cacheTime d q <? nowMs - lastUpdated q)%Z
            then None else Some r
        | None => Some r
        end
    | None => None
    end
  /\ store (removeUnused nowMs c) = store c.
Proof.
  intros c. split; [|reflexivity].
  assert (client_ok c) as (Hk & _ & _) by (apply client_run_ok, client_ok_new).
  assert (defaultOptions c = d) as Hd by (apply (client_run_defaults ac calls)).
  unfold getQuery, removeUnused. simpl.
  rewrite (map_get_filter _ _ _ Hk).
  destruct (map_get (hashKey k) (queries c)) as [r|]; [|reflexivity].
  simpl. destruct (store c !! r) as [q|]; [|reflexivity].
  unfold unused. rewrite Hd.
  destruct (Nat.eqb (subCount q) 0 && (cacheTime d q <? nowMs - lastUpdated q)%Z);
    reflexivity.
Qed.

(** A query that nobody has subscribed to is swept as soon as the clock
    is past its cache time, though it was created a moment ago and its
    first fetch is still in flight: it has never been updated. A
    [createQuery] with the same key then makes a second query, with the
    new fetcher and options, beside the first, which stays in the store
    as it was. *)
Theorem swept_query_is_made_anew
    (ac : bool) (d : DefaultOptions) (calls : list client_call)
    (now1 nowMs now2 : Z) (k : cache_key)
    (fn1 : nat) (o1 : QueryOptions) (fn2 : nat) (o2 : QueryOptions) :
  let c := client_run ac calls (newClient d) in
  getQuery k c = None ->
  (match o_cacheTime o1 with Some t => t | None => d_cacheTime d end < nowMs)%Z ->
  let first := createQuery ac now1 k fn1 o1 c in
  let swept := removeUnused nowMs first.1.1 in
  let second := createQuery ac now2 k fn2 o2 swept in
  getQuery k first.1.1 = Some first.1.2 /\
  getQuery k swept = None /\
  second.1.2 <> first.1.2 /\
  getQuery k second.1.1 = Some second.1.2 /\
  (exists q, store second.1.1 !! second.1.2 = Some q /\
             fetcher q = fn2 /\ options q = o2) /\
  store second.1.1 !! first.1.2 = store first.1.1 !! first.1.2.
Proof.
  intros c Hnone Hct first swept second.
  assert (client_ok c) as Hok by (apply client_run_ok, client_ok_new).
  assert (defaultOptions c = d) as Hd by (apply (client_run_defaults ac calls)).
  unfold getQuery in Hnone.
  destruct (createQuery_fresh ac now1 k fn1 o1 c Hnone)
    as (q1 & evs1 & E1 & Hh1 & Hf1 & Ho1 & Hsub1 & Hlu1 & _).
  assert (client_ok first.1.1) as Hok1 by (apply createQuery_ok; exact Hok).
  assert (getQuery k first.1.1 = Some first.1.2) as Hg1
    by apply QueryCacheFacts.createQuery_registers.
  assert (store first.1.1 !! first.1.2 = Some q1) as Hs1.
  { subst first. rewrite E1. simpl. rewrite lookup_app_r by lia.
    now rewrite Nat.sub_diag. }
  assert (getQuery k swept = None) as Hg2.
  { subst swept. unfold getQuery, removeUnused. simpl.
    destruct Hok1 as (Hk1 & _ & _).
    rewrite (map_get_filter _ _ _ Hk1).
    unfold getQuery in Hg1. rewrite Hg1. simpl. rewrite Hs1.
    unfold unused, cacheTime. rewrite Hsub1, Hlu1, Ho1. simpl.
    subst first. rewrite E1. simpl. rewrite Hd.
    destruct (Z.ltb_spec (match o_cacheTime o1 with
                          | Some t => t
                          | None => d_cacheTime d
                          end) (nowMs - 0)); [reflexivity|lia]. }
  split; [exact Hg1|]. split; [exact Hg2|].
  unfold getQuery in Hg2.
  destruct (createQuery_fresh ac now2 k fn2 o2 swept Hg2)
    as (q2 & evs2 & E2 & Hh2 & Hf2 & Ho2 & _).
  assert (store swept = store first.1.1) as Hst by reflexivity.
  assert (first.1.2 < length (store first.1.1)) as Hlt
    by (eapply lookup_lt_Some; eauto).
  subst second. rewrite E2. cbn [fst snd store queries]. rewrite Hst.
  split; [lia|]. split.
  - unfold getQuery. cbn [queries].
    rewrite <- (map_set_new _ (length (store first.1.1)) _ Hg2).
    apply QueryCacheFacts.map_get_set_eq.
  - split.
    + exists q2. rewrite lookup_app_r by lia. now rewrite Nat.sub_diag.
    + now rewrite lookup_app_l.
Qed.

Lemma swept_query_is_made_anew_witness :
  let first := createQuery true 1000 (KStr "todos") 0 plain_options
                 (newClient defaultOptions0) in
  let swept := removeUnused 400000 first.1.1 in
  let second := createQuery true 400010 (KStr "todos") 1 eager_options swept in
  getQuery (KStr "todos") swept = None /\ second.1.2 <> first.1.2.
Proof.
  pose proof (swept_query_is_made_anew true defaultOptions0 [] 1000 400000 400010
                (KStr "todos") 0 plain_options 1 eager_options
                eq_refl eq_refl) as (_ & H1 & H2 & _).
  split; [exact H1|exact H2].
Defined.

(** *** Subscribers and their count *)

Lemma length_filter_out (t : nat) (l : list nat) :
  NoDup l ->
  length (List.filter (fun t' => negb (Nat.eqb t' t)) l)
  = if decide (t ∈ l) then Nat.pred (length l) else length l.
Proof.
  induction l as [|x l IH]; intros Hnd; simpl.
  - destruct (decide (t ∈ [])) as [H|_]; [now apply elem_of_nil in H|reflexivity].
  - apply NoDup_cons in Hnd as [Hx Hnd]. specialize (IH Hnd).
    destruct (Nat.eqb_spec x t) as [->|Hne]; simpl.
    + rewrite IH. destruct (decide (t ∈ l)); [contradiction|].
      destruct (decide (t ∈ t :: l)) as [_|H]; [reflexivity|].
      exfalso. apply H. left.
    + rewrite IH. destruct (decide (t ∈ l)) as [Hin|Hnin].
      * destruct (decide (t ∈ x :: l)) as [_|H]; [|exfalso; apply H; now right].
        destruct l; [now apply elem_of_nil in Hin|reflexivity].
      * destruct (decide (t ∈ x :: l)) as [H|_]; [|reflexivity].
        apply elem_of_cons in H as [->|H]; [congruence|contradiction].
Qed.

Lemma sub_step_tokens call ob :
  NoDup (listeners ob) /\ Forall (fun t => t < issued ob) (listeners ob) ->
  NoDup (listeners (sub_step call ob)) /\
  Forall (fun t => t < issued (sub_step call ob)) (listeners (sub_step call ob)).
Proof.
  intros [Hnd Hlt]. destruct call as [|t]; simpl.
  - split.
    + apply NoDup_app. split; [exact Hnd|]. split; [|apply NoDup_singleton].
      intros x Hx Hx'. apply list_elem_of_singleton in Hx'. subst x.
      rewrite Forall_forall in Hlt. specialize (Hlt _ Hx). lia.
    + apply Forall_app. split.
      * eapply Forall_impl; [exact Hlt|]. simpl. intros; lia.
      * repeat constructor.
  - split.
    + eapply sublist_NoDup; [exact Hnd|]. apply filter_sublist.
    + rewrite Forall_forall in Hlt |- *. intros x Hx. apply Hlt.
      apply list_elem_of_In in Hx. apply List.filter_In in Hx as [Hx _].
      now apply list_elem_of_In.
Qed.

Lemma sub_step_count call ob :
  NoDup (listeners ob) ->
  subCount (query ob) <= length (listeners ob) ->
  subCount (query (sub_step call ob)) <= length (listeners (sub_step call ob)).
Proof.
  intros Hnd Hle. destruct call as [|t]; simpl.
  - rewrite length_app. simpl. lia.
  - rewrite (length_filter_out t _ Hnd).
    destruct (decide (t ∈ listeners ob)); lia.
Qed.

Lemma sub_step_exact call ob :
  NoDup (listeners ob) ->
  match call with DoSub => True | DoUnsub t => t ∈ listeners ob end ->
  subCount (query ob) = length (listeners ob) ->
  subCount (query (sub_step call ob)) = length (listeners (sub_step call ob)).
Proof.
  intros Hnd Hin Heq. destruct call as [|t]; simpl.
  - rewrite length_app. simpl. lia.
  - rewrite (length_filter_out t _ Hnd).
    destruct (decide (t ∈ listeners ob)); [lia|contradiction].
Qed.

Lemma sub_steps_count calls : forall ob,
  NoDup (listeners ob) /\ Forall (fun t => t < issued ob) (listeners ob) ->
  subCount (query ob) <= length (listeners ob) ->
  let ob' := sub_steps calls ob in
  subCount (query ob') <= length (listeners ob') /\
  (once_each calls ob -> subCount (query ob) = length (listeners ob) ->
   subCount (query ob') = length (listeners ob')).
Proof.
  unfold sub_steps.
  induction calls as [|call calls IH]; intros ob Htok Hle; simpl; [auto|].
  pose proof (sub_step_tokens call ob Htok) as Htok'.
  pose proof (sub_step_count call ob (proj1 Htok) Hle) as Hle'.
  destruct (IH _ Htok' Hle') as [H1 H2]. split; [exact H1|].
  intros [Hin Honce] Heq. apply H2; [exact Honce|].
  now apply sub_step_exact; [apply Htok|..].
Qed.

(** [subCount] never counts more than the listeners that are
    subscribed, and it counts them exactly as long as no unsubscribe
    function is called twice. A second call of an unsubscribe function
    takes nothing out of the subscriber sets but counts down all the
    same: with two subscribers of which one unsubscribes twice, the
    count is 0 while a listener is still subscribed. *)
Theorem subCount_counts_at_most_the_listeners
    (k : cache_key) (fn : nat) (o : QueryOptions) (calls : list sub_call) :
  let ob0 := observe (newQuery k fn o) in
  let ob := sub_steps calls ob0 in
  subCount (query ob) <= length (listeners ob) /\
  (once_each calls ob0 -> subCount (query ob) = length (listeners ob)) /\
  (let twice := sub_steps [DoSub; DoSub; DoUnsub 0; DoUnsub 0] ob0 in
   subCount (query twice) = 0 /\ listeners twice = [1]).
Proof.
  intros ob0 ob.
  destruct (sub_steps_count calls ob0) as [H1 H2].
  - split; constructor.
  - simpl. lia.
  - split; [exact H1|]. split; [|split; reflexivity].
    intros Honce. now apply H2.
Qed.

Lemma subCount_counts_at_most_the_listeners_witness :
  let ob := sub_steps [DoSub; DoSub; DoUnsub 0] (observe fresh_query) in
  subCount (query ob) = length (listeners ob).
Proof.
  refine (proj1 (proj2 (subCount_counts_at_most_the_listeners
                          (KStr "todos") 0 plain_options
                          [DoSub; DoSub; DoUnsub 0])) _).
  simpl. repeat split. left.
Defined.

End ClientFacts.

(** ** Mutations *)

Module MutationFacts.
Import QueryCache Mutation.





(** What holds of a mutation and the calls that wait for an answer. *)
Lemma mutation_steps_settled ops : forall m pending,
  NoDup pending ->
  Forall (fun i => 1 <= i <= currentId m) pending ->
  (m_status m <> Errored -> m_error m = VNull) ->
  (currentId m ∈ pending -> m_status m = Loading) ->
  (m_status m = Idle -> currentId m = 0) ->
  m_answers ops m pending ->
  let m' := mutation_steps ops m in
  (m_status m' <> Errored -> m_error m' = VNull) /\
  (m_status m' = Idle -> currentId m' = 0 /\ m' = m).
Proof.
  unfold mutation_steps.
  induction ops as [|op ops IH]; intros m pending Hnd Hle Herr Hcur Hidle Hans;
    simpl; [auto|].
  destruct op as [variables|id variables r]; simpl in Hans.
  - change (mutation_step (Mutate variables) m)
      with (mutate_begin variables m).1.1 in *.
    set (m1 := (mutate_begin variables m).1.1) in *.
    assert (NoDup (S (currentId m) :: pending)) as A1.
    { apply NoDup_cons. split; [|exact Hnd].
      intros Hin. rewrite Forall_forall in Hle. apply Hle in Hin. lia. }
    assert (Forall (fun i => 1 <= i <= currentId m1) (S (currentId m) :: pending))
      as A2.
    { constructor; [simpl; lia|].
      eapply Forall_impl; [exact Hle|]. simpl. intros; lia. }
    assert (m_status m1 <> Errored -> m_error m1 = VNull) as A3
      by (intros _; apply signal_write_strict).
    assert (currentId m1 ∈ S (currentId m) :: pending -> m_status m1 = Loading)
      as A4 by reflexivity.
    assert (m_status m1 = Idle -> currentId m1 = 0) as A5 by discriminate.
    destruct (IH m1 _ A1 A2 A3 A4 A5 Hans) as [H1 H2].
    split; [exact H1|]. intros Hi. destruct (H2 Hi) as [_ Hm].
    rewrite Hm in Hi. discriminate.
  - destruct Hans as [Hin Hans].
    set (pending' := List.filter (fun i => negb (Nat.eqb i id)) pending) in *.
    assert (NoDup pending') as A1.
    { eapply sublist_NoDup; [exact Hnd|]. apply ClientFacts.filter_sublist. }
    assert (forall i, i ∈ pending' <-> i ∈ pending /\ i <> id) as Hp'.
    { intros i. subst pending'. rewrite !list_elem_of_In, List.filter_In.
      now rewrite negb_true_iff, Nat.eqb_neq. }
    set (m1 := mutation_step (MSettle id variables r) m) in *.
    assert (currentId m1 = currentId m) as Hc1.
    { subst m1. simpl. unfold mutate_settle.
      destruct (negb (id =? currentId m)); [reflexivity|]. now destruct r. }
    assert (Forall (fun i => 1 <= i <= currentId m1) pending') as A2.
    { rewrite Hc1. rewrite Forall_forall in Hle |- *. intros i Hi.
      apply Hp' in Hi as [Hi _]. now apply Hle. }
    assert ((m_status m1 <> Errored -> m_error m1 = VNull) /\
            (currentId m1 ∈ pending' -> m_status m1 = Loading) /\
            (m_status m1 = Idle -> currentId m1 = 0 /\ m1 = m))
      as (A3 & A4 & A5).
    { subst m1. simpl. unfold mutate_settle.
      destruct (Nat.eqb_spec id (currentId m)) as [->|Hne]; simpl.
      - specialize (Hcur Hin).
        assert (m_error m = VNull) as He by (apply Herr; congruence).
        destruct r as [res|e]; simpl.
        + split; [auto|]. split; [|discriminate].
          intros Hi. apply Hp' in Hi as [_ Hi]. congruence.
        + split; [congruence|]. split; [|discriminate].
          intros Hi. apply Hp' in Hi as [_ Hi]. congruence.
      - split; [exact Herr|]. split; [|auto].
        intros Hi. apply Hp' in Hi as [Hi _]. now apply Hcur. }
    destruct (IH m1 _ A1 A2 A3 A4 (fun H => proj1 (A5 H)) Hans) as [H1 H2].
    split; [exact H1|]. intros Hi. destruct (H2 Hi) as [H0 Hm].
    fold (mutation_steps ops m1) in Hm, Hi, H0 |- *.
    rewrite Hm in Hi |- *. destruct (A5 Hi) as [H3 H4].
    split; [congruence|exact H4].
Qed.

(** The error of a mutation is [null] unless its status is error: every
    call of [mutate] clears it, and only the failure of the latest call
    sets it. A mutation whose status is idle has never been called and
    is as [createMutation] made it. *)
Theorem mutation_error_only_in_error_status
    (fn_length : nat) (o : MutationOptions) (ops : list mutation_op) :
  m_answers ops (createMutation fn_length o) [] ->
  let m := mutation_steps ops (createMutation fn_length o) in
  (m_status m <> Errored -> m_error m = VNull) /\
  (m_status m = Idle -> currentId m = 0 /\ m = createMutation fn_length o).
Proof.
  intros Hans.
  apply (mutation_steps_settled ops (createMutation fn_length o) []); auto.
  - constructor.
  - intros H. now apply elem_of_nil in H.
Qed.

Lemma mutation_error_only_in_error_status_witness :
  let m := mutation_steps
             [Mutate (VNum 1); Mutate (VNum 2);
              MSettle 2 (VNum 2) (Failed (VError "TypeError" "no network"));
              MSettle 1 (VNum 1) (Fulfilled (VNum 7));
              Mutate (VNum 3)]
             (createMutation 1 (mkMutationOptions VUndefined true true true)) in
  m_status m = Loading /\ m_error m = VNull.
Proof.
  split; [reflexivity|].
  refine (proj1 (mutation_error_only_in_error_status 1
                   (mkMutationOptions VUndefined true true true)
                   [Mutate (VNum 1); Mutate (VNum 2);
                    MSettle 2 (VNum 2) (Failed (VError "TypeError" "no network"));
                    MSettle 1 (VNum 1) (Fulfilled (VNum 7));
                    Mutate (VNum 3)] _) _).
  - simpl. split; [left|]. split; [left|exact I].
  - discriminate.
Defined.

End MutationFacts.

(** ** Invariants of the reactive system *)

Module LifecycleFacts.
Import Reactive ReactiveFacts Derived.

(** A property of the state that every step of the reactive system
    keeps is kept by the bodies of functions, by the flush and by every
    call from outside. [callable] singles out the functions that the
    flush may be asked to call. *)
Section Invariant.

Variable P : state -> Prop.
Variable callable : nat -> Prop.

Hypothesis P_emit : forall e st, quiet e -> P st -> P (emit e st).
Hypothesis P_callback : forall g s cb c st,
  callable g -> fns st !! g = Some (Wrapper s cb) -> signals st !! s = Some c ->
  P st -> P (emit (EvCallback g (_val c)) st).
Hypothesis P_get : forall s st v st',
  get_value s st = Some (v, st') -> P st -> P st'.
Hypothesis P_set : forall s v st st',
  set_value s v st = Some st' -> P st -> P st'.
Hypothesis P_effect : forall body st,
  P st -> P (set_fns (fns st ++ [Runner body true []]) st).
Hypothesis P_enter : forall g body deps st,
  fns st !! g = Some (Runner body true deps) -> P st ->
  P (set_current (Some g)
       (set_stack (g :: _effectStack (cleanupEffect g st)) (cleanupEffect g st))).
Hypothesis P_leave : forall st,
  P st ->
  P (set_current (head (tail (_effectStack st)))
       (set_stack (tail (_effectStack st)) st)).
Hypothesis P_dispose : forall g st, P st -> P (dispose g st).

Lemma run_in_inv g body deps run st :
  (forall st0, P st0 -> P (run st0).1) ->
  fns st !! g = Some (Runner body true deps) ->
  P st -> P (run_in g run st).1.
Proof.
  intros Hrun Hg HP. unfold run_in.
  pose proof (P_enter g body deps st Hg HP) as H2.
  apply Hrun in H2. destruct (run _) as [st3 r]. simpl in *.
  now apply P_leave.
Qed.

Lemma exec_inv p : forall self st, P st -> P (exec self p st).1.
Proof.
  induction p as [|e|s k IH|s v k IH|body IHb k IHk|f k IH];
    intros self st HP; simpl.
  - exact HP.
  - now apply P_emit.
  - destruct (get_value s st) as [[v st']|] eqn:E; [|now apply P_emit].
    apply IH. apply P_emit; [exact I|]. exact (P_get _ _ _ _ E HP).
  - destruct (set_value s v st) as [st'|] eqn:E; [|now apply P_emit].
    apply IH. exact (P_set _ _ _ _ E HP).
  - unfold effect_with.
    assert (P (run_in (length (fns st)) (exec (Some (length (fns st))) body)
                 (set_fns (fns st ++ [Runner body true []]) st)).1) as H.
    { apply (run_in_inv _ body []); [intros st0; apply IHb| |now apply P_effect].
      simpl. rewrite lookup_app_r by lia. now rewrite Nat.sub_diag. }
    destruct (run_in _ _ _) as [st' [|e]]; simpl in H; [|exact H].
    now apply IHk.
  - apply IH. apply P_emit; [exact I|]. now apply P_dispose.
Qed.

Lemma call_inv g st : callable g -> P st -> P (call g st).1.
Proof.
  intros Hg HP. unfold call.
  destruct (fns st !! g) as [[body [|] deps|s cb]|] eqn:E; try exact HP.
  - apply (run_in_inv g body deps); [intros st0; apply exec_inv|exact E|exact HP].
  - destruct (signals st !! s) as [c|] eqn:Ec; [|exact HP].
    apply exec_inv. now apply (P_callback g s cb c).
Qed.

Lemma guarded_call_inv g st :
  callable g -> P st ->
  P (try_catch (fun st => call g (emit (EvInvoke g) st)) console_error st).1.
Proof.
  intros Hg HP. unfold try_catch.
  assert (P (call g (emit (EvInvoke g) st)).1) as H
    by (apply call_inv; [exact Hg|now apply P_emit]).
  destruct (call g (emit (EvInvoke g) st)) as [st' [|e]]; [exact H|].
  unfold console_error. simpl. now apply P_emit.
Qed.

Lemma flush_loop_inv fs : forall st,
  Forall callable fs -> P st ->
  P (for_each fs
       (fun f => try_catch (fun st => call f (emit (EvInvoke f) st)) console_error)
       st).1.
Proof.
  induction fs as [|f fs IH]; intros st Hfs HP; simpl; [exact HP|].
  apply Forall_cons in Hfs as [Hf Hfs].
  pose proof (guarded_call_inv f st Hf HP) as H.
  destruct (guarded_call_log f st) as (Hn & _).
  destruct (try_catch _ console_error st) as [st1 r1]. simpl in Hn, H. subst r1.
  now apply IH.
Qed.

Hypothesis P_flush : forall n st,
  microtasks st = S n -> P st ->
  P (set_queue [] (set_scheduled false (set_microtasks n st))) /\
  Forall callable (_effectQueue st).
Hypothesis P_signal : forall initial eq st, P st -> P (signal initial eq st).1.
Hypothesis P_subscribe : forall s cb st, P st -> P (subscribe s cb st).1.
Hypothesis P_unsubscribe : forall w st, P st -> P (unsubscribe w st).

Lemma run_microtask_inv st : P st -> P (run_microtask st).1.
Proof.
  intros HP. unfold run_microtask.
  destruct (microtasks st) as [|n] eqn:E; [exact HP|].
  destruct (P_flush n st E HP) as [H1 H2].
  unfold flush. now apply flush_loop_inv.
Qed.

Lemma act_inv a st : P st -> P (act a st).
Proof.
  intros HP. destruct a; simpl.
  - now apply P_signal.
  - rewrite effect_as_exec. now apply exec_inv.
  - now apply P_subscribe.
  - now apply P_unsubscribe.
  - now apply P_dispose.
  - unfold write_all. simpl.
    destruct (set_value s v st) as [st'|] eqn:E; [|exact HP].
    exact (P_set _ _ _ _ E HP).
  - now apply run_microtask_inv.
Qed.

Lemma run_actions_inv acts : forall st, P st -> P (run_actions acts st).
Proof.
  unfold run_actions.
  induction acts as [|a acts IH]; intros st HP; simpl; [exact HP|].
  apply IH. now apply act_inv.
Qed.

End Invariant.

(** *** What the steps leave alone *)

Lemma cleanupEffect_scheduler f st :
  _effectQueue (cleanupEffect f st) = _effectQueue st /\
  _effectScheduled (cleanupEffect f st) = _effectScheduled st /\
  microtasks (cleanupEffect f st) = microtasks st.
Proof.
  unfold cleanupEffect.
  destruct (fns st !! f) as [[body active deps|]|]; simpl; auto.
Qed.

Lemma dispose_scheduler f st :
  _effectQueue (dispose f st) = _effectQueue st /\
  _effectScheduled (dispose f st) = _effectScheduled st /\
  microtasks (dispose f st) = microtasks st.
Proof.
  unfold dispose.
  destruct (cleanupEffect_scheduler f (set_fns (alter deactivate f (fns st)) st))
    as (H1 & H2 & H3).
  rewrite H1, H2, H3. auto.
Qed.

Lemma get_value_scheduler s st v st' :
  get_value s st = Some (v, st') ->
  _effectQueue st' = _effectQueue st /\
  _effectScheduled st' = _effectScheduled st /\
  microtasks st' = microtasks st.
Proof.
  unfold get_value. destruct (signals st !! s); [|discriminate].
  intros [= _ <-]. destruct (_currentEffect st); simpl; auto.
Qed.

(** *** The scheduler *)

Lemma scheduler_ok_ext st st' :
  _effectQueue st' = _effectQueue st ->
  _effectScheduled st' = _effectScheduled st ->
  microtasks st' = microtasks st ->
  scheduler_ok st -> scheduler_ok st'.
Proof. intros H1 H2 H3. unfold scheduler_ok. now rewrite H1, H2, H3. Qed.

Lemma run_actions_scheduler_ok acts st :
  scheduler_ok st -> scheduler_ok (run_actions acts st).
Proof.
  apply (run_actions_inv scheduler_ok (fun _ => True)).
  - intros e st0 _. now apply scheduler_ok_ext.
  - intros g s cb c st0 _ _ _. now apply scheduler_ok_ext.
  - intros s st0 v st' E.
    destruct (get_value_scheduler _ _ _ _ E) as (H1 & H2 & H3).
    now apply scheduler_ok_ext.
  - intros s v st0 st' E Hok.
    now destruct (set_value_schedules _ _ _ _ E Hok).
  - intros body st0. now apply scheduler_ok_ext.
  - intros g body deps st0 _.
    destruct (cleanupEffect_scheduler g st0) as (H1 & H2 & H3).
    now apply scheduler_ok_ext.
  - intros st0. now apply scheduler_ok_ext.
  - intros g st0. destruct (dispose_scheduler g st0) as (H1 & H2 & H3).
    now apply scheduler_ok_ext.
  - intros n st0 Hm [Hnd Hs]. split; [|apply Forall_forall; auto].
    split; [constructor|]. left. simpl.
    destruct Hs as [(_ & H0 & _)|(_ & H1)]; [congruence|].
    rewrite Hm in H1. injection H1 as ->. auto.
  - intros initial eq st0. now apply scheduler_ok_ext.
  - intros s cb st0. now apply scheduler_ok_ext.
  - intros w st0. apply scheduler_ok_ext; unfold unsubscribe;
      destruct (fns st0 !! w) as [[| ]|]; reflexivity.
Qed.

(** Whatever is done with the reactive system, the queue never holds a
    function twice, at most one flush is waiting in the microtask queue,
    and one is waiting exactly when the flag says so; functions are in
    the queue only while a flush is waiting, so none that was scheduled
    is left behind, be it scheduled during a flush. *)
Theorem scheduler_keeps_one_flush_pending (acts : list action) :
  let st := run_actions acts initial_state in
  NoDup (_effectQueue st) /\
  microtasks st <= 1 /\
  (_effectScheduled st = true <-> microtasks st = 1) /\
  (_effectQueue st <> [] -> microtasks st = 1).
Proof.
  intros st.
  assert (scheduler_ok st) as [Hnd Hs].
  { apply run_actions_scheduler_ok. split; [constructor|]. left. auto. }
  split; [exact Hnd|].
  destruct Hs as [(H1 & H2 & H3)|(H1 & H2)]; rewrite ?H1, ?H2, ?H3.
  - split; [lia|]. split; [split; [discriminate|lia]|]. congruence.
  - split; [lia|]. split; [tauto|]. auto.
Qed.

(** *** Outside any effect *)

Lemma call_outside g st : outside st -> outside (call g st).1.
Proof.
  intros [Hc Hs]. unfold call.
  destruct (fns st !! g) as [[body [|] deps|s cb]|] eqn:E; try (split; assumption).
  - destruct (run_in_tracked g (exec (Some g) body) st (exec_tracked body (Some g)))
      as (evs & _ & _ & Hc' & Hs').
    split; [now rewrite Hc', Hs|now rewrite Hs'].
  - destruct (signals st !! s) as [c|]; [|split; assumption].
    destruct (exec_tracked (cb (_val c)) None (emit (EvCallback g (_val c)) st))
      as (evs & _ & _ & Hc' & Hs'); simpl; [assumption|now rewrite Hs|].
    split; [exact Hc'|now rewrite Hs'].
Qed.

Lemma flush_loop_outside fs : forall st,
  outside st ->
  outside (for_each fs
    (fun f => try_catch (fun st => call f (emit (EvInvoke f) st)) console_error)
    st).1.
Proof.
  induction fs as [|f fs IH]; intros st Ho; simpl; [exact Ho|].
  assert (outside
            (try_catch (fun st => call f (emit (EvInvoke f) st)) console_error st).1)
    as H.
  { unfold try_catch.
    pose proof (call_outside f (emit (EvInvoke f) st) Ho) as H.
    destruct (call f (emit (EvInvoke f) st)) as [st' [|e]]; exact H. }
  destruct (guarded_call_log f st) as (Hn & _).
  destruct (try_catch _ console_error st) as [st1 r1]. simpl in Hn, H. subst r1.
  now apply IH.
Qed.

Lemma act_outside a st : outside st -> outside (act a st).
Proof.
  intros [Hc Hs]. destruct a; simpl.
  - split; assumption.
  - rewrite effect_as_exec.
    destruct (exec_tracked (NewEffect body Done) None st)
      as (evs & _ & _ & Hc' & Hs'); [assumption|now rewrite Hs|].
    split; [exact Hc'|now rewrite Hs'].
  - split; assumption.
  - unfold unsubscribe. destruct (fns st !! w) as [[|]|]; split; assumption.
  - destruct (dispose_frame f st) as (Hc' & Hs' & _).
    split; congruence.
  - unfold write_all. simpl.
    destruct (set_value s v st) as [st'|] eqn:E; [|split; assumption].
    destruct (set_value_frame _ _ _ _ E) as (_ & Hc' & Hs' & _).
    split; congruence.
  - unfold run_microtask. destruct (microtasks st); [split; assumption|].
    unfold flush. apply flush_loop_outside. split; assumption.
Qed.

(** Between two calls from outside, no effect is running. *)
Lemma run_actions_outside acts : forall st,
  outside st -> outside (run_actions acts st).
Proof.
  unfold run_actions.
  induction acts as [|a acts IH]; intros st Ho; simpl; [exact Ho|].
  apply IH. now apply act_outside.
Qed.

Lemma initial_outside : outside initial_state.
Proof. split; reflexivity. Qed.

(** *** Disposal *)

Lemma alter_fixed {A} (g : A -> A) (i : nat) (l : list A) :
  (forall x, l !! i = Some x -> g x = x) -> alter g i l = l.
Proof.
  intros H. apply list_eq. intros j.
  destruct (decide (i = j)) as [->|Hne].
  - rewrite list_lookup_alter_eq. destruct (l !! j) as [x|] eqn:E; simpl; [|reflexivity].
    now rewrite H.
  - now rewrite list_lookup_alter_ne.
Qed.

Lemma set_fns_same st : set_fns (fns st) st = st.
Proof. now destruct st. Qed.

(** The disposer of an effect that is switched off and has no
    dependencies, and the disposer of anything that is not an effect,
    change nothing. *)
Lemma dispose_nothing f st :
  (forall body active deps,
     fns st !! f = Some (Runner body active deps) -> active = false /\ deps = []) ->
  dispose f st = st.
Proof.
  intros H. unfold dispose.
  rewrite alter_fixed.
  - rewrite set_fns_same.
    destruct (fns st !! f) as [[body active deps|s cb]|] eqn:E.
    + destruct (H body active deps eq_refl) as [-> ->].
      now apply (cleanupEffect_fresh f st body false).
    + apply cleanupEffect_other. congruence.
    + apply cleanupEffect_other. congruence.
  - intros [body active deps|s cb] E; [|reflexivity].
    destruct (H body active deps E) as [-> ->]. reflexivity.
Qed.

Lemma dispose_runner f st body active deps :
  fns st !! f = Some (Runner body active deps) ->
  fns (dispose f st) !! f = Some (Runner body false []).
Proof.
  intros E. destruct (dispose_tracks f st) as [_ H].
  specialize (H f ltac:(eapply lookup_lt_Some; eauto)).
  simpl in H. rewrite H, E. unfold replay. simpl. now rewrite Nat.eqb_refl.
Qed.

Lemma dispose_lookup_kind f g st :
  (forall s cb, fns st !! g = Some (Wrapper s cb) ->
                fns (dispose f st) !! g = Some (Wrapper s cb)) /\
  (fns st !! g = None -> fns (dispose f st) !! g = None).
Proof.
  destruct (dispose_frame f st) as (_ & _ & Hlen).
  split.
  - intros s cb E. destruct (dispose_tracks f st) as [_ H].
    specialize (H g ltac:(eapply lookup_lt_Some; eauto)).
    simpl in H. rewrite H, E. unfold replay. simpl.
    now destruct (Nat.eqb f g).
  - intros E. apply lookup_ge_None in E. apply lookup_ge_None. lia.
Qed.

(** Calling a disposer a second time changes nothing: [dispose] after
    [dispose] is [dispose]. *)
Theorem dispose_twice_is_dispose_once (f : nat) (st : state) :
  dispose f (dispose f st) = dispose f st.
Proof.
  apply dispose_nothing. intros body active deps E.
  destruct (fns st !! f) as [[body0 active0 deps0|s cb]|] eqn:E0.
  - rewrite (dispose_runner f st body0 active0 deps0 E0) in E.
    injection E as _ <- <-. auto.
  - destruct (dispose_lookup_kind f f st) as [H _].
    rewrite (H s cb E0) in E. discriminate.
  - destruct (dispose_lookup_kind f f st) as [_ H].
    rewrite (H E0) in E. discriminate.
Qed.

(** The record of a disposed effect stays as the disposer left it. *)
Lemma run_actions_disposed f body acts st :
  fns st !! f = Some (Runner body false []) ->
  _currentEffect st <> Some f -> f ∉ _effectStack st ->
  fns (run_actions acts st) !! f = Some (Runner body false []).
Proof.
  intros Hf Hc Hs.
  apply (run_actions_inv
           (fun st => fns st !! f = Some (Runner body false []) /\
                      _currentEffect st <> Some f /\ f ∉ _effectStack st)
           (fun _ => True)); [..|auto].
  - intros e st0 _ H. exact H.
  - intros g s cb c st0 _ _ _ H. exact H.
  - intros s st0 v st' E (H1 & H2 & H3).
    destruct (get_value_frame _ _ _ _ E) as (Hc' & Hs' & _).
    rewrite Hc', Hs'. split; [|auto].
    unfold get_value in E. destruct (signals st0 !! s); [|discriminate].
    injection E as _ <-. destruct (_currentEffect st0) as [g|]; [|exact H1].
    simpl. rewrite list_lookup_alter_ne by congruence. exact H1.
  - intros s v st0 st' E (H1 & H2 & H3).
    destruct (set_value_frame _ _ _ _ E) as (Hf' & Hc' & Hs' & _).
    now rewrite Hf', Hc', Hs'.
  - intros body0 st0 (H1 & H2 & H3). simpl. split; [|auto].
    rewrite lookup_app_l; [exact H1|]. eapply lookup_lt_Some; eauto.
  - intros g body0 deps st0 Hg (H1 & H2 & H3).
    assert (g <> f) as Hne by (intros ->; congruence).
    destruct (cleanupEffect_frame g st0) as (_ & Hs' & _).
    simpl. rewrite Hs'. split; [|split].
    + rewrite (cleanupEffect_fns g st0 body0 true deps Hg).
      now rewrite list_lookup_insert_ne.
    + congruence.
    + rewrite not_elem_of_cons. auto.
  - intros st0 (H1 & H2 & H3). simpl. split; [exact H1|].
    destruct (_effectStack st0) as [|x l]; simpl.
    + split; [discriminate|apply not_elem_of_nil].
    + apply not_elem_of_cons in H3 as [_ H3]. split; [|exact H3].
      destruct l as [|y l]; simpl; [discriminate|].
      apply not_elem_of_cons in H3 as [H3 _]. congruence.
  - intros g st0 (H1 & H2 & H3).
    destruct (dispose_frame g st0) as (Hc' & Hs' & _).
    rewrite Hc', Hs'. split; [|auto].
    destruct (dispose_tracks g st0) as [_ H].
    specialize (H f ltac:(eapply lookup_lt_Some; eauto)).
    simpl in H. rewrite H, H1. unfold replay. simpl.
    now destruct (Nat.eqb g f).
  - intros n st0 _ H. split; [exact H|]. apply Forall_forall. auto.
  - intros initial eq st0 H. exact H.
  - intros s cb st0 (H1 & H2 & H3). simpl. split; [|auto].
    rewrite lookup_app_l; [exact H1|]. eapply lookup_lt_Some; eauto.
  - intros w st0 H. unfold unsubscribe.
    destruct (fns st0 !! w) as [[|]|]; exact H.
Qed.

(** Once the disposer of an effect has been called by code outside any
    effect, the effect is switched off for good: whatever is done next
    (writes, flushes, new effects, the disposer again), also when the
    effect was waiting in the queue at the time, it stays inactive and
    without dependencies, it is a subscriber of no signal, and a call
    of its runner returns at once and leaves the state as it is. *)
Theorem disposed_effect_stays_inert
    (acts0 : list action) (f : nat) (body : prog) (active : bool)
    (deps : list nat) (acts : list action) :
  let st := run_actions acts0 initial_state in
  fns st !! f = Some (Runner body active deps) ->
  let st' := run_actions acts (dispose f st) in
  fns st' !! f = Some (Runner body false []) /\
  (forall s, f ∉ subs_at st' s) /\
  call f st' = (st', Normal).
Proof.
  intros st Hf st'.
  assert (outside st) as [Hc Hs]
    by (apply run_actions_outside, initial_outside).
  assert (well_formed st') as (Hreg & _).
  { apply run_actions_well_formed, dispose_well_formed.
    apply run_actions_well_formed, well_formed_initial. }
  destruct (dispose_frame f st) as (Hc' & Hs' & _).
  assert (fns st' !! f = Some (Runner body false [])) as Hf'.
  { apply run_actions_disposed.
    - now apply (dispose_runner f st body active deps).
    - rewrite Hc', Hc. discriminate.
    - rewrite Hs', Hs. apply not_elem_of_nil. }
  split; [exact Hf'|]. split.
  - intros s Hin. apply (Hreg f body false [] Hf' s) in Hin.
    now apply elem_of_nil in Hin.
  - unfold call. now rewrite Hf'.
Qed.

Lemma disposed_effect_stays_inert_witness :
  let st' := run_actions [DoWrite 0 (VNum 1); DoMicrotask; DoDispose 0]
               (dispose 0 (run_actions [DoSignal (VNum 10) None;
                                        DoSignal (VNum 0) None;
                                        DoEffect branching] initial_state)) in
  fns st' !! 0 = Some (Runner branching false []) /\
  (forall s, 0 ∉ subs_at st' s) /\
  call 0 st' = (st', Normal).
Proof.
  apply (disposed_effect_stays_inert
           [DoSignal (VNum 10) None; DoSignal (VNum 0) None; DoEffect branching]
           0 branching true [0]
           [DoWrite 0 (VNum 1); DoMicrotask; DoDispose 0]).
  vm_compute. reflexivity.
Defined.

(** Whatever the calls from outside and the flushes did, functions
    of effects that threw included, afterwards no effect is current and
    the stack of effects is empty; so a read of a signal by code outside
    any effect returns the value and registers nothing. *)
Theorem no_effect_is_current_between_calls (acts : list action) :
  let st := run_actions acts initial_state in
  _currentEffect st = None /\ _effectStack st = [] /\
  forall s v st', get_value s st = Some (v, st') ->
    st' = st /\ val_at st s = Some v.
Proof.
  intros st.
  assert (outside st) as [Hcur Hstack]
    by (apply run_actions_outside, initial_outside).
  split; [exact Hcur|]. split; [exact Hstack|].
  intros s v st' H. unfold get_value in H. unfold val_at.
  destruct (signals st !! s) as [c|]; [|discriminate].
  rewrite Hcur in H. injection H as <- <-. auto.
Qed.

End LifecycleFacts.

(** ** Subscribers *)

Module SubscriberFacts.
Import Reactive ReactiveFacts Derived LifecycleFacts.

(** *** What the steps do to the subscriber sets and the queue *)

Lemma get_value_subs s st v st' :
  get_value s st = Some (v, st') ->
  forall s0 f, f ∈ subs_at st' s0 ->
    f ∈ subs_at st s0 \/ (s0 = s /\ _currentEffect st = Some f).
Proof.
  unfold get_value. destruct (signals st !! s) as [c|] eqn:Ec; [|discriminate].
  intros [= _ <-] s0 f Hin. destruct (_currentEffect st) as [g|]; [|now left].
  match type of Hin with _ ∈ subs_at ?x _ =>
    apply (subs_at_add_sub g s st x eq_refl s0 f) in Hin as [H|(-> & -> & _)]
  end; auto.
Qed.

Lemma get_value_fns s st v st' :
  get_value s st = Some (v, st') ->
  forall g, (forall s0 cb, fns st' !! g = Some (Wrapper s0 cb)
                           <-> fns st !! g = Some (Wrapper s0 cb)).
Proof.
  unfold get_value. destruct (signals st !! s) as [c|]; [|discriminate].
  intros [= _ <-] g s0 cb. destruct (_currentEffect st) as [f|]; [|reflexivity].
  simpl. destruct (decide (f = g)) as [->|Hne].
  - rewrite list_lookup_alter_eq.
    destruct (fns st !! g) as [[b a d|s1 cb1]|]; simpl; split; congruence.
  - now rewrite list_lookup_alter_ne.
Qed.

Lemma get_value_signals s st v st' :
  get_value s st = Some (v, st') -> length (signals st') = length (signals st).
Proof.
  unfold get_value. destruct (signals st !! s); [|discriminate].
  intros [= _ <-]. destruct (_currentEffect st); simpl; [|reflexivity].
  now rewrite length_alter.
Qed.

Lemma schedule_all_signals fs : forall st,
  signals (fold_left (fun st f => scheduleEffect f st) fs st) = signals st.
Proof. intros st. now destruct (schedule_all_frame fs st). Qed.

Lemma set_value_signals s v st st' :
  set_value s v st = Some st' -> length (signals st') = length (signals st).
Proof.
  unfold set_value. destruct (signals st !! s) as [c|]; [|discriminate].
  destruct (equals c (_val c) v); intros [= <-]; [reflexivity|].
  rewrite schedule_all_signals. simpl. now rewrite length_alter.
Qed.

Lemma set_value_queue s v st st' :
  set_value s v st = Some st' ->
  forall g, g ∈ _effectQueue st' -> g ∈ _effectQueue st \/ g ∈ subs_at st s.
Proof.
  unfold set_value, subs_at. destruct (signals st !! s) as [c|]; [|discriminate].
  destruct (equals c (_val c) v); intros [= <-] g Hg; [now left|].
  apply schedule_all_queue in Hg as [Hg|Hg]; auto.
Qed.

Lemma cleanup_fold_length (f : nat) (deps : list nat) :
  forall sigs : list signal_cell,
  length (fold_left (fun sigs s => alter (delete_sub f) s sigs) deps sigs)
  = length sigs.
Proof.
  induction deps as [|d deps IH]; intros sigs; simpl; [reflexivity|].
  now rewrite IH, length_alter.
Qed.

Lemma cleanupEffect_signals f st :
  length (signals (cleanupEffect f st)) = length (signals st).
Proof.
  unfold cleanupEffect.
  destruct (fns st !! f) as [[body active deps|]|]; simpl; try reflexivity.
  apply cleanup_fold_length.
Qed.

Lemma cleanupEffect_subs_in f st s g :
  g ∈ subs_at (cleanupEffect f st) s -> g ∈ subs_at st s.
Proof.
  destruct (fns st !! f) as [[body active deps|s0 cb]|] eqn:E.
  - rewrite (cleanupEffect_subs f st body active deps E). tauto.
  - rewrite cleanupEffect_other; [auto|congruence].
  - rewrite cleanupEffect_other; [auto|congruence].
Qed.

Lemma dispose_signals f st :
  length (signals (dispose f st)) = length (signals st).
Proof. unfold dispose. now rewrite cleanupEffect_signals. Qed.

Lemma dispose_subs_in f st s g :
  g ∈ subs_at (dispose f st) s -> g ∈ subs_at st s.
Proof. unfold dispose. intros H. now apply cleanupEffect_subs_in in H. Qed.

(** The disposer keeps a function what it is. *)
Lemma dispose_wrapper f st g s cb :
  fns (dispose f st) !! g = Some (Wrapper s cb)
  <-> fns st !! g = Some (Wrapper s cb).
Proof.
  destruct (dispose_frame f st) as (_ & _ & Hlen).
  destruct (fns st !! g) as [x|] eqn:E.
  - destruct (dispose_tracks f st) as [_ H].
    specialize (H g ltac:(eapply lookup_lt_Some; eauto)).
    simpl in H. rewrite H, E. unfold replay. simpl.
    destruct x as [b a d|s1 cb1]; destruct (Nat.eqb f g); simpl; split; congruence.
  - apply lookup_ge_None in E.
    rewrite (lookup_ge_None_2 (fns (dispose f st)) g) by lia.
    split; discriminate.
Qed.

Lemma signal_subs initial eq st s :
  subs_at (signal initial eq st).1 s = subs_at st s.
Proof.
  unfold signal, subs_at. simpl.
  destruct (decide (s < length (signals st))) as [Hlt|Hge].
  - now rewrite lookup_app_l.
  - rewrite lookup_app_r by lia. rewrite (lookup_ge_None_2 (signals st)) by lia.
    destruct (s - length (signals st)) as [|[|n]]; reflexivity.
Qed.

Lemma subscribe_subs s cb st s0 f :
  f ∈ subs_at (subscribe s cb st).1 s0 ->
  f ∈ subs_at st s0 \/ (s0 = s /\ f = length (fns st)).
Proof.
  intros H. unfold subscribe in H. cbn [fst] in H.
  match type of H with _ ∈ subs_at ?x _ =>
    apply (subs_at_add_sub (length (fns st)) s
             (set_fns (fns st ++ [Wrapper s cb]) st) x eq_refl s0 f)
      in H as [H|(-> & -> & _)]
  end; auto.
Qed.

Lemma unsubscribe_subs w st s0 f :
  f ∈ subs_at (unsubscribe w st) s0 -> f ∈ subs_at st s0.
Proof.
  unfold unsubscribe.
  destruct (fns st !! w) as [[body active deps|s cb]|]; try (intros H; exact H).
  unfold subs_at. simpl.
  destruct (decide (s = s0)) as [->|Hne].
  - rewrite list_lookup_alter_eq. destruct (signals st !! s0); simpl; [|auto].
    rewrite elem_of_set_delete. tauto.
  - now rewrite list_lookup_alter_ne.
Qed.

(** After [unsubscribe] the wrapper is out of the subscriber set of its
    signal. *)
Lemma unsubscribe_removes w s cb st :
  fns st !! w = Some (Wrapper s cb) -> w ∉ subs_at (unsubscribe w st) s.
Proof.
  intros E. unfold unsubscribe. rewrite E. unfold subs_at. simpl.
  rewrite list_lookup_alter_eq. destruct (signals st !! s); simpl.
  - rewrite elem_of_set_delete. tauto.
  - apply not_elem_of_nil.
Qed.

Lemma calls_of_quiet w e : quiet e -> calls_of w [e] = [].
Proof. destruct e; simpl; try reflexivity. contradiction. Qed.

Lemma calls_of_emit w e st :
  calls_of w (log (emit e st)) = calls_of w (log st) ++ calls_of w [e].
Proof. simpl. apply calls_of_app. Qed.

(** *** Wrappers *)

(** In every state that the calls from outside lead to, a wrapper is a
    subscriber of its own signal only and never the running effect. *)
Lemma run_actions_wrappers_own acts st :
  well_formed st /\ wrappers_own st ->
  well_formed (run_actions acts st) /\ wrappers_own (run_actions acts st).
Proof.
  apply (run_actions_inv (fun st => well_formed st /\ wrappers_own st)
           (fun _ => True)).
  - intros e st0 _ H. exact H.
  - intros g s cb c st0 _ _ _ H. exact H.
  - intros s st0 v st' E [Hwf Hw]. split; [exact (get_value_well_formed _ _ _ _ E Hwf)|].
    destruct (get_value_frame _ _ _ _ E) as (Hc' & Hs' & _).
    intros w s0 cb Hf. apply (get_value_fns _ _ _ _ E) in Hf.
    destruct (Hw w s0 cb Hf) as (H1 & H2 & H3).
    rewrite Hc', Hs'. split; [|auto].
    intros s' Hin. apply (get_value_subs _ _ _ _ E) in Hin as [Hin|[_ Hin]]; [auto|].
    congruence.
  - intros s v st0 st' E [Hwf Hw]. split; [exact (set_value_well_formed _ _ _ _ E Hwf)|].
    destruct (set_value_frame _ _ _ _ E) as (Hf' & Hc' & Hs' & Hsubs).
    intros w s0 cb Hf. rewrite Hf' in Hf.
    destruct (Hw w s0 cb Hf) as (H1 & H2 & H3).
    rewrite Hc', Hs'. split; [|auto]. intros s'. rewrite Hsubs. apply H1.
  - intros body st0 [Hwf Hw]. split.
    + apply alloc_well_formed; [|assumption]. now intros b a d [= _ _ <-].
    + intros w s0 cb Hf. simpl in Hf.
      destruct (decide (w < length (fns st0))) as [Hlt|Hge].
      * rewrite lookup_app_l in Hf by assumption. apply (Hw w s0 cb Hf).
      * rewrite lookup_app_r in Hf by lia.
        destruct (w - length (fns st0)) as [|n]; simpl in Hf; discriminate.
  - intros g body deps st0 Hg [Hwf Hw].
    assert (g < length (fns st0)) as Hlt by (eapply lookup_lt_Some; eauto).
    destruct (cleanupEffect_frame g st0) as (Hc' & Hs' & Hlen).
    split.
    + apply push_well_formed; [lia|]. now apply cleanupEffect_well_formed.
    + intros w s0 cb Hf. simpl in Hf.
      rewrite (cleanupEffect_fns g st0 body true deps Hg) in Hf.
      assert (w <> g) as Hne.
      { intros ->. rewrite list_lookup_insert_eq in Hf by assumption. discriminate. }
      rewrite list_lookup_insert_ne in Hf by congruence.
      destruct (Hw w s0 cb Hf) as (H1 & H2 & H3).
      split; [|split].
      * intros s' Hin. apply H1.
        change (w ∈ subs_at (cleanupEffect g st0) s') in Hin.
        now apply cleanupEffect_subs_in in Hin.
      * simpl. congruence.
      * simpl. rewrite Hs', not_elem_of_cons. auto.
  - intros st0 [Hwf Hw]. split; [now apply pop_well_formed|].
    intros w s0 cb Hf. destruct (Hw w s0 cb Hf) as (H1 & H2 & H3).
    split; [exact H1|]. simpl.
    destruct (_effectStack st0) as [|x l]; simpl.
    + split; [discriminate|apply not_elem_of_nil].
    + apply not_elem_of_cons in H3 as [_ H3]. split; [|exact H3].
      destruct l as [|y l]; simpl; [discriminate|].
      apply not_elem_of_cons in H3 as [H3 _]. congruence.
  - intros g st0 [Hwf Hw]. split; [now apply dispose_well_formed|].
    destruct (dispose_frame g st0) as (Hc' & Hs' & _).
    intros w s0 cb Hf. apply dispose_wrapper in Hf.
    destruct (Hw w s0 cb Hf) as (H1 & H2 & H3).
    rewrite Hc', Hs'. split; [|auto].
    intros s' Hin. apply H1. now apply dispose_subs_in in Hin.
  - intros n st0 _ [Hwf Hw]. split; [|apply Forall_forall; auto].
    split; [|exact Hw]. revert Hwf. now apply well_formed_ext.
  - intros initial eq st0 [Hwf Hw]. split; [now apply signal_well_formed|].
    intros w s0 cb Hf. destruct (Hw w s0 cb Hf) as (H1 & H2 & H3).
    split; [|auto]. intros s'. rewrite signal_subs. apply H1.
  - intros s cb st0 [Hwf Hw]. split; [now apply subscribe_well_formed|].
    destruct Hwf as (_ & Hval & Hcur & Hstack).
    intros w s0 cb0 Hf. simpl in Hf.
    destruct (decide (w < length (fns st0))) as [Hlt|Hge].
    + rewrite lookup_app_l in Hf by assumption.
      destruct (Hw w s0 cb0 Hf) as (H1 & H2 & H3).
      split; [|auto]. intros s' Hin.
      apply subscribe_subs in Hin as [Hin|[_ Hin]]; [auto|lia].
    + rewrite lookup_app_r in Hf by lia.
      destruct (w - length (fns st0)) as [|n] eqn:En; simpl in Hf; [|discriminate].
      injection Hf as <- <-. assert (w = length (fns st0)) as -> by lia.
      split; [|split].
      * intros s' Hin. apply subscribe_subs in Hin as [Hin|[Hin _]]; [|exact Hin].
        apply Hval in Hin. lia.
      * simpl. intros Hc. apply Hcur in Hc. lia.
      * simpl. intros Hin. rewrite Forall_forall in Hstack.
        apply Hstack in Hin. lia.
  - intros w st0 [Hwf Hw]. split; [now apply unsubscribe_well_formed|].
    intros w0 s0 cb0 Hf.
    assert (fns (unsubscribe w st0) = fns st0 /\
            _currentEffect (unsubscribe w st0) = _currentEffect st0 /\
            _effectStack (unsubscribe w st0) = _effectStack st0) as (Hf' & Hc' & Hs').
    { unfold unsubscribe. destruct (fns st0 !! w) as [[|]|]; auto. }
    rewrite Hf' in Hf. destruct (Hw w0 s0 cb0 Hf) as (H1 & H2 & H3).
    rewrite Hc', Hs'. split; [|auto].
    intros s' Hin. apply H1. now apply unsubscribe_subs in Hin.
Qed.

Lemma initial_wrappers_own : wrappers_own initial_state.
Proof. intros w s cb H. discriminate H. Qed.

(** *** A wrapper and its calls *)

(** The wrapper [w] of a subscriber of the signal [s] stays what it is,
    its signal stays, and its callback is called only by a call of the
    wrapper. *)
Lemma wrapper_kept w s cb (c : list jsval) :
  let R := fun st =>
    fns st !! w = Some (Wrapper s cb) /\ s < length (signals st) /\
    calls_of w (log st) = c in
  (forall p self st, R st -> R (exec self p st).1) /\
  (forall fs st, Forall (fun g => g <> w) fs -> R st ->
     R (for_each fs
          (fun f => try_catch (fun st => call f (emit (EvInvoke f) st)) console_error)
          st).1).
Proof.
  intros R.
  assert (forall e st, quiet e -> R st -> R (emit e st)) as R_emit.
  { intros e st Hq (H1 & H2 & H3). split; [exact H1|]. split; [exact H2|].
    now rewrite calls_of_emit, H3, calls_of_quiet, app_nil_r. }
  assert (forall g s0 cb0 c0 st, g <> w -> fns st !! g = Some (Wrapper s0 cb0) ->
            signals st !! s0 = Some c0 -> R st ->
            R (emit (EvCallback g (_val c0)) st)) as R_callback.
  { intros g s0 cb0 c0 st Hne _ _ (H1 & H2 & H3).
    split; [exact H1|]. split; [exact H2|].
    rewrite calls_of_emit, H3, calls_of_callback.
    rewrite decide_False by congruence. apply app_nil_r. }
  assert (forall s0 st v st', get_value s0 st = Some (v, st') -> R st -> R st')
    as R_get.
  { intros s0 st v st' E (H1 & H2 & H3).
    split; [now apply (get_value_fns _ _ _ _ E)|].
    split; [now rewrite (get_value_signals _ _ _ _ E)|].
    now rewrite (get_value_log _ _ _ _ E). }
  assert (forall s0 v st st', set_value s0 v st = Some st' -> R st -> R st')
    as R_set.
  { intros s0 v st st' E (H1 & H2 & H3).
    destruct (set_value_frame _ _ _ _ E) as (Hf' & _).
    split; [now rewrite Hf'|].
    split; [now rewrite (set_value_signals _ _ _ _ E)|].
    destruct (set_value_log _ _ _ _ E) as [->| ->]; [exact H3|].
    now rewrite calls_of_app, H3, app_nil_r. }
  assert (forall body st, R st -> R (set_fns (fns st ++ [Runner body true []]) st))
    as R_effect.
  { intros body st (H1 & H2 & H3). split; [|auto]. simpl.
    rewrite lookup_app_l; [exact H1|]. eapply lookup_lt_Some; eauto. }
  assert (forall g body deps st, fns st !! g = Some (Runner body true deps) ->
            R st ->
            R (set_current (Some g)
                 (set_stack (g :: _effectStack (cleanupEffect g st))
                    (cleanupEffect g st)))) as R_enter.
  { intros g body deps st Hg (H1 & H2 & H3).
    unfold R. cbn [fns signals log set_current set_stack].
    split; [|split].
    - rewrite (cleanupEffect_fns g st body true deps Hg).
      rewrite list_lookup_insert_ne; [exact H1|]. intros ->. congruence.
    - now rewrite cleanupEffect_signals.
    - now rewrite cleanupEffect_log. }
  assert (forall st, R st ->
            R (set_current (head (tail (_effectStack st)))
                 (set_stack (tail (_effectStack st)) st))) as R_leave
    by (intros st H; exact H).
  assert (forall g st, R st -> R (dispose g st)) as R_dispose.
  { intros g st (H1 & H2 & H3).
    split; [now apply dispose_wrapper|].
    split; [now rewrite dispose_signals|now rewrite dispose_log]. }
  split.
  - intros p self st. now apply (exec_inv R).
  - intros fs st. now apply (flush_loop_inv R (fun g => g <> w)).
Qed.

Lemma flush_loop_app l1 l2 st :
  for_each (l1 ++ l2)
    (fun f => try_catch (fun st => call f (emit (EvInvoke f) st)) console_error) st
  = for_each l2
      (fun f => try_catch (fun st => call f (emit (EvInvoke f) st)) console_error)
      (for_each l1
         (fun f => try_catch (fun st => call f (emit (EvInvoke f) st)) console_error)
         st).1.
Proof.
  revert st. induction l1 as [|f l1 IH]; intros st; simpl; [reflexivity|].
  destruct (guarded_call_log f st) as (Hn & _).
  destruct (try_catch _ console_error st) as [st1 r1]. simpl in Hn. subst r1.
  apply IH.
Qed.

(** [unsubscribe] does not take a wrapper out of the queue. A subscriber
    that unsubscribes after a write, before the flush of that turn, is
    out of the subscriber set and is called by the flush all the same,
    once. *)
Theorem unsubscribe_keeps_the_pending_call
    (acts0 : list action) (w s : nat) (cb : jsval -> prog) :
  let st := run_actions acts0 initial_state in
  fns st !! w = Some (Wrapper s cb) ->
  s < length (signals st) ->
  w ∈ _effectQueue st ->
  let st1 := unsubscribe w st in
  (w ∉ subs_at st1 s) /\
  exists evs v,
    log (run_microtask st1).1 = log st1 ++ evs /\ calls_of w evs = [v].
Proof.
  intros st Hw Hs Hq st1. split; [now apply (unsubscribe_removes w s cb)|].
  assert (scheduler_ok st) as [Hnd Hsch].
  { apply run_actions_scheduler_ok. split; [constructor|]. left. auto. }
  assert (microtasks st = 1) as Hm.
  { destruct Hsch as [(_ & _ & H0)|(_ & H1)]; [|exact H1].
    rewrite H0 in Hq. now apply elem_of_nil in Hq. }
  assert (microtasks st1 = microtasks st /\ _effectQueue st1 = _effectQueue st /\
          fns st1 = fns st /\ length (signals st1) = length (signals st))
    as (Em & Eq & Ef & Esig).
  { subst st1. unfold unsubscribe. rewrite Hw. simpl. rewrite length_alter. auto. }
  clearbody st1.
  unfold run_microtask. rewrite Em, Hm.
  destruct (flush_log (set_microtasks 0 st1)) as (_ & evs & Hl & _).
  exists evs.
  change (log (set_microtasks 0 st1)) with (log st1) in Hl.
  unfold flush in Hl |- *.
  change (_effectQueue (set_scheduled false (set_microtasks 0 st1)))
    with (_effectQueue st1) in Hl |- *.
  rewrite Eq in Hl |- *.
  apply list_elem_of_split in Hq as (l1 & l2 & Hsplit).
  rewrite Hsplit in Hnd, Hl |- *.
  apply NoDup_app in Hnd as (_ & Hn1 & Hn2).
  apply NoDup_cons in Hn2 as [Hn2 _].
  set (st2 := set_queue [] (set_scheduled false (set_microtasks 0 st1))) in *.
  set (c0 := calls_of w (log st1)).
  assert (fns st2 !! w = Some (Wrapper s cb) /\ s < length (signals st2) /\
          calls_of w (log st2) = c0) as HR.
  { subst st2. simpl. rewrite Ef, Esig. auto. }
  rewrite flush_loop_app in Hl |- *.
  destruct (wrapper_kept w s cb c0) as [_ Hloop1].
  apply (Hloop1 l1) in HR.
  2:{ apply Forall_forall. intros g Hg ->. apply (Hn1 w Hg). left. }
  set (st3 := (for_each l1 _ st2).1) in *.
  destruct HR as (H1 & H2 & H3).
  destruct (lookup_lt_is_Some_2 _ _ H2) as [c Hc].
  exists (_val c). split; [exact Hl|].
  assert (calls_of w (log (for_each (w :: l2)
            (fun f => try_catch (fun st => call f (emit (EvInvoke f) st))
                        console_error) st3).1) = c0 ++ [_val c]) as Hcalls.
  { cbn [for_each].
    destruct (guarded_call_log w st3) as (Hn & _).
    assert (fns (try_catch (fun st => call w (emit (EvInvoke w) st))
                   console_error st3).1 !! w = Some (Wrapper s cb) /\
            s < length (signals (try_catch (fun st => call w (emit (EvInvoke w) st))
                   console_error st3).1) /\
            calls_of w (log (try_catch (fun st => call w (emit (EvInvoke w) st))
                   console_error st3).1) = c0 ++ [_val c]) as HR.
    { unfold try_catch, call. cbn [fns signals emit emits]. rewrite H1, Hc.
      destruct (wrapper_kept w s cb (c0 ++ [_val c])) as [Hexec _].
      assert (fns (emit (EvCallback w (_val c)) (emit (EvInvoke w) st3)) !! w
                = Some (Wrapper s cb) /\
              s < length (signals (emit (EvCallback w (_val c))
                                     (emit (EvInvoke w) st3))) /\
              calls_of w (log (emit (EvCallback w (_val c))
                                 (emit (EvInvoke w) st3))) = c0 ++ [_val c])
        as Hstart.
      { split; [exact H1|]. split; [exact H2|].
        rewrite !calls_of_emit, H3, calls_of_callback.
        rewrite decide_True by reflexivity.
        change (calls_of w [EvInvoke w]) with (@nil jsval).
        now rewrite app_nil_r. }
      apply (Hexec (cb (_val c)) None) in Hstart.
      destruct (exec None (cb (_val c)) _) as [st' [|e]]; cbn [fst] in Hstart |- *;
        [exact Hstart|].
      unfold console_error. cbn [fst].
      destruct Hstart as (E1 & E2 & E3).
      split; [exact E1|]. split; [exact E2|].
      now rewrite calls_of_emit, E3, app_nil_r. }
    destruct (try_catch _ console_error st3) as [st4 r4]. simpl in Hn. subst r4.
    destruct (wrapper_kept w s cb (c0 ++ [_val c])) as [_ Hloop2].
    apply (Hloop2 l2) in HR; [apply HR|].
    apply Forall_forall. intros g Hg ->. contradiction. }
  rewrite Hl, calls_of_app in Hcalls. now apply app_inv_head in Hcalls.
Qed.

Lemma unsubscribe_keeps_the_pending_call_witness :
  let st1 := unsubscribe 0
               (run_actions [DoSignal (VNum 0) None;
                             DoSubscribe 0 (fun _ => Done);
                             DoWrite 0 (VNum 1)] initial_state) in
  (0 ∉ subs_at st1 0) /\
  exists evs v,
    log (run_microtask st1).1 = log st1 ++ evs /\ calls_of 0 evs = [v].
Proof.
  apply (unsubscribe_keeps_the_pending_call
           [DoSignal (VNum 0) None; DoSubscribe 0 (fun _ => Done);
            DoWrite 0 (VNum 1)] 0 0 (fun _ => Done)).
  - vm_compute. reflexivity.
  - vm_compute. lia.
  - vm_compute. left.
Defined.

(** *** After [unsubscribe] *)

Lemma unsubscribed_stays_out w s cb (c : list jsval) (l0 : list event) acts st :
  (fns st !! w = Some (Wrapper s cb) /\
   (forall s', w ∉ subs_at st s') /\ (w ∉ _effectQueue st) /\
   _currentEffect st <> Some w /\ (w ∉ _effectStack st) /\
   calls_of w (log st) = c /\ exists evs, log st = l0 ++ evs) ->
  calls_of w (log (run_actions acts st)) = c /\
  exists evs, log (run_actions acts st) = l0 ++ evs.
Proof.
  intros H.
  cut (fns (run_actions acts st) !! w = Some (Wrapper s cb) /\
       (forall s', w ∉ subs_at (run_actions acts st) s') /\
       (w ∉ _effectQueue (run_actions acts st)) /\
       _currentEffect (run_actions acts st) <> Some w /\
       (w ∉ _effectStack (run_actions acts st)) /\
       calls_of w (log (run_actions acts st)) = c /\
       exists evs, log (run_actions acts st) = l0 ++ evs); [tauto|].
  apply (run_actions_inv
           (fun st => fns st !! w = Some (Wrapper s cb) /\
                      (forall s', w ∉ subs_at st s') /\ (w ∉ _effectQueue st) /\
                      _currentEffect st <> Some w /\ (w ∉ _effectStack st) /\
                      calls_of w (log st) = c /\ exists evs, log st = l0 ++ evs)
           (fun g => g <> w)); [..|exact H].
  - intros e st0 Hq (H1 & H2 & H3 & H4 & H5 & H6 & evs & H7).
    repeat (split; [assumption|]). split.
    + now rewrite calls_of_emit, H6, calls_of_quiet, app_nil_r.
    + exists (evs ++ [e]). simpl. now rewrite H7, app_assoc.
  - intros g s0 cb0 c0 st0 Hne _ _ (H1 & H2 & H3 & H4 & H5 & H6 & evs & H7).
    repeat (split; [assumption|]). split.
    + rewrite calls_of_emit, H6, calls_of_callback.
      rewrite decide_False by congruence. apply app_nil_r.
    + exists (evs ++ [EvCallback g (_val c0)]). simpl. now rewrite H7, app_assoc.
  - intros s0 st0 v st' E (H1 & H2 & H3 & H4 & H5 & H6 & H7).
    destruct (get_value_frame _ _ _ _ E) as (Hc' & Hs' & _).
    destruct (get_value_scheduler _ _ _ _ E) as (Hq' & _).
    rewrite Hc', Hs', Hq', (get_value_log _ _ _ _ E).
    split; [now apply (get_value_fns _ _ _ _ E)|].
    split; [|auto 10].
    intros s' Hin. apply (get_value_subs _ _ _ _ E) in Hin as [Hin|[_ Hin]];
      [now apply (H2 s')|congruence].
  - intros s0 v st0 st' E (H1 & H2 & H3 & H4 & H5 & H6 & evs & H7).
    destruct (set_value_frame _ _ _ _ E) as (Hf' & Hc' & Hs' & Hsubs).
    rewrite Hf', Hc', Hs'. split; [exact H1|].
    split; [intros s'; rewrite Hsubs; apply H2|].
    split.
    { intros Hin. apply (set_value_queue _ _ _ _ E) in Hin as [Hin|Hin];
        [contradiction|now apply (H2 s0)]. }
    split; [exact H4|]. split; [exact H5|].
    destruct (set_value_log _ _ _ _ E) as [->| ->].
    + split; [exact H6|eauto].
    + split; [now rewrite calls_of_app, H6, app_nil_r|].
      exists (evs ++ [EvWrite s0 v]). now rewrite H7, app_assoc.
  - intros body st0 (H1 & H2). split; [|exact H2]. simpl.
    rewrite lookup_app_l; [exact H1|]. eapply lookup_lt_Some; eauto.
  - intros g body deps st0 Hg (H1 & H2 & H3 & H4 & H5 & H6 & H7).
    assert (g <> w) as Hne by (intros ->; congruence).
    destruct (cleanupEffect_frame g st0) as (_ & Hs' & _).
    destruct (cleanupEffect_scheduler g st0) as (Hq' & _).
    cbn [fns signals log _effectQueue _currentEffect _effectStack
         set_current set_stack].
    rewrite Hs', Hq', cleanupEffect_log.
    split.
    { rewrite (cleanupEffect_fns g st0 body true deps Hg).
      now rewrite list_lookup_insert_ne. }
    split.
    { intros s' Hin.
      change (w ∈ subs_at (cleanupEffect g st0) s') in Hin.
      apply cleanupEffect_subs_in in Hin. now apply (H2 s'). }
    split; [exact H3|]. split; [congruence|].
    split; [rewrite not_elem_of_cons; auto|]. auto.
  - intros st0 (H1 & H2 & H3 & H4 & H5 & H6).
    split; [exact H1|]. split; [exact H2|]. split; [exact H3|].
    split; [|split; [|exact H6]]; simpl.
    + destruct (_effectStack st0) as [|x [|y l]]; simpl; try discriminate.
      apply not_elem_of_cons in H5 as [_ H5].
      apply not_elem_of_cons in H5 as [H5 _]. congruence.
    + destruct (_effectStack st0) as [|x l]; simpl; [exact H5|].
      now apply not_elem_of_cons in H5 as [_ H5].
  - intros g st0 (H1 & H2 & H3 & H4 & H5 & H6 & H7).
    destruct (dispose_frame g st0) as (Hc' & Hs' & _).
    destruct (dispose_scheduler g st0) as (Hq' & _).
    rewrite Hc', Hs', Hq', dispose_log.
    split; [now apply dispose_wrapper|].
    split; [|auto 10].
    intros s' Hin. apply dispose_subs_in in Hin. now apply (H2 s').
  - intros n st0 _ (H1 & H2 & H3 & H4 & H5 & H6). split.
    + split; [exact H1|]. split; [exact H2|].
      split; [apply not_elem_of_nil|]. auto.
    + apply Forall_forall. intros g Hg ->. contradiction.
  - intros initial eq st0 (H1 & H2 & H3). split; [exact H1|].
    split; [|exact H3]. intros s'. rewrite signal_subs. apply H2.
  - intros s0 cb0 st0 (H1 & H2 & H3). split; [|split; [|exact H3]].
    + simpl. rewrite lookup_app_l; [exact H1|]. eapply lookup_lt_Some; eauto.
    + intros s' Hin. apply subscribe_subs in Hin as [Hin|[_ Hin]].
      * now apply (H2 s').
      * apply lookup_lt_Some in H1. lia.
  - intros w0 st0 (H1 & H2 & H3).
    assert (fns (unsubscribe w0 st0) = fns st0 /\
            _effectQueue (unsubscribe w0 st0) = _effectQueue st0 /\
            _currentEffect (unsubscribe w0 st0) = _currentEffect st0 /\
            _effectStack (unsubscribe w0 st0) = _effectStack st0 /\
            log (unsubscribe w0 st0) = log st0) as (Hf' & Hq' & Hc' & Hs' & Hl').
    { unfold unsubscribe. destruct (fns st0 !! w0) as [[|]|]; auto 10. }
    rewrite Hf', Hq', Hc', Hs', Hl'. split; [exact H1|]. split; [|exact H3].
    intros s' Hin. apply unsubscribe_subs in Hin. now apply (H2 s').
Qed.

(** Once a subscriber has unsubscribed and is not waiting in the queue,
    its callback is never called again, whatever is written, flushed,
    created or disposed afterwards. *)
Theorem unsubscribed_callback_is_not_called
    (acts0 : list action) (w s : nat) (cb : jsval -> prog)
    (acts : list action) :
  let st := run_actions acts0 initial_state in
  fns st !! w = Some (Wrapper s cb) ->
  w ∉ _effectQueue st ->
  let st1 := unsubscribe w st in
  exists evs,
    log (run_actions acts st1) = log st1 ++ evs /\ calls_of w evs = [].
Proof.
  intros st Hw Hq st1.
  destruct (run_actions_wrappers_own acts0 initial_state) as [Hwf Hown].
  { split; [apply well_formed_initial|apply initial_wrappers_own]. }
  fold st in Hwf, Hown. destruct (Hown w s cb Hw) as (Honly & Hc & Hs).
  assert (st1 = set_signals (alter (delete_sub w) s (signals st)) st) as Est
    by (subst st1; unfold unsubscribe; now rewrite Hw).
  destruct (unsubscribed_stays_out w s cb (calls_of w (log st1)) (log st1) acts st1)
    as (Hcalls & evs & Hl).
  - split; [rewrite Est; exact Hw|]. split.
    { intros s' Hin. pose proof (unsubscribe_subs w st s' w Hin) as Hin'.
      apply Honly in Hin'. subst s'.
      now apply (unsubscribe_removes w s cb st Hw). }
    split; [rewrite Est; exact Hq|]. split; [rewrite Est; exact Hc|].
    split; [rewrite Est; exact Hs|]. split; [reflexivity|].
    exists []. now rewrite app_nil_r.
  - exists evs. split; [exact Hl|].
    rewrite Hl, calls_of_app in Hcalls.
    rewrite <- (app_nil_r (calls_of w (log st1))) in Hcalls at 2.
    now apply app_inv_head in Hcalls.
Qed.

Lemma unsubscribed_callback_is_not_called_witness :
  let st1 := unsubscribe 0
               (run_actions [DoSignal (VNum 0) None;
                             DoSubscribe 0 (fun _ => Done)] initial_state) in
  exists evs,
    log (run_actions [DoWrite 0 (VNum 1); DoMicrotask] st1) = log st1 ++ evs /\
    calls_of 0 evs = [].
Proof.
  apply (unsubscribed_callback_is_not_called
           [DoSignal (VNum 0) None; DoSubscribe 0 (fun _ => Done)]
           0 0 (fun _ => Done) [DoWrite 0 (VNum 1); DoMicrotask]).
  - vm_compute. reflexivity.
  - vm_compute. intros H. inversion H.
Defined.

End SubscriberFacts.

(** ** Computed signals *)

Module ComputedFacts.
Import Reactive ReactiveFacts Derived LifecycleFacts SubscriberFacts.

(** *** The getter *)

(** The getter looks at the signals on its path only. *)
Lemma getter_agree g : forall vals vals',
  (forall s, s ∈ path g vals -> vals' s = vals s) ->
  path g vals' = path g vals /\ eval g vals' = eval g vals.
Proof.
  induction g as [v|e|s k IH]; intros vals vals' H; simpl in *; [auto..|].
  rewrite (H s) by left.
  destruct (vals s) as [v|] eqn:E; [|auto].
  destruct (IH v vals vals') as [H1 H2].
  - intros s0 Hs0. apply H. now right.
  - now rewrite H1, H2.
Qed.

Lemma path_below n g : forall vals,
  reads_below n g -> forall s, s ∈ path g vals -> s < n.
Proof.
  induction g as [v|e|s k IH]; intros vals Hg s0 Hs0; simpl in *.
  - inversion Hs0.
  - inversion Hs0.
  - destruct Hg as [Hs Hk].
    apply elem_of_cons in Hs0 as [->|Hs0]; [exact Hs|].
    destruct (vals s) as [v|]; [|inversion Hs0].
    exact (IH v vals (Hk v) s0 Hs0).
Qed.

Lemma insert_alter_same {A} (g : A -> A) (i : nat) (x : A) (l : list A) :
  <[i := x]> (alter g i l) = <[i := x]> l.
Proof.
  revert i; induction l as [|a l IH]; intros [|i]; simpl; try reflexivity.
  f_equal. apply IH.
Qed.

(** *** One run of the function of a computed *)

(** The body of the effect behind a computed, run under the effect [f]
    when nothing subscribes to [out]: the reads enter the path of the
    getter in the dependencies of [f], [out] takes the value of the
    getter if there is one, and the scheduler is left alone. *)
Lemma exec_assign g : forall self st f body active deps0 out c vals,
  _currentEffect st = Some f ->
  fns st !! f = Some (Runner body active deps0) ->
  signals st !! out = Some c -> subs c = [] -> equals c = strict_eq ->
  reads_below out g ->
  (forall s, val_at st s = vals s) ->
  let st' := (exec self (assign out g) st).1 in
  fns st'
  = <[f := Runner body active
            (fold_left (fun d s => set_add s d) (path g vals) deps0)]> (fns st) /\
  (forall s, s <> out -> val_at st' s = vals s) /\
  val_at st' out
  = match eval g vals with Some v => Some v | None => vals out end /\
  (exists c', signals st' !! out = Some c' /\ subs c' = [] /\
              equals c' = strict_eq) /\
  length (signals st') = length (signals st) /\
  _effectQueue st' = _effectQueue st /\
  _effectScheduled st' = _effectScheduled st /\
  microtasks st' = microtasks st /\
  _currentEffect st' = _currentEffect st /\
  _effectStack st' = _effectStack st.
Proof.
  induction g as [v|e|s k IH];
    intros self st f body active deps0 out c vals Hcur Hf Hc Hsubs Heq Hg Hv.
  - simpl. unfold set_value. rewrite Hc, Heq.
    destruct (strict_eq (_val c) v) eqn:E; simpl.
    + apply strict_eq_sound in E.
      rewrite list_insert_id by exact Hf.
      split; [reflexivity|]. split; [intros s _; apply Hv|].
      split; [unfold val_at; rewrite Hc; simpl; now rewrite E|].
      split; [exists c; auto|]. tauto.
    + rewrite Hsubs. simpl.
      rewrite list_insert_id by exact Hf.
      split; [reflexivity|].
      split.
      { intros s Hs. rewrite <- Hv. unfold val_at. simpl.
        now rewrite list_lookup_alter_ne by congruence. }
      split.
      { unfold val_at. simpl. rewrite list_lookup_alter_eq, Hc. reflexivity. }
      split.
      { exists (store_val v c). rewrite list_lookup_alter_eq, Hc. simpl. auto. }
      rewrite length_alter. tauto.
  - simpl. rewrite list_insert_id by exact Hf.
    split; [reflexivity|]. split; [intros s _; apply Hv|].
    split; [apply Hv|]. split; [exists c; auto|]. tauto.
  - destruct Hg as [Hs Hk].
    assert (Hlen : out < length (signals st))
      by (apply lookup_lt_is_Some_1; eauto).
    destruct (lookup_lt_is_Some_2 (signals st) s) as [cs Hcs]; [lia|].
    assert (Hvs : vals s = Some (_val cs))
      by (rewrite <- Hv; unfold val_at; now rewrite Hcs).
    cbn [assign exec path eval]. unfold get_value. rewrite Hcs, Hcur, Hvs.
    set (st1 := emit (EvRead self s (_val cs))
                  (set_fns (alter (add_dep s) f (fns st))
                     (set_signals (alter (add_sub f) s (signals st)) st))).
    destruct (IH (_val cs) self st1 f body active (set_add s deps0) out c vals)
      as (I1 & I2 & I3 & I4 & I5 & I6 & I7 & I8 & I9 & I10); auto.
    + subst st1. simpl. rewrite list_lookup_alter_eq, Hf. reflexivity.
    + subst st1. simpl. rewrite list_lookup_alter_ne by lia. exact Hc.
    + intros s0. rewrite <- Hv. subst st1. unfold val_at. simpl.
      apply val_lookup_alter. reflexivity.
    + fold assign in *. rewrite I1. subst st1. simpl.
      rewrite insert_alter_same.
      split; [reflexivity|]. split; [exact I2|]. split; [exact I3|].
      split; [exact I4|].
      split; [rewrite I5; simpl; apply length_alter|].
      rewrite I6, I7, I8, I9, I10. simpl. tauto.
Qed.

Lemma cleanup_fold_cell (f : nat) (deps : list nat) :
  forall (sigs : list signal_cell) s c,
  sigs !! s = Some c -> subs c = [] ->
  exists c',
    fold_left (fun sigs s => alter (delete_sub f) s sigs) deps sigs !! s
    = Some c' /\ subs c' = [] /\ equals c' = equals c.
Proof.
  induction deps as [|d deps IH]; intros sigs s c Hc Hsubs; simpl.
  - exists c. auto.
  - destruct (decide (d = s)) as [->|Hne].
    + destruct (IH (alter (delete_sub f) s sigs) s (delete_sub f c))
        as (c' & H1 & H2 & H3).
      * rewrite list_lookup_alter_eq, Hc. reflexivity.
      * simpl. rewrite Hsubs. reflexivity.
      * exists c'. auto.
    + apply IH; [|exact Hsubs].
      rewrite list_lookup_alter_ne by exact Hne. exact Hc.
Qed.

Lemma cleanupEffect_cell f st s c :
  signals st !! s = Some c -> subs c = [] ->
  exists c', signals (cleanupEffect f st) !! s = Some c' /\ subs c' = [] /\
             equals c' = equals c.
Proof.
  intros Hc Hsubs. unfold cleanupEffect.
  destruct (fns st !! f) as [[body active deps|]|]; simpl; eauto.
  apply cleanup_fold_cell; assumption.
Qed.

(** The runner of a computed, run when nothing subscribes to [out]. *)
Lemma run_assign g st f active deps0 out c :
  fns st !! f = Some (Runner (assign out g) active deps0) ->
  signals st !! out = Some c -> subs c = [] -> equals c = strict_eq ->
  reads_below out g ->
  let st' := (run_in f (exec (Some f) (assign out g)) st).1 in
  fns st'
  = <[f := Runner (assign out g) active
            (fold_left (fun d s => set_add s d) (path g (val_at st)) [])]>
      (fns st) /\
  (forall s, s <> out -> val_at st' s = val_at st s) /\
  val_at st' out
  = match eval g (val_at st) with Some v => Some v | None => val_at st out end /\
  (exists c', signals st' !! out = Some c' /\ equals c' = strict_eq) /\
  length (signals st') = length (signals st) /\
  _effectQueue st' = _effectQueue st /\
  _effectScheduled st' = _effectScheduled st /\
  microtasks st' = microtasks st /\
  _currentEffect st' = head (_effectStack st) /\
  _effectStack st' = _effectStack st.
Proof.
  intros Hf Hc Hsubs Heq Hg. unfold run_in.
  destruct (cleanupEffect_cell f st out c Hc Hsubs) as (c1 & Hc1 & Hs1 & He1).
  destruct (cleanupEffect_scheduler f st) as (Q1 & Q2 & Q3).
  destruct (cleanupEffect_frame f st) as (F1 & F2 & F3).
  pose proof (cleanupEffect_fns f st _ _ _ Hf) as Hfns.
  pose proof (cleanupEffect_signals f st) as Hlen.
  assert (Hlt : f < length (fns st)) by (apply lookup_lt_is_Some_1; eauto).
  set (st2 := set_current (Some f)
                (set_stack (f :: _effectStack (cleanupEffect f st))
                   (cleanupEffect f st))).
  destruct (exec_assign g (Some f) st2 f (assign out g) active [] out c1
              (val_at st)) as (I1 & I2 & I3 & I4 & I5 & I6 & I7 & I8 & I9 & I10).
  - reflexivity.
  - subst st2. simpl. rewrite Hfns. now apply list_lookup_insert_eq.
  - exact Hc1.
  - exact Hs1.
  - congruence.
  - exact Hg.
  - intros s. subst st2. unfold val_at at 1. simpl. apply cleanupEffect_val.
  - destruct (exec (Some f) (assign out g) st2) as [st3 r]. simpl in *.
    rewrite I10. simpl. unfold val_at at 1 2. simpl.
    fold (val_at st3). rewrite I1, Hfns, list_insert_insert_eq.
    split; [reflexivity|]. split; [exact I2|]. split; [exact I3|].
    split; [destruct I4 as (c' & ? & ? & ?); eauto|].
    rewrite F2. repeat split; congruence.
Qed.

(** *** Keeping the computed in step *)

(** The runner of a computed, the only function there is, run outside
    any effect with nothing waiting: afterwards all is in step. *)
Lemma run_in_sync g out st deps c :
  outside st -> well_formed st ->
  _effectQueue st = [] -> _effectScheduled st = false -> microtasks st = 0 ->
  length (signals st) = S out ->
  signals st !! out = Some c -> subs c = [] -> equals c = strict_eq ->
  fns st = [Runner (assign out g) true deps] ->
  reads_below out g ->
  in_sync g out (run_in 0 (exec (Some 0) (assign out g)) st).1.
Proof.
  intros [Hcur Hstack] Hwf Hq Hsch Hm Hlen Hc Hsubs Heq Hfns Hg.
  destruct (run_assign g st 0 true deps out c)
    as (I1 & I2 & I3 & I4 & I5 & I6 & I7 & I8 & I9 & I10); auto.
  { rewrite Hfns. reflexivity. }
  assert (Hwf' : well_formed (run_in 0 (exec (Some 0) (assign out g)) st).1).
  { apply run_in_well_formed; [|rewrite Hfns; simpl; lia|exact Hwf].
    intros st0. apply exec_well_formed. }
  set (st' := (run_in 0 (exec (Some 0) (assign out g)) st).1) in *.
  destruct (getter_agree g (val_at st) (val_at st')) as [Hp He].
  { intros s Hs. apply I2. apply (path_below out) in Hs; [lia|exact Hg]. }
  split.
  { unfold quiescent. rewrite I9, I10, I6, I7, I8, Hstack. auto. }
  split; [exact Hwf'|].
  split; [congruence|].
  split; [exact I4|].
  split.
  - eexists. split; [rewrite I1, Hfns; reflexivity|].
    intros s. rewrite Hp, elem_of_fold_set_add.
    split; [intros [H|H]; [inversion H|exact H]|auto].
  - intros v Hv. rewrite He in Hv. rewrite I3, Hv. reflexivity.
Qed.

(** Nothing subscribes to the signal of a computed that is in step. *)
Lemma in_sync_out g out st :
  in_sync g out st -> reads_below out g ->
  exists c, signals st !! out = Some c /\ subs c = [] /\ equals c = strict_eq.
Proof.
  intros (_ & Hwf & _ & (c & Hc & Heq) & (deps & Hfns & Hdeps) & _) Hg.
  exists c. split; [exact Hc|]. split; [|exact Heq].
  destruct Hwf as (Hw1 & Hw2 & _).
  destruct (subs c) as [|x l] eqn:E; [reflexivity|exfalso].
  assert (Hx : x ∈ subs_at st out) by (unfold subs_at; rewrite Hc, E; left).
  pose proof (Hw2 out x Hx) as Hlt. rewrite Hfns in Hlt. simpl in Hlt.
  assert (x = 0) by lia. subst x.
  apply (Hw1 0 (assign out g) true deps) in Hx; [|rewrite Hfns; reflexivity].
  apply Hdeps in Hx. apply (path_below out) in Hx; [lia|exact Hg].
Qed.

(** A state that differs from one in step in nothing that the getter
    reads, and in no registration, is in step when it is at rest. *)
Lemma in_sync_quiet g out st st' :
  in_sync g out st -> reads_below out g ->
  fns st' = fns st -> well_formed st' ->
  length (signals st') = length (signals st) ->
  signals st' !! out = signals st !! out ->
  (forall s, s ∈ path g (val_at st) -> val_at st' s = val_at st s) ->
  quiescent st' ->
  in_sync g out st'.
Proof.
  intros (_ & _ & Hlen & Hcell & (deps & Hfns & Hdeps) & Hval) Hg
    Hf Hwf Hl Ho Hsame Hq.
  destruct (getter_agree g (val_at st) (val_at st') Hsame) as [Hp He].
  split; [exact Hq|]. split; [exact Hwf|]. split; [congruence|].
  split; [rewrite Ho; exact Hcell|].
  split.
  - exists deps. split; [congruence|]. intros s. rewrite Hp. apply Hdeps.
  - intros v Hv. rewrite He in Hv. unfold val_at at 1. rewrite Ho.
    exact (Hval v Hv).
Qed.

(** *** Writes from outside *)

Lemma set_value_other s v st st' s0 :
  set_value s v st = Some st' -> s0 <> s ->
  signals st' !! s0 = signals st !! s0.
Proof.
  unfold set_value. intros H Hne.
  destruct (signals st !! s) as [c|]; [|discriminate].
  destruct (equals c (_val c) v); injection H as <-; [reflexivity|].
  rewrite schedule_all_signals. simpl.
  now rewrite list_lookup_alter_ne by congruence.
Qed.

Lemma set_value_scheduler_frame s v st st' :
  set_value s v st = Some st' ->
  fns st' = fns st /\ _currentEffect st' = _currentEffect st /\
  _effectStack st' = _effectStack st /\
  length (signals st') = length (signals st) /\
  (forall s0, subs_at st' s0 = subs_at st s0).
Proof.
  intros H. destruct (set_value_frame s v st st' H) as (H1 & H2 & H3 & H4).
  pose proof (set_value_signals s v st st' H). auto.
Qed.

(** What the writes of a turn leave as it was, and what they change:
    a signal keeps its value or has all its subscribers in the queue;
    and what is in the queue is a function that exists. *)
Lemma write_all_summary ws : forall st,
  scheduler_ok st -> well_formed st ->
  (forall f, f ∈ _effectQueue st -> f < length (fns st)) ->
  let st1 := write_all ws st in
  fns st1 = fns st /\ _currentEffect st1 = _currentEffect st /\
  _effectStack st1 = _effectStack st /\
  length (signals st1) = length (signals st) /\
  (forall s, subs_at st1 s = subs_at st s) /\
  (forall s, (forall w, w ∈ ws -> w.1 <> s) ->
             signals st1 !! s = signals st !! s) /\
  (forall f, f ∈ _effectQueue st1 -> f < length (fns st)) /\
  (forall f, f ∈ _effectQueue st -> f ∈ _effectQueue st1) /\
  (forall s, val_at st1 s = val_at st s \/
             forall f, f ∈ subs_at st s -> f ∈ _effectQueue st1).
Proof.
  induction ws as [|[s0 v0] ws IH]; intros st Hok Hwf Hqb.
  - simpl. repeat split; auto.
  - cbn [write_all fold_left fst snd].
    destruct (set_value s0 v0 st) as [st0|] eqn:E.
    + destruct (set_value_scheduler_frame _ _ _ _ E) as (F1 & F2 & F3 & F4 & F5).
      destruct (set_value_schedules _ _ _ _ E Hok) as (Hok0 & Hmono & Hsched).
      pose proof (set_value_well_formed _ _ _ _ E Hwf) as Hwf0.
      assert (Hqb0 : forall f, f ∈ _effectQueue st0 -> f < length (fns st0)).
      { intros f Hf. rewrite F1.
        apply (set_value_queue _ _ _ _ E) in Hf as [Hf|Hf]; [auto|].
        destruct Hwf as (_ & Hw2 & _). exact (Hw2 _ _ Hf). }
      destruct (IH st0 Hok0 Hwf0 Hqb0)
        as (I1 & I2 & I3 & I4 & I5 & I6 & I7 & I8 & I9).
      fold (write_all ws st0).
      split; [congruence|]. split; [congruence|]. split; [congruence|].
      split; [congruence|].
      split; [intros s; rewrite I5; apply F5|].
      split.
      { intros s Hs. rewrite I6.
        - apply (set_value_other _ _ _ _ _ E).
          intros ->. apply (Hs (s0, v0)); [left|reflexivity].
        - intros w Hw. apply Hs. now right. }
      split; [intros f Hf; rewrite <- F1; auto|].
      split; [auto|].
      intros s.
      destruct (set_value_cases _ _ _ _ E) as [->|(Hlog & _ & Hothers)].
      * apply I9.
      * destruct (decide (s = s0)) as [->|Hne].
        -- right. intros f Hf. apply I8. exact (Hsched Hlog f Hf).
        -- destruct (I9 s) as [Hv|Hq].
           ++ left. rewrite Hv. apply Hothers. exact Hne.
           ++ right. intros f Hf. apply Hq. rewrite F5. exact Hf.
    + fold (write_all ws st).
      destruct (IH st Hok Hwf Hqb)
        as (I1 & I2 & I3 & I4 & I5 & I6 & I7 & I8 & I9).
      repeat split; auto.
      intros s Hs. apply I6. intros w Hw. apply Hs. now right.
Qed.

(** A turn keeps the computed in step: the writes of the turn reach the
    original signals only, and the flush they leave, if any, runs the
    runner once more. *)
Lemma write_turn_in_sync g out ws st :
  in_sync g out st -> reads_below out g ->
  Forall (fun w : nat * jsval => w.1 < out) ws ->
  in_sync g out (write_turn ws st).
Proof.
  intros Hsync Hg Hws.
  destruct (in_sync_out g out st Hsync Hg) as (c & Hc & Hsubs & Heq).
  pose proof Hsync as (Hq & Hwf & Hlen & _ & (deps & Hfns & Hdeps) & _).
  pose proof Hq as (Hcur & Hstack & Hqueue & Hsch & Hm).
  pose proof (quiescent_scheduler_ok st Hq) as Hok.
  destruct (write_all_spec ws st Hok) as (Hok2 & _).
  pose proof (write_all_well_formed ws st Hwf) as Hwf2.
  destruct (write_all_summary ws st Hok Hwf)
    as (W1 & W2 & W3 & W4 & W5 & W6 & W7 & W8 & W9).
  { intros f Hf. rewrite Hqueue in Hf. inversion Hf. }
  unfold write_turn. set (st2 := write_all ws st) in *.
  assert (Hout : signals st2 !! out = signals st !! out).
  { apply W6. intros w Hw. rewrite Forall_forall in Hws.
    apply Hws in Hw. lia. }
  assert (Hzero : forall f, f ∈ _effectQueue st2 -> f = 0).
  { intros f Hf. apply W7 in Hf. rewrite Hfns in Hf. simpl in Hf. lia. }
  assert (Hkeep : 0 ∉ _effectQueue st2 ->
            forall s, s ∈ path g (val_at st) -> val_at st2 s = val_at st s).
  { intros Hno s Hs. destruct (W9 s) as [Hv|Hall]; [exact Hv|].
    exfalso. apply Hno, Hall.
    destruct Hwf as (Hw1 & _).
    apply (Hw1 0 (assign out g) true deps); [rewrite Hfns; reflexivity|].
    now apply Hdeps. }
  unfold run_microtask.
  destruct Hok2 as [Hnd [(Hs2 & Hm2 & Hq2)|(Hs2 & Hm2)]]; rewrite Hm2.
  - simpl. apply (in_sync_quiet g out st); auto.
    + apply Hkeep. rewrite Hq2. intros H. inversion H.
    + unfold quiescent. rewrite W2, W3. auto.
  - unfold flush.
    set (st3 := set_queue [] (set_scheduled false (set_microtasks 0 st2))).
    assert (Hwf3 : well_formed st3) by (apply (well_formed_ext st2); auto).
    cbn [_effectQueue set_scheduled set_microtasks].
    destruct (_effectQueue st2) as [|x l] eqn:EQ.
    + simpl. apply (in_sync_quiet g out st); auto.
      * apply Hkeep. intros H. inversion H.
      * unfold quiescent. simpl. rewrite W2, W3. auto.
    + assert (x = 0) by (apply Hzero; left). subst x.
      assert (l = []) as ->.
      { destruct l as [|y l]; [reflexivity|exfalso].
        assert (y = 0) by (apply Hzero; right; left). subst y.
        apply NoDup_cons in Hnd as [Hnd _]. apply Hnd. left. }
      cbn [for_each]. unfold try_catch, call.
      cbn [fns emit emits]. change (fns st3) with (fns st2).
      rewrite W1, Hfns. cbn [lookup list_lookup].
      pose proof (run_in_sync g out (emit (EvInvoke 0) st3) deps c) as Hrun.
      destruct (run_in 0 (exec (Some 0) (assign out g)) (emit (EvInvoke 0) st3))
        as [st4 r].
      assert (H4 : in_sync g out st4).
      { apply Hrun.
        - split; simpl; congruence.
        - apply (well_formed_ext st3); auto.
        - reflexivity.
        - reflexivity.
        - reflexivity.
        - simpl. congruence.
        - simpl. rewrite Hout. exact Hc.
        - exact Hsubs.
        - exact Heq.
        - simpl. congruence.
        - exact Hg. }
      destruct r as [|e]; [exact H4|].
      unfold console_error. simpl.
      apply (in_sync_quiet g out st4); auto.
      * apply (well_formed_ext st4); auto. apply H4.
      * destruct H4 as (Hq4 & _). exact Hq4.
Qed.

Lemma write_turns_in_sync g out turns : forall st,
  in_sync g out st -> reads_below out g ->
  Forall (Forall (fun w : nat * jsval => w.1 < out)) turns ->
  in_sync g out (write_turns turns st).
Proof.
  induction turns as [|ws turns IH]; intros st Hsync Hg Hall; [exact Hsync|].
  apply Forall_cons in Hall as [Hws Hall].
  apply IH; auto. now apply write_turn_in_sync.
Qed.

(** *** Making the computed *)

Lemma signals_of_spec inits : forall st,
  fns st = [] -> quiescent st -> well_formed st ->
  let st' := fold_left (fun st i => (signal i.1 i.2 st).1) inits st in
  fns st' = [] /\ quiescent st' /\ well_formed st' /\
  length (signals st') = length (signals st) + length inits.
Proof.
  induction inits as [|i inits IH]; intros st Hf Hq Hwf; cbn [fold_left].
  - split; [exact Hf|]. split; [exact Hq|]. split; [exact Hwf|].
    simpl. lia.
  - destruct (IH (signal i.1 i.2 st).1) as (I1 & I2 & I3 & I4).
    + exact Hf.
    + exact Hq.
    + now apply signal_well_formed.
    + split; [exact I1|]. split; [exact I2|]. split; [exact I3|].
      rewrite I4. unfold signal. cbn [fst signals set_signals length].
      rewrite length_app. simpl. lia.
Qed.

Lemma computed_in_sync g st :
  fns st = [] -> quiescent st -> well_formed st ->
  reads_below (length (signals st)) g ->
  (computed g st).1.1.2 = length (signals st) /\
  in_sync g (length (signals st)) (computed g st).1.1.1.
Proof.
  intros Hf Hq Hwf Hg.
  destruct Hq as (Hcur & Hstack & Hqueue & Hsch & Hm).
  pose proof (signal_well_formed VUndefined None st Hwf) as Hwf1.
  apply (alloc_well_formed _
           (Runner (assign (length (signals st)) g) true [])) in Hwf1;
    [|intros; congruence].
  unfold signal in Hwf1. cbn [fst fns set_signals] in Hwf1.
  unfold computed, signal, effect, effect_with.
  cbn [fns set_signals]. rewrite Hf in *. cbn [length app] in *.
  set (out := length (signals st)) in *.
  set (cell := {| _val := VUndefined; subs := []; equals := strict_eq |}) in *.
  set (st1 := set_fns [Runner (assign out g) true []]
                (set_signals (signals st ++ [cell]) st)) in *.
  pose proof (run_in_sync g out st1 [] cell) as Hrun.
  destruct (run_in 0 (exec (Some 0) (assign out g)) st1) as [st2 r].
  split; [reflexivity|]. simpl. apply Hrun; auto.
  - split; assumption.
  - subst st1. simpl. rewrite length_app. simpl. lia.
  - subst st1 out. simpl. rewrite lookup_app_r by lia.
    now rewrite Nat.sub_diag.
Qed.

Lemma signals_of_ready inits :
  fns (signals_of inits) = [] /\ quiescent (signals_of inits) /\
  well_formed (signals_of inits) /\
  length (signals (signals_of inits)) = length inits.
Proof.
  destruct (signals_of_spec inits initial_state) as (H1 & H2 & H3 & H4).
  - reflexivity.
  - repeat split.
  - apply well_formed_initial.
  - auto.
Qed.

Lemma computed_turns_in_sync inits g turns :
  reads_below (length inits) g ->
  Forall (Forall (fun w : nat * jsval => w.1 < length inits)) turns ->
  (computed g (signals_of inits)).1.1.2 = length inits /\
  in_sync g (length inits)
    (write_turns turns (computed g (signals_of inits)).1.1.1).
Proof.
  intros Hg Hturns.
  destruct (signals_of_ready inits) as (H1 & H2 & H3 & H4).
  destruct (computed_in_sync g (signals_of inits)) as [Ho Hs]; auto.
  { now rewrite H4. }
  rewrite H4 in Ho, Hs. split; [exact Ho|].
  now apply write_turns_in_sync.
Qed.

(** Nothing subscribes to a signal that the getter does not read as
    things stand. *)
Lemma in_sync_unread g out st s :
  in_sync g out st -> s ∉ path g (val_at st) -> subs_at st s = [].
Proof.
  intros (_ & Hwf & _ & _ & (deps & Hfns & Hdeps) & _) Hs.
  destruct Hwf as (Hw1 & Hw2 & _).
  destruct (subs_at st s) as [|x l] eqn:E; [reflexivity|exfalso].
  assert (Hx : x ∈ subs_at st s) by (rewrite E; left).
  pose proof (Hw2 s x Hx) as Hlt. rewrite Hfns in Hlt. simpl in Hlt.
  assert (x = 0) by lia. subst x.
  apply (Hw1 0 (assign out g) true deps) in Hx; [|rewrite Hfns; reflexivity].
  apply Hs, Hdeps, Hx.
Qed.

(** A write to a signal that nothing subscribes to wakes nothing. *)
Lemma set_value_unsubscribed s v st st' :
  set_value s v st = Some st' -> subs_at st s = [] ->
  _effectQueue st' = _effectQueue st /\
  _effectScheduled st' = _effectScheduled st /\
  microtasks st' = microtasks st /\
  invoked (log st') = invoked (log st).
Proof.
  unfold set_value, subs_at. intros H H0.
  destruct (signals st !! s) as [c|]; [|discriminate].
  destruct (equals c (_val c) v); injection H as <-; [auto|].
  rewrite H0. simpl. rewrite invoked_app. simpl. rewrite app_nil_r. auto.
Qed.

Lemma write_all_cons s v ws st :
  write_all ((s, v) :: ws) st
  = write_all ws (match set_value s v st with Some st' => st' | None => st end).
Proof. reflexivity. Qed.

Lemma write_all_unsubscribed ws : forall st,
  (forall w, w ∈ ws -> subs_at st w.1 = []) ->
  let st1 := write_all ws st in
  _effectQueue st1 = _effectQueue st /\
  _effectScheduled st1 = _effectScheduled st /\
  microtasks st1 = microtasks st /\
  invoked (log st1) = invoked (log st) /\
  (forall s, (forall w, w ∈ ws -> w.1 <> s) ->
             signals st1 !! s = signals st !! s).
Proof.
  induction ws as [|[s0 v0] ws IH]; intros st Hws.
  - simpl. auto.
  - cbv zeta. rewrite write_all_cons.
    assert (H0 : subs_at st s0 = []) by (apply (Hws (s0, v0)); left).
    assert (Hrest : forall w, w ∈ ws -> subs_at st w.1 = [])
      by (intros w Hw; apply Hws; now right).
    destruct (set_value s0 v0 st) as [st0|] eqn:E.
    + destruct (set_value_unsubscribed _ _ _ _ E H0) as (U1 & U2 & U3 & U4).
      destruct (set_value_frame _ _ _ _ E) as (_ & _ & _ & Hsubs).
      destruct (IH st0) as (I1 & I2 & I3 & I4 & I5).
      { intros w Hw. rewrite Hsubs. now apply Hrest. }
      split; [congruence|]. split; [congruence|]. split; [congruence|].
      split; [congruence|].
      intros s Hs. rewrite I5 by (intros w Hw; apply Hs; now right).
      apply (set_value_other _ _ _ _ _ E).
      intros ->. apply (Hs (s0, v0)); [left|reflexivity].
    + destruct (IH st Hrest) as (I1 & I2 & I3 & I4 & I5).
      repeat split; auto.
      intros s Hs. apply I5. intros w Hw. apply Hs. now right.
Qed.

(** *** What a computed gives its readers *)

(** Signals are made, then a computed whose getter reads only
    them, and turns follow in which code outside any effect writes those
    signals and the microtask left by the writes runs. After every turn
    nothing is running or waiting, and whenever the getter would return
    a value for what the signals hold now, that value is what the
    computed holds. *)
Theorem computed_follows_its_signals
    (inits : list (jsval * option (jsval -> jsval -> bool))) (g : getter)
    (turns : list (list (nat * jsval))) :
  reads_below (length inits) g ->
  Forall (Forall (fun w : nat * jsval => w.1 < length inits)) turns ->
  let made := computed g (signals_of inits) in
  let out := made.1.1.2 in
  let st' := write_turns turns made.1.1.1 in
  out = length inits /\ quiescent st' /\
  forall v, eval g (val_at st') = Some v -> val_at st' out = Some v.
Proof.
  intros Hg Hturns made out st'.
  destruct (computed_turns_in_sync inits g turns Hg Hturns) as [Ho Hs].
  subst made out st'. rewrite Ho.
  destruct Hs as (Hq & _ & _ & _ & _ & Hv).
  split; [reflexivity|]. split; [exact Hq|exact Hv].
Qed.

Lemma computed_follows_its_signals_witness :
  let made := computed either (signals_of [(VNum 0, None); (VNum 10, None)]) in
  let out := made.1.1.2 in
  let st' := write_turns [[(0, VNum 1)]; [(1, VNum 5); (0, VNum 0)]]
               made.1.1.1 in
  out = 2 /\ quiescent st' /\
  forall v, eval either (val_at st') = Some v -> val_at st' out = Some v.
Proof.
  apply (computed_follows_its_signals
           [(VNum 0, None); (VNum 10, None)] either
           [[(0, VNum 1)]; [(1, VNum 5); (0, VNum 0)]]).
  - split; [simpl; lia|].
    intros v. destruct v as [| |b|n| |s|a|nm ms]; try exact I.
    destruct n; [|exact I|exact I].
    split; [simpl; lia|]. intros w. exact I.
  - repeat constructor; simpl; lia.
Defined.

(** With signals, a computed over them and turns of writes as
    before: a further turn that writes only signals which the getter
    does not read for what the signals hold now calls no function, and
    leaves the computed its value. *)
Theorem computed_is_not_rerun_for_unread_signals
    (inits : list (jsval * option (jsval -> jsval -> bool))) (g : getter)
    (turns : list (list (nat * jsval))) (ws : list (nat * jsval)) :
  reads_below (length inits) g ->
  Forall (Forall (fun w : nat * jsval => w.1 < length inits)) turns ->
  let made := computed g (signals_of inits) in
  let st := write_turns turns made.1.1.1 in
  Forall (fun w : nat * jsval =>
            w.1 < length inits /\ w.1 ∉ path g (val_at st)) ws ->
  let st' := write_turn ws st in
  invoked (log st') = invoked (log st) /\
  val_at st' made.1.1.2 = val_at st made.1.1.2.
Proof.
  intros Hg Hturns made st Hws st'.
  destruct (computed_turns_in_sync inits g turns Hg Hturns) as [Ho Hs].
  fold made in Ho. fold made st in Hs.
  rewrite Forall_forall in Hws.
  destruct (write_all_unsubscribed ws st) as (I1 & I2 & I3 & I4 & I5).
  { intros w Hw. apply (in_sync_unread g (length inits)); [exact Hs|].
    now apply Hws. }
  destruct Hs as ((_ & _ & _ & _ & Hm) & _).
  assert (Est : st' = write_all ws st).
  { subst st'. unfold write_turn, run_microtask. rewrite I3, Hm. reflexivity. }
  rewrite Est. split; [exact I4|].
  unfold val_at. rewrite I5; [reflexivity|].
  intros w Hw. apply Hws in Hw. lia.
Qed.

Lemma computed_is_not_rerun_for_unread_signals_witness :
  let made := computed either (signals_of [(VNum 0, None); (VNum 10, None)]) in
  let st := write_turns [[(0, VNum 1)]] made.1.1.1 in
  let st' := write_turn [(1, VNum 5)] st in
  invoked (log st') = invoked (log st) /\
  val_at st' made.1.1.2 = val_at st made.1.1.2.
Proof.
  apply (computed_is_not_rerun_for_unread_signals
           [(VNum 0, None); (VNum 10, None)] either
           [[(0, VNum 1)]] [(1, VNum 5)]).
  - split; [simpl; lia|].
    intros v. destruct v as [| |b|n| |s|a|nm ms]; try exact I.
    destruct n; [|exact I|exact I].
    split; [simpl; lia|]. intros w. exact I.
  - repeat constructor; simpl; lia.
  - constructor; [|constructor]. split; [simpl; lia|].
    vm_compute. intros H. inversion H as [|? ? ? H']. inversion H'.
Defined.

End ComputedFacts.

(** ** An effect that writes what it reads *)

Module FeedbackFacts.
Import Reactive ReactiveFacts Derived LifecycleFacts.

Lemma set_add_nil x : set_add x [] = [x].
Proof.
  unfold set_add. destruct (decide (x ∈ [])) as [H|_]; [|reflexivity].
  now apply elem_of_nil in H.
Qed.

Lemma set_delete_single x : set_delete x [x] = [].
Proof. unfold set_delete. simpl. now rewrite Nat.eqb_refl. Qed.

(** One run of the runner, from a state where nothing else is running
    or waiting: it reads [s], writes it, and the write puts the runner
    back in the queue, with a flush to come. *)
Lemma run_feedback s h f st deps c :
  _currentEffect st = None -> _effectStack st = [] ->
  _effectQueue st = [] -> _effectScheduled st = false -> microtasks st = 0 ->
  fns st !! f = Some (Runner (feedback s h) true deps) ->
  signals st !! s = Some c ->
  (deps = [] /\ subs c = []) \/ (deps = [s] /\ subs c = [f]) ->
  (forall v, equals c v (h v) = false) ->
  let res := run_in f (exec (Some f) (feedback s h)) st in
  res.2 = Normal /\ feeding s h (equals c) f res.1 /\
  invoked (log res.1) = invoked (log st).
Proof.
  intros Hcur Hstack Hq Hsch Hm Hf Hc Hcase Hneq.
  assert (Hlt : f < length (fns st)) by (apply lookup_lt_is_Some_1; eauto).
  assert (Hclean : exists c1,
            cleanupEffect f st
            = set_fns (<[f := Runner (feedback s h) true []]> (fns st))
                (set_signals (<[s := c1]> (signals st)) st) /\
            _val c1 = _val c /\ subs c1 = [] /\ equals c1 = equals c).
  { unfold cleanupEffect. rewrite Hf.
    destruct Hcase as [[-> Hs]|[-> Hs]]; simpl.
    - exists c. rewrite (list_insert_id (signals st) s c Hc). auto.
    - exists (delete_sub f c). split.
      + f_equal. f_equal. apply list_eq. intros i.
        destruct (decide (i = s)) as [->|Hne].
        * rewrite list_lookup_alter_eq, Hc.
          rewrite list_lookup_insert_eq; [reflexivity|].
          apply lookup_lt_is_Some_1; eauto.
        * rewrite list_lookup_alter_ne, list_lookup_insert_ne by congruence.
          reflexivity.
      + simpl. rewrite Hs, set_delete_single. auto. }
  destruct Hclean as (c1 & Hcl & Hv1 & Hs1 & He1).
  assert (Hslt : s < length (signals st)) by (apply lookup_lt_is_Some_1; eauto).
  unfold run_in. rewrite Hcl.
  cbn [feedback exec]. unfold get_value.
  cbn [signals fns _currentEffect _effectStack set_current set_stack set_fns
       set_signals].
  rewrite list_lookup_insert_eq by exact Hslt.
  unfold set_value.
  cbn [signals fns emit emits set_fns set_signals].
  rewrite list_lookup_alter_eq, list_lookup_insert_eq by exact Hslt.
  cbn [fmap option_fmap option_map add_sub equals _val subs].
  rewrite He1, Hv1, Hneq, Hs1, set_add_nil.
  cbn [fold_left]. unfold scheduleEffect. simpl.
  rewrite Hq, Hsch, set_add_nil. simpl. rewrite Hstack. simpl.
  split; [reflexivity|]. split.
  - unfold feeding. simpl. rewrite Hm.
    split; [reflexivity|]. split; [reflexivity|]. split; [reflexivity|].
    split; [reflexivity|]. split; [reflexivity|]. split.
    + rewrite list_lookup_alter_eq, list_lookup_insert_eq by exact Hlt.
      simpl. now rewrite set_add_nil.
    + eexists. split.
      * rewrite !list_lookup_alter_eq, list_lookup_insert_eq by exact Hslt.
        reflexivity.
      * simpl. rewrite Hs1, set_add_nil. auto.
  - simpl. rewrite <- !app_assoc, invoked_app. simpl. apply app_nil_r.
Qed.

(** [effect(fn)] for such a function, when nothing is running or
    waiting and nothing subscribes to [s]. *)
Lemma effect_feeding s h st c :
  quiescent st -> signals st !! s = Some c -> subs c = [] ->
  (forall v, equals c v (h v) = false) ->
  let made := effect (feedback s h) st in
  made.1.2 = length (fns st) /\
  feeding s h (equals c) (length (fns st)) made.1.1 /\
  invoked (log made.1.1) = invoked (log st).
Proof.
  intros (Hcur & Hstack & Hq & Hsch & Hm) Hc Hsubs Hneq.
  unfold effect, effect_with.
  pose proof (run_feedback s h (length (fns st))
                (set_fns (fns st ++ [Runner (feedback s h) true []]) st)
                [] c Hcur Hstack Hq Hsch Hm) as Hrun.
  destruct (run_in (length (fns st))
              (exec (Some (length (fns st))) (feedback s h))
              (set_fns (fns st ++ [Runner (feedback s h) true []]) st))
    as [st' r].
  destruct Hrun as (_ & Hfeed & Hinv); auto.
  simpl. rewrite lookup_app_r by lia. now rewrite Nat.sub_diag.
Qed.

(** The flush that was waiting runs the runner, which leaves the next
    flush waiting. *)
Lemma microtask_feeding s h eq f st :
  feeding s h eq f st -> (forall v, eq v (h v) = false) ->
  let res := run_microtask st in
  res.2 = Normal /\ feeding s h eq f res.1 /\
  invoked (log res.1) = invoked (log st) ++ [f].
Proof.
  intros (Hm & Hsch & Hq & Hcur & Hstack & Hf & c & Hc & Hsubs & Heq) Hneq.
  subst eq.
  set (st1 := emit (EvInvoke f)
                (set_queue [] (set_scheduled false (set_microtasks 0 st)))).
  assert (Hflush : run_microtask st
                   = match run_in f (exec (Some f) (feedback s h)) st1 with
                     | (st', Normal) => (st', Normal)
                     | (st', Thrown e) => (emit (EvConsoleError e) st', Normal)
                     end).
  { unfold run_microtask. rewrite Hm. unfold flush.
    change (_effectQueue (set_scheduled false (set_microtasks 0 st)))
      with (_effectQueue st).
    rewrite Hq. unfold for_each, try_catch, call.
    change (fns (emit (EvInvoke f)
                   (set_queue [] (set_scheduled false (set_microtasks 0 st)))))
      with (fns st).
    rewrite Hf. fold st1.
    destruct (run_in f (exec (Some f) (feedback s h)) st1) as [st' [|e]];
      reflexivity. }
  rewrite Hflush.
  destruct (run_feedback s h f st1 [s] c) as (Hr & Hfeed & Hinv); auto.
  destruct (run_in f (exec (Some f) (feedback s h)) st1) as [st' r].
  simpl in Hr, Hfeed, Hinv. subst r. simpl.
  split; [reflexivity|]. split; [exact Hfeed|].
  rewrite Hinv. subst st1. simpl. now rewrite invoked_app.
Qed.

Lemma microtasks_feeding s h eq f n : forall st,
  feeding s h eq f st -> (forall v, eq v (h v) = false) ->
  feeding s h eq f (run_microtasks n st).1 /\
  invoked (log (run_microtasks n st).1) = invoked (log st) ++ repeat f n.
Proof.
  induction n as [|n IH]; intros st Hfeed Hneq.
  - simpl. rewrite app_nil_r. auto.
  - pose proof Hfeed as (Hm & _).
    destruct (microtask_feeding s h eq f st Hfeed Hneq) as (Hr & Hfeed' & Hinv).
    cbn [run_microtasks]. rewrite Hm.
    destruct (run_microtask st) as [st' r]. simpl in Hr, Hfeed', Hinv.
    subst r.
    destruct (IH st' Hfeed' Hneq) as [I1 I2].
    split; [exact I1|].
    rewrite I2, Hinv, <- app_assoc. reflexivity.
Qed.

(** An effect is made whose function reads a signal and writes
    it a value that the signal does not find equal to the one read,
    while nothing is running or waiting and nothing else subscribes to
    the signal. Then every flush runs the effect again and leaves
    another flush waiting: after any number of microtasks one more is
    pending, with the effect in the queue. *)
Theorem self_writing_effect_never_settles
    (st : state) (s : nat) (c : signal_cell) (h : jsval -> jsval) (n : nat) :
  quiescent st -> signals st !! s = Some c -> subs c = [] ->
  (forall v, equals c v (h v) = false) ->
  let made := effect (feedback s h) st in
  let st' := (run_microtasks n made.1.1).1 in
  microtasks st' = 1 /\ _effectQueue st' = [made.1.2] /\
  invoked (log st') = invoked (log st) ++ repeat made.1.2 n.
Proof.
  intros Hq Hc Hsubs Hneq made st'.
  destruct (effect_feeding s h st c Hq Hc Hsubs Hneq) as (Hf & Hfeed & Hinv).
  fold made in Hf, Hfeed, Hinv.
  destruct (microtasks_feeding s h (equals c) (length (fns st)) n made.1.1
              Hfeed Hneq) as [(Hm & _ & Hqueue & _) Hlog].
  fold st' in Hm, Hqueue, Hlog.
  rewrite Hf. split; [exact Hm|]. split; [exact Hqueue|].
  rewrite Hlog, Hinv. reflexivity.
Qed.

Lemma self_writing_effect_never_settles_witness :
  let st := (signal (VNum 0) None initial_state).1 in
  let made := effect (feedback 0 (fun _ => VNaN)) st in
  let st' := (run_microtasks 3 made.1.1).1 in
  microtasks st' = 1 /\ _effectQueue st' = [made.1.2] /\
  invoked (log st') = invoked (log st) ++ repeat made.1.2 3.
Proof.
  apply (self_writing_effect_never_settles
           (signal (VNum 0) None initial_state).1 0
           {| _val := VNum 0; subs := []; equals := strict_eq |}
           (fun _ => VNaN) 3).
  - repeat split.
  - reflexivity.
  - reflexivity.
  - intros v. destruct v; reflexivity.
Defined.

End FeedbackFacts.
